(** * DirectoryLoader: discovery and registration of nodes and credentials

    A shallow embedding of [packages/core/src/DirectoryLoader.ts] and the
    properties of its registry: [reset], include/exclude filtering, icon
    paths, version resolution, the eager loaders and the lazy loader with
    its fallback. *)

From Stdlib Require Import String Ascii List QArith Bool Lia Sorted.
From stdpp Require Import base option list strings gmap.

(** ** JavaScript strings and arrays

    The few built-ins of [String.prototype] and [Array.prototype] the loader
    calls. *)
Module Js.

(** [s.startsWith(p)] *)
Definition startsWith (s p : string) : bool := String.prefix p s.

Fixpoint drop_chars (n : nat) (s : string) : string :=
  match n, s with
  | S n', String _ s' => drop_chars n' s'
  | _, _ => s
  end.

(** [s.replace(pat, rep)] with a string pattern: only the first occurrence
    is replaced. *)
Fixpoint replace (pat rep s : string) : string :=
  if String.prefix pat s then rep +:+ drop_chars (String.length pat) s
  else match s with
       | EmptyString => EmptyString
       | String c s' => String c (replace pat rep s')
       end.

(** [l.includes(x)] on an array of strings *)
Definition includes (l : list string) (x : string) : bool :=
  existsb (String.eqb x) l.

(** [s.split(sep)] for a one-character separator *)
Fixpoint split (sep : ascii) (s : string) : list string :=
  match s with
  | EmptyString => [EmptyString]
  | String c s' =>
      if Ascii.eqb c sep then EmptyString :: split sep s'
      else match split sep s' with
           | [] => [String c EmptyString]
           | w :: ws => String c w :: ws
           end
  end.

(** [l.join(sep)] *)
Fixpoint join (sep : string) (l : list string) : string :=
  match l with
  | [] => EmptyString
  | [w] => w
  | w :: ws => w +:+ sep +:+ join sep ws
  end.

(** [_.uniqBy(l, key)]: the first element of every key class, in order. *)
Fixpoint uniqBy {A K : Type} (eqb : K -> K -> bool) (key : A -> K)
    (seen : list K) (l : list A) : list A :=
  match l with
  | [] => []
  | x :: xs =>
      if existsb (eqb (key x)) seen then uniqBy eqb key seen xs
      else x :: uniqBy eqb key (key x :: seen) xs
  end.

End Js.

(** ** [path.posix]

    Node's [path] module is not part of the repository; the functions the
    loader calls are modelled here after its POSIX implementation, on the
    list of segments between slashes. *)
Module Path.

Definition sep : ascii := "/"%char.

Definition isAbsolute (p : string) : bool :=
  match p with
  | String c _ => Ascii.eqb c sep
  | EmptyString => false
  end.

Fixpoint endsWithSep (p : string) : bool :=
  match p with
  | EmptyString => false
  | String c EmptyString => Ascii.eqb c sep
  | String _ p' => endsWithSep p'
  end.

(** [normalizeString]: empty segments and ["."] vanish, [".."] removes the
    segment before it, or stays when there is none to remove and the path
    is relative. [stack] is the result so far, last segment first. *)
Fixpoint normalizeSegments (allowAboveRoot : bool) (stack segs : list string)
    : list string :=
  match segs with
  | [] => rev stack
  | s :: rest =>
      if String.eqb s "" || String.eqb s "." then
        normalizeSegments allowAboveRoot stack rest
      else if String.eqb s ".." then
        match stack with
        | top :: stack' =>
            if String.eqb top ".." then
              normalizeSegments allowAboveRoot
                (if allowAboveRoot then ".." :: stack else stack) rest
            else normalizeSegments allowAboveRoot stack' rest
        | [] =>
            normalizeSegments allowAboveRoot
              (if allowAboveRoot then [".."] else []) rest
        end
      else normalizeSegments allowAboveRoot (s :: stack) rest
  end.

Definition normalizeString (p : string) (allowAboveRoot : bool) : string :=
  Js.join "/" (normalizeSegments allowAboveRoot [] (Js.split sep p)).

(** [path.normalize(p)] *)
Definition normalize (p : string) : string :=
  match p with
  | EmptyString => "."
  | _ =>
      let abs := isAbsolute p in
      let trailing := endsWithSep p in
      let q := normalizeString p (negb abs) in
      match q with
      | EmptyString => if abs then "/" else if trailing then "./" else "."
      | _ =>
          let q' := if trailing then q +:+ "/" else q in
          if abs then "/" +:+ q' else q'
      end
  end.

(** [path.join(a, b)]: empty arguments are skipped. *)
Definition join (a b : string) : string :=
  match a, b with
  | EmptyString, EmptyString => "."
  | EmptyString, _ => normalize b
  | _, EmptyString => normalize a
  | _, _ => normalize (a +:+ "/" +:+ b)
  end.

(** [path.resolve(dir, file)], with [cwd] the working directory of the
    process, itself an absolute path. *)
Definition resolve (cwd dir file : string) : string :=
  let joined :=
    if isAbsolute file then file
    else if isAbsolute dir then dir +:+ "/" +:+ file
    else cwd +:+ "/" +:+ dir +:+ "/" +:+ file in
  "/" +:+ normalizeString joined false.

Fixpoint dropTrailingSeps (r : list ascii) : list ascii :=
  match r with
  | c :: r' => if Ascii.eqb c sep then dropTrailingSeps r' else r
  | [] => []
  end.

Fixpoint dropToSep (r : list ascii) : option (list ascii) :=
  match r with
  | [] => None
  | c :: r' => if Ascii.eqb c sep then Some r' else dropToSep r'
  end.

(** [path.dirname(p)]: the scan runs from the end of [p] down to its second
    character, past the trailing slashes, to the last slash before the
    base name. *)
Definition dirname (p : string) : string :=
  match p with
  | EmptyString => "."
  | String c0 rest =>
      let hasRoot := Ascii.eqb c0 sep in
      let r := dropTrailingSeps (rev (list_ascii_of_string rest)) in
      match r with
      | [] => if hasRoot then "/" else "."
      | _ =>
          match dropToSep r with
          | None => if hasRoot then "/" else "."
          | Some before =>
              match before with
              | [] => if hasRoot then "//" else String c0 EmptyString
              | _ => String c0 (string_of_list_ascii (rev before))
              end
          end
      end
  end.

(** [path.parse(p).base] *)
Definition basename (p : string) : string :=
  let r := dropTrailingSeps (rev (list_ascii_of_string p)) in
  let fix upToSep (r : list ascii) : list ascii :=
    match r with
    | [] => []
    | c :: r' => if Ascii.eqb c sep then [] else c :: upToSep r'
    end in
  string_of_list_ascii (rev (upToSep r)).

(** [path.parse(p).name]: the base name without its extension, the text
    from its last dot on; a dot that opens the base name starts no
    extension, and [".."] has none. *)
Definition parseName (p : string) : string :=
  let base := basename p in
  let r := rev (list_ascii_of_string base) in
  let fix afterDot (r : list ascii) : option (list ascii) :=
    match r with
    | [] => None
    | c :: r' => if Ascii.eqb c "."%char then Some r' else afterDot r'
    end in
  if String.eqb base ".." then base
  else match afterDot r with
       | None | Some [] => base
       | Some before => string_of_list_ascii (rev before)
       end.

End Path.


(** ** Data model

    The shapes of [n8n-workflow] the loader reads and writes; the package is
    not among the sources, and a record has the fields [DirectoryLoader.ts]
    touches. An object used as a map from names is a finite map; the names
    are taken to be none of the properties every JavaScript object inherits.
    Version numbers are JavaScript numbers written as decimals ([1], [1.1],
    [2]); they are compared and copied, never computed with, and are
    rationals here. *)

(** [Themed<string>]: one icon, or one per colour scheme. *)
Inductive Themed : Type :=
  | Plain (s : string)
  | LightDark (light dark : string).

Definition DocumentationLink : Type := string.

Record CodexResources : Type := {
  primaryDocumentation : option (list DocumentationLink);
  credentialDocumentation : option (list DocumentationLink)
}.

(** Modelled from the spec: [CodexData] of [n8n-workflow], the
    categorization metadata of a component; also the content of a codex file
    next to a node file (type [Codex] of line 33, whose [resources] the
    loader expects to be there). *)
Record CodexData : Type := {
  categories : option (list string);
  subcategories : option (gmap string (list string));
  resources : option CodexResources;
  alias : option (list string)
}.

Record INodeCredentialDescription : Type := {
  cd_name : string;
  cd_required : bool
}.

(** [description.version]: one number or an array of numbers. *)
Inductive VersionDecl : Type :=
  | VSingle (v : Q)
  | VList (vs : list Q).

Record INodeTypeBaseDescription : Type := {
  bd_name : string;
  bd_icon : option Themed;
  bd_iconUrl : option Themed;
  bd_codex : option CodexData
}.

(** Modelled from the spec: the type descriptor
    [{ name, version(s), icon/iconUrl, credentials[], codex }], with the
    [__loadOptionsMethods] of line 301. *)
Record INodeTypeDescription : Type := {
  d_name : string;
  d_icon : option Themed;
  d_iconUrl : option Themed;
  d_version : VersionDecl;
  d_credentials : option (list INodeCredentialDescription);
  d_codex : option CodexData;
  d_loadOptionsMethods : option (list string)
}.

(** A node instance: [n_loadOptions] holds the keys of [methods.loadOptions]
    when the node has them, [n_executeSingle] says whether the instance has
    an own property ["executeSingle"]. *)
Record INodeType : Type := {
  n_className : string;
  n_description : INodeTypeDescription;
  n_loadOptions : option (list string);
  n_executeSingle : bool
}.

(** [nodeVersions] in the order [Object.values] enumerates it. *)
Record IVersionedNodeType : Type := {
  vn_className : string;
  vn_description : INodeTypeBaseDescription;
  vn_nodeVersions : list (Q * INodeType);
  vn_currentVersion : Q
}.

(** What a node file exports: ['nodeVersions' in tempNode] tells the two
    apart. *)
Inductive NodeClass : Type :=
  | Bare (n : INodeType)
  | Versioned (v : IVersionedNodeType).

Inductive Authenticate : Type :=
  | AuthFunction
  | AuthGeneric (properties : list (string * string)).

Record ICredentialType : Type := {
  c_className : string;
  c_name : string;
  c_icon : option Themed;
  c_iconUrl : option Themed;
  c_extends : option (list string);
  c_authenticate : option Authenticate;
  c_toJSON : bool
}.

(** The serializer of line 26, installed on every loaded credential: a
    function-valued [authenticate] is sent out as the empty object. *)
Definition toJSON (c : ICredentialType) : ICredentialType :=
  {| c_className := c_className c; c_name := c_name c; c_icon := c_icon c;
     c_iconUrl := c_iconUrl c; c_extends := c_extends c;
     c_authenticate :=
       match c_authenticate c with
       | Some AuthFunction => Some (AuthGeneric [])
       | a => a
       end;
     c_toJSON := c_toJSON c |}.

(** An array of node names held by a known-index entry: either the array
    object stored at a location of the loader's array store, which
    [nodesByCredential] holds too and keeps pushing to, or an array nothing
    else refers to (one parsed from a manifest). *)
Inductive ArrayRef : Type :=
  | ArrAt (loc : nat)
  | ArrOwn (v : list string).

Record LoadingDetails : Type := {
  kn_className : string;
  kn_sourcePath : string
}.

(** Modelled from the spec: the known-index entry
    [{ className, sourceLocation, extends?, supportedBy? }], with the field
    names of lines 190 to 195. *)
Record CredentialLoadingDetails : Type := {
  kc_className : string;
  kc_sourcePath : string;
  kc_extends : option (list string);
  kc_supportedNodes : option ArrayRef
}.

Record KnownNodesAndCredentials : Type := {
  k_nodes : gmap string LoadingDetails;
  k_credentials : gmap string CredentialLoadingDetails
}.

Record Types : Type := {
  t_nodes : list INodeTypeDescription;
  t_credentials : list ICredentialType
}.

Record INodeTypeNameVersion : Type := {
  nv_name : string;
  nv_version : option Q
}.

Record LoadedNode : Type := {
  ln_type : NodeClass;
  ln_sourcePath : string
}.

Record LoadedCredential : Type := {
  lc_type : ICredentialType;
  lc_sourcePath : string
}.

(** The mutable fields of a [DirectoryLoader]. [nodesByCredential] maps a
    credential name to the location of its array in [arrays]; the object
    [nodesByCredential] itself is [readonly] and lives as long as the
    loader. *)
Record Loader : Type := {
  isLazyLoaded : bool;
  loadedNodes : list INodeTypeNameVersion;
  nodeTypes : gmap string LoadedNode;
  credentialTypes : gmap string LoadedCredential;
  known : KnownNodesAndCredentials;
  types : Types;
  nodesByCredential : gmap string nat;
  arrays : list (list string)
}.

(** The field initializers of lines 49 to 67. *)
Definition new_loader : Loader :=
  {| isLazyLoaded := false;
     loadedNodes := [];
     nodeTypes := ∅;
     credentialTypes := ∅;
     known := {| k_nodes := ∅; k_credentials := ∅ |};
     types := {| t_nodes := []; t_credentials := [] |};
     nodesByCredential := ∅;
     arrays := [] |}.

(** [package.json] *)
Record N8nBlock : Type := {
  pj_nodes : option (list string);
  pj_credentials : option (list string)
}.

Record PackageJson : Type := {
  pj_name : string;
  pj_n8n : option N8nBlock
}.

(** The constructor arguments and what the subclasses fix at construction:
    [packageName] and, for the package loaders, the parsed [package.json]. *)
Record Config : Type := {
  directory : string;
  excludeNodes : list string;
  includeNodes : list string;
  packageName : string;
  packageJson : PackageJson
}.

Definition CustomDirectoryLoader (dir : string) (excl incl : list string) : Config :=
  {| directory := dir; excludeNodes := excl; includeNodes := incl;
     packageName := "CUSTOM";
     packageJson := {| pj_name := "CUSTOM"; pj_n8n := None |} |}.

Definition PackageDirectoryLoader (dir : string) (excl incl : list string)
    (pj : PackageJson) : Config :=
  {| directory := dir; excludeNodes := excl; includeNodes := incl;
     packageName := pj_name pj;
     packageJson := pj |}.

(** Modelled from the spec: [CUSTOM_NODES_CATEGORY] of [./Constants], a file
    the sources do not include, is the fixed category tag of the custom
    namespace; nothing below depends on its value. *)
Definition CUSTOM_NODES_CATEGORY : string := "Custom Nodes".

(** ** The world outside the loader

    What the file system and the class loader answer. [loadClassInIsolation]
    of [./ClassLoader] is not among the sources: its answers are a parameter,
    and so are those of [glob], [module.require] and [readFile]. *)

(** The outcome of [loadClassInIsolation]. *)
Inductive Loaded (T : Type) : Type :=
  | Instance (t : T)
  | ThrowsTypeError
  | ThrowsOther (msg : string).
Arguments Instance {T} t.
Arguments ThrowsTypeError {T}.
Arguments ThrowsOther {T} msg.

Record World : Type := {
  cwd : string;
  (** [loadClassInIsolation(filePath, className)] on a node file and on a
      credential file *)
  loadNodeClass : string -> string -> Loaded NodeClass;
  loadCredentialClass : string -> string -> Loaded ICredentialType;
  (** [module.require(codexFilePath)]; [None] when it throws *)
  requireCodex : string -> option CodexData;
  (** [glob(pattern, { cwd, absolute: true })] *)
  glob : string -> string -> list string;
  (** [readJSON] at each of the four manifest types; [None] when the file
      cannot be read or parsed *)
  readKnownNodes : string -> option (gmap string LoadingDetails);
  readKnownCredentials : string -> option (gmap string CredentialLoadingDetails);
  readTypesNodes : string -> option (list INodeTypeDescription);
  readTypesCredentials : string -> option (list ICredentialType)
}.

(** ** Exceptions and the loader's run-time state

    A JavaScript exception leaves every assignment made before it in place,
    so a computation returns the state it reached together with its result or
    the exception. [resolverCalls] logs the calls of [loadClassInIsolation],
    as the tests count them. *)
Inductive Thrown : Type :=
  | ClassNotFound (className : string)
  | ExecuteSingleRemoved (nodeName : string)
  | TypeError
  | FailedToRead (filePath : string)
  | Rethrown (msg : string).

Inductive Outcome (A : Type) : Type :=
  | Done (a : A)
  | Threw (e : Thrown).
Arguments Done {A} a.
Arguments Threw {A} e.

Record Runtime : Type := {
  ldr : Loader;
  resolverCalls : list (string * string)
}.

Definition M (A : Type) : Type := Runtime -> Runtime * Outcome A.

Definition ret {A : Type} (a : A) : M A := fun s => (s, Done a).

Definition throw {A : Type} (e : Thrown) : M A := fun s => (s, Threw e).

Definition bind {A B : Type} (m : M A) (k : A -> M B) : M B :=
  fun s =>
    match m s with
    | (s', Done a) => k a s'
    | (s', Threw e) => (s', Threw e)
    end.

(** [try { body } catch { handler }] *)
Definition try_catch {A : Type} (body handler : M A) : M A :=
  fun s =>
    match body s with
    | (s', Done a) => (s', Done a)
    | (s', Threw _) => handler s'
    end.

(** An assignment to fields of [this]. *)
Definition modify (f : Loader -> Loader) : M unit :=
  fun s => ({| ldr := f (ldr s); resolverCalls := resolverCalls s |}, Done tt).

Declare Scope loader_scope.
Delimit Scope loader_scope with loader.
Notation "x <- m ;; k" := (bind m (fun x => k))
  (at level 100, m at next level, right associativity) : loader_scope.
Notation "m ;;; k" := (bind m (fun _ => k))
  (at level 100, right associativity) : loader_scope.
Local Open Scope loader_scope.

(** [for (const x of l) { f(x) }] *)
Fixpoint forEach {A : Type} (f : A -> M unit) (l : list A) : M unit :=
  match l with
  | [] => ret tt
  | x :: xs => f x ;;; forEach f xs
  end.

(** Field updates of [Loader]. *)
Definition set_isLazyLoaded (b : bool) (l : Loader) : Loader :=
  {| isLazyLoaded := b; loadedNodes := loadedNodes l; nodeTypes := nodeTypes l;
     credentialTypes := credentialTypes l; known := known l; types := types l;
     nodesByCredential := nodesByCredential l; arrays := arrays l |}.

Definition set_loadedNodes (v : list INodeTypeNameVersion) (l : Loader) : Loader :=
  {| isLazyLoaded := isLazyLoaded l; loadedNodes := v; nodeTypes := nodeTypes l;
     credentialTypes := credentialTypes l; known := known l; types := types l;
     nodesByCredential := nodesByCredential l; arrays := arrays l |}.

Definition set_nodeTypes (v : gmap string LoadedNode) (l : Loader) : Loader :=
  {| isLazyLoaded := isLazyLoaded l; loadedNodes := loadedNodes l; nodeTypes := v;
     credentialTypes := credentialTypes l; known := known l; types := types l;
     nodesByCredential := nodesByCredential l; arrays := arrays l |}.

Definition set_credentialTypes (v : gmap string LoadedCredential) (l : Loader) : Loader :=
  {| isLazyLoaded := isLazyLoaded l; loadedNodes := loadedNodes l;
     nodeTypes := nodeTypes l; credentialTypes := v; known := known l;
     types := types l; nodesByCredential := nodesByCredential l;
     arrays := arrays l |}.

Definition set_known (v : KnownNodesAndCredentials) (l : Loader) : Loader :=
  {| isLazyLoaded := isLazyLoaded l; loadedNodes := loadedNodes l;
     nodeTypes := nodeTypes l; credentialTypes := credentialTypes l; known := v;
     types := types l; nodesByCredential := nodesByCredential l;
     arrays := arrays l |}.

Definition set_types (v : Types) (l : Loader) : Loader :=
  {| isLazyLoaded := isLazyLoaded l; loadedNodes := loadedNodes l;
     nodeTypes := nodeTypes l; credentialTypes := credentialTypes l;
     known := known l; types := v; nodesByCredential := nodesByCredential l;
     arrays := arrays l |}.

Definition set_nodesByCredential (v : gmap string nat) (a : list (list string))
    (l : Loader) : Loader :=
  {| isLazyLoaded := isLazyLoaded l; loadedNodes := loadedNodes l;
     nodeTypes := nodeTypes l; credentialTypes := credentialTypes l;
     known := known l; types := types l; nodesByCredential := v; arrays := a |}.

Definition set_known_nodes (v : gmap string LoadingDetails) (l : Loader) : Loader :=
  set_known {| k_nodes := v; k_credentials := k_credentials (known l) |} l.

Definition set_known_credentials (v : gmap string CredentialLoadingDetails)
    (l : Loader) : Loader :=
  set_known {| k_nodes := k_nodes (known l); k_credentials := v |} l.

Definition set_types_nodes (v : list INodeTypeDescription) (l : Loader) : Loader :=
  set_types {| t_nodes := v; t_credentials := t_credentials (types l) |} l.

Definition set_types_credentials (v : list ICredentialType) (l : Loader) : Loader :=
  set_types {| t_nodes := t_nodes (types l); t_credentials := v |} l.

(** ** Objects with an icon

    [fixIconPaths] takes a node description, a base description or a
    credential: anything with the fields [icon] and [iconUrl]. *)
Class Iconic (A : Type) : Type := {
  getIcon : A -> option Themed;
  getIconUrl : A -> option Themed;
  setIconUrl : Themed -> A -> A;
  deleteIcon : A -> A
}.

#[export] Instance Iconic_description : Iconic INodeTypeDescription := {
  getIcon := d_icon;
  getIconUrl := d_iconUrl;
  setIconUrl u d :=
    {| d_name := d_name d; d_icon := d_icon d; d_iconUrl := Some u;
       d_version := d_version d; d_credentials := d_credentials d;
       d_codex := d_codex d; d_loadOptionsMethods := d_loadOptionsMethods d |};
  deleteIcon d :=
    {| d_name := d_name d; d_icon := None; d_iconUrl := d_iconUrl d;
       d_version := d_version d; d_credentials := d_credentials d;
       d_codex := d_codex d; d_loadOptionsMethods := d_loadOptionsMethods d |}
}.

#[export] Instance Iconic_base : Iconic INodeTypeBaseDescription := {
  getIcon := bd_icon;
  getIconUrl := bd_iconUrl;
  setIconUrl u d :=
    {| bd_name := bd_name d; bd_icon := bd_icon d; bd_iconUrl := Some u;
       bd_codex := bd_codex d |};
  deleteIcon d :=
    {| bd_name := bd_name d; bd_icon := None; bd_iconUrl := bd_iconUrl d;
       bd_codex := bd_codex d |}
}.

#[export] Instance Iconic_credential : Iconic ICredentialType := {
  getIcon := c_icon;
  getIconUrl := c_iconUrl;
  setIconUrl u c :=
    {| c_className := c_className c; c_name := c_name c; c_icon := c_icon c;
       c_iconUrl := Some u; c_extends := c_extends c;
       c_authenticate := c_authenticate c; c_toJSON := c_toJSON c |};
  deleteIcon c :=
    {| c_className := c_className c; c_name := c_name c; c_icon := None;
       c_iconUrl := c_iconUrl c; c_extends := c_extends c;
       c_authenticate := c_authenticate c; c_toJSON := c_toJSON c |}
}.

(** ** The abstract class [DirectoryLoader] *)
Section DirectoryLoader.

Context (w : World) (cfg : Config).

(** Lines 79 to 85. *)
Definition reset (l : Loader) : Loader :=
  set_types {| t_nodes := []; t_credentials := [] |}
    (set_known {| k_nodes := ∅; k_credentials := ∅ |}
       (set_credentialTypes ∅ (set_nodeTypes ∅ (set_loadedNodes [] l)))).

Definition resolvePath (file : string) : string :=
  Path.resolve (cwd w) (directory cfg) file.

(** Line 93: [path.parse(sourcePath).name.split('.')], first element. *)
Definition classNameOf (sourcePath : string) : string :=
  hd EmptyString (Js.split "."%char (Path.parseName sourcePath)).

(** Lines 91 to 104: a [TypeError] of the class loader becomes the
    "class could not be found" error, anything else is thrown on. *)
Definition loadClass {T : Type} (loadClassInIsolation : string -> string -> Loaded T)
    (sourcePath : string) : M T :=
  let filePath := resolvePath sourcePath in
  let className := classNameOf sourcePath in
  fun s =>
    let s' := {| ldr := ldr s;
                 resolverCalls := resolverCalls s ++ [(filePath, className)] |} in
    match loadClassInIsolation filePath className with
    | Instance t => (s', Done t)
    | ThrowsTypeError => (s', Threw (ClassNotFound className))
    | ThrowsOther msg => (s', Threw (Rethrown msg))
    end.

(** Lines 243 to 262; [None] when [module.require] throws or the file has
    no [resources] to destructure. *)
Definition getCodex (filePath : string) : option CodexData :=
  let codexFilePath := resolvePath (filePath +:+ "on") in
  match requireCodex w codexFilePath with
  | Some file =>
      match resources file with
      | Some r =>
          Some {| categories := categories file;
                  subcategories := subcategories file;
                  resources := Some r;
                  alias := alias file |}
      | None => None
      end
  | None => None
  end.

(** Lines 268 to 297, on the [codex] field of the node's description: the
    value the field holds afterwards. *)
Definition addCodex (nodeCodex : option CodexData) (filePath : string)
    : option CodexData :=
  let isCustom := String.eqb (packageName cfg) "CUSTOM" in
  let codex := if isCustom then None else nodeCodex in
  let codex := match codex with
               | Some c => Some c
               | None => getCodex filePath
               end in
  match codex with
  | Some c =>
      Some (if isCustom then
              {| categories :=
                   Some match categories c with
                        | Some cs => cs ++ [CUSTOM_NODES_CATEGORY]
                        | None => [CUSTOM_NODES_CATEGORY]
                        end;
                 subcategories := subcategories c;
                 resources := resources c;
                 alias := alias c |}
            else c)
  | None =>
      if isCustom then
        Some {| categories := Some [CUSTOM_NODES_CATEGORY];
                subcategories := None; resources := None; alias := None |}
      else nodeCodex
  end.

Definition set_d_codex (c : option CodexData) (d : INodeTypeDescription)
    : INodeTypeDescription :=
  {| d_name := d_name d; d_icon := d_icon d; d_iconUrl := d_iconUrl d;
     d_version := d_version d; d_credentials := d_credentials d;
     d_codex := c; d_loadOptionsMethods := d_loadOptionsMethods d |}.

Definition set_bd_codex (c : option CodexData) (d : INodeTypeBaseDescription)
    : INodeTypeBaseDescription :=
  {| bd_name := bd_name d; bd_icon := bd_icon d; bd_iconUrl := bd_iconUrl d;
     bd_codex := c |}.

Definition set_n_description (d : INodeTypeDescription) (n : INodeType) : INodeType :=
  {| n_className := n_className n; n_description := d;
     n_loadOptions := n_loadOptions n; n_executeSingle := n_executeSingle n |}.

Definition set_vn_description (d : INodeTypeBaseDescription)
    (v : IVersionedNodeType) : IVersionedNodeType :=
  {| vn_className := vn_className v; vn_description := d;
     vn_nodeVersions := vn_nodeVersions v;
     vn_currentVersion := vn_currentVersion v |}.

Definition set_vn_nodeVersions (vs : list (Q * INodeType))
    (v : IVersionedNodeType) : IVersionedNodeType :=
  {| vn_className := vn_className v; vn_description := vn_description v;
     vn_nodeVersions := vs; vn_currentVersion := vn_currentVersion v |}.

(** [addCodex(node, filePath)] on either kind of node. *)
Definition addCodexNode (node : NodeClass) (filePath : string) : NodeClass :=
  match node with
  | Bare n =>
      Bare (set_n_description
              (set_d_codex (addCodex (d_codex (n_description n)) filePath)
                 (n_description n)) n)
  | Versioned v =>
      Versioned (set_vn_description
                   (set_bd_codex (addCodex (bd_codex (vn_description v)) filePath)
                      (vn_description v)) v)
  end.

(** Lines 299 to 303. *)
Definition addLoadOptionsMethods (node : INodeType) : INodeType :=
  match n_loadOptions node with
  | Some keys =>
      let d := n_description node in
      set_n_description
        {| d_name := d_name d; d_icon := d_icon d; d_iconUrl := d_iconUrl d;
           d_version := d_version d; d_credentials := d_credentials d;
           d_codex := d_codex d; d_loadOptionsMethods := Some keys |} node
  | None => node
  end.

(** Lines 305 to 308. *)
Definition getIconPath (icon filePath : string) : string :=
  let iconPath := Path.join (Path.dirname filePath) (Js.replace "file:" "" icon) in
  "icons/" +:+ packageName cfg +:+ "/" +:+ iconPath.

(** Lines 310 to 329. An empty string is a falsy [icon]. *)
Definition fixIconPaths {A : Type} `{Iconic A} (obj : A) (filePath : string) : A :=
  match getIcon obj with
  | None => obj
  | Some (Plain icon) =>
      if String.eqb icon "" then obj
      else if Js.startsWith icon "file:" then
        deleteIcon (setIconUrl (Plain (getIconPath icon filePath)) obj)
      else obj
  | Some (LightDark light dark) =>
      if Js.startsWith light "file:" && Js.startsWith dark "file:" then
        deleteIcon
          (setIconUrl (LightDark (getIconPath light filePath)
                                 (getIconPath dark filePath)) obj)
      else obj
  end.

Definition nodeName (node : NodeClass) : string :=
  match node with
  | Bare n => d_name (n_description n)
  | Versioned v => bd_name (vn_description v)
  end.

Definition nodeClassName (node : NodeClass) : string :=
  match node with
  | Bare n => n_className n
  | Versioned v => vn_className v
  end.

(** [nodeVersions[key]] and the update of the object found there; the keys
    of an object are distinct. *)
Fixpoint lookupVersion (key : Q) (vs : list (Q * INodeType)) : option INodeType :=
  match vs with
  | [] => None
  | (k, n) :: rest => if Qeq_bool k key then Some n else lookupVersion key rest
  end.

Fixpoint updateVersion (key : Q) (f : INodeType -> INodeType)
    (vs : list (Q * INodeType)) : list (Q * INodeType) :=
  match vs with
  | [] => []
  | (k, n) :: rest =>
      if Qeq_bool k key then (k, f n) :: rest
      else (k, n) :: updateVersion key f rest
  end.

(** The key of line 232: [version.join(',')] or [version.toString()]. Two
    keys are the same string exactly when they list the same numbers, a
    single number counting as the list of itself. *)
Definition versionKey (node : INodeType) : list Q :=
  match d_version (n_description node) with
  | VSingle v => [v]
  | VList vs => vs
  end.

Fixpoint versionKey_eqb (a b : list Q) : bool :=
  match a, b with
  | [], [] => true
  | x :: a', y :: b' => Qeq_bool x y && versionKey_eqb a' b'
  | _, _ => false
  end.

(** Lines 224 to 228: every variant takes the name and the codex of the
    versioned node. The variants are objects of [nodeVersions], which the
    node recorded in [nodeTypes] shares. *)
Definition renameVersions (v : IVersionedNodeType) : list (Q * INodeType) :=
  map (fun kv : Q * INodeType =>
         let d := n_description (snd kv) in
         (fst kv,
          set_n_description
            {| d_name := bd_name (vn_description v); d_icon := d_icon d;
               d_iconUrl := d_iconUrl d; d_version := d_version d;
               d_credentials := d_credentials d;
               d_codex := bd_codex (vn_description v);
               d_loadOptionsMethods := d_loadOptionsMethods d |} (snd kv)))
      (vn_nodeVersions v).

(** Lines 220 to 237. *)
Definition getVersionedNodeTypeAll (object : NodeClass) : list INodeType :=
  match object with
  | Versioned v =>
      Js.uniqBy versionKey_eqb versionKey [] (rev (map snd (renameVersions v)))
  | Bare n => [n]
  end.

(** Lines 205 to 218; [credentials ?? []]. *)
Definition getCredentialsForNode (object : NodeClass)
    : list INodeCredentialDescription :=
  match object with
  | Versioned v =>
      Js.uniqBy String.eqb cd_name []
        (flat_map (fun kv : Q * INodeType =>
                     default [] (d_credentials (n_description (snd kv))))
                  (vn_nodeVersions v))
  | Bare n => default [] (d_credentials (n_description n))
  end.

(** Lines 172 to 175: the array of a credential is created on first use
    and pushed to from then on. *)
Definition pushNodeByCredential (credential nodeType : string) (l : Loader) : Loader :=
  let l1 :=
    match nodesByCredential l !! credential with
    | Some _ => l
    | None =>
        set_nodesByCredential
          (<[credential := length (arrays l)]> (nodesByCredential l))
          (arrays l ++ [[]]) l
    end in
  match nodesByCredential l1 !! credential with
  | Some loc =>
      set_nodesByCredential (nodesByCredential l1)
        (alter (fun a => a ++ [nodeType]) loc (arrays l1)) l1
  | None => l1
  end.

(** Lines 113 to 119: whether a node of this name gets past the filter. *)
Definition accepts (nodeType : string) : bool :=
  let fullNodeType := packageName cfg +:+ "." +:+ nodeType in
  if negb (Nat.eqb (length (includeNodes cfg)) 0)
     && negb (Js.includes (includeNodes cfg) fullNodeType)
  then false
  else if Js.includes (excludeNodes cfg) fullNodeType then false
  else true.

(** Lines 121 to 150: the node after icons, load-options methods and, for a
    versioned node, the codex of its current variant; with the version to
    record. A versioned node whose [currentVersion] names no variant makes
    [addCodex] throw a [TypeError] in its own handler. *)
Definition prepareNode (tempNode : NodeClass) (filePath : string)
    : Outcome (NodeClass * option Q) :=
  match tempNode with
  | Versioned v =>
      let v := set_vn_description (fixIconPaths (vn_description v) filePath) v in
      let vs := map (fun kv : Q * INodeType =>
                       (fst kv,
                        set_n_description
                          (fixIconPaths (n_description (snd kv)) filePath) (snd kv)))
                    (vn_nodeVersions v) in
      let vs := map (fun kv : Q * INodeType =>
                       (fst kv, addLoadOptionsMethods (snd kv))) vs in
      match lookupVersion (vn_currentVersion v) vs with
      | None => Threw TypeError
      | Some currentVersionNode =>
          let vs := updateVersion (vn_currentVersion v)
                      (fun n => set_n_description
                                  (set_d_codex
                                     (addCodex (d_codex (n_description n)) filePath)
                                     (n_description n)) n) vs in
          if n_executeSingle currentVersionNode then
            Threw (ExecuteSingleRemoved
                     (packageName cfg +:+ "." +:+ bd_name (vn_description v)))
          else Done (Versioned (set_vn_nodeVersions vs v),
                     Some (vn_currentVersion v))
      end
  | Bare n =>
      let n := set_n_description (fixIconPaths (n_description n) filePath) n in
      let n := addLoadOptionsMethods n in
      Done (Bare n,
            match d_version (n_description n) with
            | VList vs => last vs
            | VSingle v => Some v
            end)
  end.

(** Lines 152 to 176. [nodeTypes] holds the node object itself, so it sees
    what [getVersionedNodeTypeAll] writes into the variants a moment
    later. *)
Definition recordNode (tempNode : NodeClass) (nodeVersion : option Q)
    (filePath : string) (l : Loader) : Loader :=
  let nodeType := nodeName tempNode in
  let stored :=
    match tempNode with
    | Versioned v => Versioned (set_vn_nodeVersions (renameVersions v) v)
    | Bare n => Bare n
    end in
  let l := set_known_nodes
             (<[nodeType := {| kn_className := nodeClassName tempNode;
                               kn_sourcePath := filePath |}]> (k_nodes (known l))) l in
  let l := set_nodeTypes
             (<[nodeType := {| ln_type := stored; ln_sourcePath := filePath |}]>
                (nodeTypes l)) l in
  let l := set_loadedNodes
             (loadedNodes l ++ [{| nv_name := nodeType; nv_version := nodeVersion |}]) l in
  let l := set_types_nodes
             (t_nodes (types l) ++ map n_description (getVersionedNodeTypeAll tempNode)) l in
  fold_left (fun l credential => pushNodeByCredential (cd_name credential) nodeType l)
            (getCredentialsForNode tempNode) l.

(** Lines 106 to 177. *)
Definition loadNodeFromFile (filePath : string) : M unit :=
  tempNode <- loadClass (loadNodeClass w) filePath ;;
  let tempNode := addCodexNode tempNode filePath in
  if accepts (nodeName tempNode) then
    match prepareNode tempNode filePath with
    | Threw e => throw e
    | Done (tempNode, nodeVersion) =>
        modify (recordNode tempNode nodeVersion filePath)
    end
  else ret tt.

(** Lines 179 to 203. *)
Definition loadCredentialFromFile (filePath : string) : M unit :=
  tempCredential <- loadClass (loadCredentialClass w) filePath ;;
  let tempCredential :=
    {| c_className := c_className tempCredential;
       c_name := c_name tempCredential; c_icon := c_icon tempCredential;
       c_iconUrl := c_iconUrl tempCredential;
       c_extends := c_extends tempCredential;
       c_authenticate := c_authenticate tempCredential;
       c_toJSON := true |} in
  let tempCredential := fixIconPaths tempCredential filePath in
  let credentialType := c_name tempCredential in
  modify (fun l =>
    let l := set_known_credentials
               (<[credentialType :=
                    {| kc_className := c_className tempCredential;
                       kc_sourcePath := filePath;
                       kc_extends := c_extends tempCredential;
                       kc_supportedNodes :=
                         ArrAt <$> nodesByCredential l !! credentialType |}]>
                  (k_credentials (known l))) l in
    let l := set_credentialTypes
               (<[credentialType := {| lc_type := tempCredential;
                                       lc_sourcePath := filePath |}]>
                  (credentialTypes l)) l in
    set_types_credentials (t_credentials (types l) ++ [tempCredential]) l).

End DirectoryLoader.

(** ** The three loaders *)
Section Loaders.

Context (w : World) (cfg : Config).

(** [CustomDirectoryLoader.loadAll], lines 339 to 357. *)
Definition Custom_loadAll : M unit :=
  let nodes := glob w "**/*.node.js" (directory cfg) in
  forEach (loadNodeFromFile w cfg) nodes ;;;
  let credentials := glob w "**/*.credentials.js" (directory cfg) in
  forEach (loadCredentialFromFile w cfg) credentials.

(** [PackageDirectoryLoader.loadAll], lines 369 to 391. *)
Definition Package_loadAll : M unit :=
  match pj_n8n (packageJson cfg) with
  | None => ret tt
  | Some n8n =>
      match pj_nodes n8n with
      | Some nodes => forEach (loadNodeFromFile w cfg) nodes
      | None => ret tt
      end ;;;
      match pj_credentials n8n with
      | Some credentials => forEach (loadCredentialFromFile w cfg) credentials
      | None => ret tt
      end
  end.

(** [readJSON], lines 404 to 413, at one of the manifest types. *)
Definition readJSON {T : Type} (read : string -> option T) (file : string) : M T :=
  let filePath := resolvePath w cfg file in
  match read filePath with
  | Some t => ret t
  | None => throw (FailedToRead filePath)
  end.

(** Lines 428 to 440. *)
Definition applyIncludeNodes (l : Loader) : Loader :=
  if negb (Nat.eqb (length (includeNodes cfg)) 0) then
    let allowedNodes :=
      fold_left (fun (allowed : gmap string LoadingDetails) nodeName =>
                   match k_nodes (known l) !! nodeName with
                   | Some details => <[nodeName := details]> allowed
                   | None => allowed
                   end)
                (includeNodes cfg) ∅ in
    let l := set_known_nodes allowedNodes l in
    set_types_nodes
      (List.filter (fun nodeType => Js.includes (includeNodes cfg) (d_name nodeType))
                   (t_nodes (types l))) l
  else l.

(** Lines 442 to 450. *)
Definition applyExcludeNodes (l : Loader) : Loader :=
  if negb (Nat.eqb (length (excludeNodes cfg)) 0) then
    let l := set_known_nodes
               (fold_left (fun (nodes : gmap string LoadingDetails) nodeName =>
                             delete nodeName nodes)
                          (excludeNodes cfg) (k_nodes (known l))) l in
    set_types_nodes
      (List.filter (fun nodeType =>
                      negb (Js.includes (excludeNodes cfg) (d_name nodeType)))
                   (t_nodes (types l))) l
  else l.

(** The [try] block of [LazyPackageDirectoryLoader.loadAll], lines 422 to
    459. *)
Definition Lazy_tryBlock : M unit :=
  nodes <- readJSON (readKnownNodes w) "dist/known/nodes.json" ;;
  modify (set_known_nodes nodes) ;;;
  credentials <- readJSON (readKnownCredentials w) "dist/known/credentials.json" ;;
  modify (set_known_credentials credentials) ;;;
  nodes <- readJSON (readTypesNodes w) "dist/types/nodes.json" ;;
  modify (set_types_nodes nodes) ;;;
  credentials <- readJSON (readTypesCredentials w) "dist/types/credentials.json" ;;
  modify (set_types_credentials credentials) ;;;
  modify applyIncludeNodes ;;;
  modify applyExcludeNodes ;;;
  modify (set_isLazyLoaded true).

(** [LazyPackageDirectoryLoader.loadAll], lines 420 to 464. *)
Definition Lazy_loadAll : M unit :=
  try_catch Lazy_tryBlock Package_loadAll.

End Loaders.

(** A run starts with the loader as it is and an empty log of resolver
    calls. *)
Definition run {A : Type} (m : M A) (l : Loader) : Runtime * Outcome A :=
  m {| ldr := l; resolverCalls := [] |}.

(** ** What a reader of the registry sees

    The registry with every array reference replaced by the content of the
    array: the value [toEqual] of the tests, or a serialization, compares. *)
Definition readArray (l : Loader) (r : ArrayRef) : option (list string) :=
  match r with
  | ArrAt loc => arrays l !! loc
  | ArrOwn v => Some v
  end.

Record KnownCredentialView : Type := {
  kv_className : string;
  kv_sourcePath : string;
  kv_extends : option (list string);
  kv_supportedNodes : option (list string)
}.

Definition viewKnownCredential (l : Loader) (k : CredentialLoadingDetails)
    : KnownCredentialView :=
  {| kv_className := kc_className k; kv_sourcePath := kc_sourcePath k;
     kv_extends := kc_extends k;
     kv_supportedNodes := kc_supportedNodes k ≫= readArray l |}.

Record Registry : Type := {
  r_isLazyLoaded : bool;
  r_loadedNodes : list INodeTypeNameVersion;
  r_nodeTypes : gmap string LoadedNode;
  r_credentialTypes : gmap string LoadedCredential;
  r_known_nodes : gmap string LoadingDetails;
  r_known_credentials : gmap string KnownCredentialView;
  r_types : Types;
  r_nodesByCredential : gmap string (list string)
}.

Definition view (l : Loader) : Registry :=
  {| r_isLazyLoaded := isLazyLoaded l;
     r_loadedNodes := loadedNodes l;
     r_nodeTypes := nodeTypes l;
     r_credentialTypes := credentialTypes l;
     r_known_nodes := k_nodes (known l);
     r_known_credentials := viewKnownCredential l <$> k_credentials (known l);
     r_types := types l;
     r_nodesByCredential :=
       omap (fun loc => arrays l !! loc) (nodesByCredential l) |}.

(** ** The scenario of [DirectoryLoader.test.ts]

    Two node files and one credential file; [node1] declares
    [credential1]. *)
Module Scenario.

Definition createNode (className name : string) (credential : option string)
    : NodeClass :=
  Bare {| n_className := className;
          n_description :=
            {| d_name := name;
               d_icon := Some (Plain ("file:" +:+ name +:+ ".svg"));
               d_iconUrl := None;
               d_version := VSingle 1;
               d_credentials :=
                 Some match credential with
                      | Some c => [{| cd_name := c; cd_required := false |}]
                      | None => []
                      end;
               d_codex := None;
               d_loadOptionsMethods := None |};
          n_loadOptions := None;
          n_executeSingle := false |}.

Definition createCredential (className name : string) : ICredentialType :=
  {| c_className := className; c_name := name;
     c_icon := Some (Plain ("file:" +:+ name +:+ ".svg"));
     c_iconUrl := None; c_extends := None; c_authenticate := None;
     c_toJSON := false |}.

Definition world : World :=
  {| cwd := "/";
     loadNodeClass := fun _ className =>
       if String.eqb className "Node1"
       then Instance (createNode "Node1" "node1" (Some "credential1"))
       else if String.eqb className "Node2"
       then Instance (createNode "Node2" "node2" None)
       else ThrowsOther (className +:+ " is invalid");
     loadCredentialClass := fun _ className =>
       if String.eqb className "Credential1"
       then Instance (createCredential "Credential1" "credential1")
       else ThrowsOther (className +:+ " is invalid");
     requireCodex := fun _ => None;
     glob := fun pattern _ =>
       if String.eqb pattern "**/*.node.js"
       then ["dist/Node1/Node1.node.js"; "dist/Node2/Node2.node.js"]
       else ["dist/Credential1.js"];
     readKnownNodes := fun _ => Some ∅;
     readKnownCredentials := fun _ => Some ∅;
     readTypesNodes := fun _ => Some [];
     readTypesCredentials := fun _ => Some [] |}.

Definition directory : string := "/not/a/real/path".

Definition custom : Config := CustomDirectoryLoader directory [] [].

Definition testing : PackageJson :=
  {| pj_name := "n8n-nodes-testing";
     pj_n8n := Some {| pj_nodes := Some ["dist/Node1/Node1.node.js";
                                         "dist/Node2/Node2.node.js"];
                       pj_credentials := Some ["dist/Credential1.js"] |} |}.

Definition package : Config := PackageDirectoryLoader directory [] [] testing.

End Scenario.

(** ** Vocabulary of the properties *)

(** [keeps f m]: whatever [m] does and however it ends, the part [f] of the
    loader is afterwards what it was. *)
Definition keeps {A X : Type} (f : Loader -> X) (m : M A) : Prop :=
  forall s, f (ldr (fst (m s))) = f (ldr s).

(** What [pushNodeByCredential] and [recordNode] leave alone. *)
Definition forwardFields (l : Loader)
    : bool * list INodeTypeNameVersion * gmap string LoadedNode
      * gmap string LoadedCredential * KnownNodesAndCredentials * Types :=
  (isLazyLoaded l, loadedNodes l, nodeTypes l, credentialTypes l, known l, types l).

(** The loader of the test scenario after its directory scan, after a lazy
    load of the test package, and after scan, [reset()] and a second scan. *)
Definition afterCustomScan : Loader :=
  ldr (fst (run (Custom_loadAll Scenario.world Scenario.custom) new_loader)).

Definition afterLazyLoad : Loader :=
  ldr (fst (run (Lazy_loadAll Scenario.world Scenario.package) new_loader)).

Definition rescanned : Loader :=
  ldr (fst (run (Custom_loadAll Scenario.world Scenario.custom)
                (reset afterCustomScan))).

(** Whether a read returned something. *)
Definition readable {T : Type} (o : option T) : bool :=
  match o with
  | Some _ => true
  | None => false
  end.

(** Whether each of the four manifest artifacts of a package can be read. *)
Definition knownNodesReadable (w : World) (cfg : Config) : bool :=
  readable (readKnownNodes w (resolvePath w cfg "dist/known/nodes.json")).

Definition knownCredentialsReadable (w : World) (cfg : Config) : bool :=
  readable (readKnownCredentials w (resolvePath w cfg "dist/known/credentials.json")).

Definition typesNodesReadable (w : World) (cfg : Config) : bool :=
  readable (readTypesNodes w (resolvePath w cfg "dist/types/nodes.json")).

Definition typesCredentialsReadable (w : World) (cfg : Config) : bool :=
  readable (readTypesCredentials w (resolvePath w cfg "dist/types/credentials.json")).

Definition manifestsReadable (w : World) (cfg : Config) : bool :=
  knownNodesReadable w cfg && knownCredentialsReadable w cfg
  && typesNodesReadable w cfg && typesCredentialsReadable w cfg.

(** The manifest artifacts of the test package, as its build writes them
    under [dist/]: what an eager load of the package yields. [world missing]
    is the test scenario with these artifacts in place, except that the
    read number [missing] (1 to 4, in the order of [loadAll]) fails. *)
Module Manifests.

Definition eager : Loader :=
  ldr (fst (run (Package_loadAll Scenario.world Scenario.package) new_loader)).

Definition knownNodes : gmap string LoadingDetails := k_nodes (known eager).

Definition knownCredentials : gmap string CredentialLoadingDetails :=
  (fun k => {| kc_className := kc_className k;
               kc_sourcePath := kc_sourcePath k;
               kc_extends := kc_extends k;
               kc_supportedNodes :=
                 ArrOwn <$> (kc_supportedNodes k ≫= readArray eager) |})
  <$> k_credentials (known eager).

Definition typesNodes : list INodeTypeDescription := t_nodes (types eager).

Definition typesCredentials : list ICredentialType :=
  map toJSON (t_credentials (types eager)).

Definition world (missing : nat) : World :=
  {| cwd := cwd Scenario.world;
     loadNodeClass := loadNodeClass Scenario.world;
     loadCredentialClass := loadCredentialClass Scenario.world;
     requireCodex := requireCodex Scenario.world;
     glob := glob Scenario.world;
     readKnownNodes := fun _ =>
       if Nat.eqb missing 1 then None else Some knownNodes;
     readKnownCredentials := fun _ =>
       if Nat.eqb missing 2 then None else Some knownCredentials;
     readTypesNodes := fun _ =>
       if Nat.eqb missing 3 then None else Some typesNodes;
     readTypesCredentials := fun _ =>
       if Nat.eqb missing 4 then None else Some typesCredentials |}.

(** The test package with [node1] excluded by its fully-qualified name. *)
Definition excludingNode1 : Config :=
  PackageDirectoryLoader Scenario.directory ["n8n-nodes-testing.node1"] []
    Scenario.testing.

(** The test package with [node1] alone included. *)
Definition includingNode1 : Config :=
  PackageDirectoryLoader Scenario.directory [] ["n8n-nodes-testing.node1"]
    Scenario.testing.

End Manifests.

(** A world with one node file, which exports [node], and no credential
    file. *)
Definition oneNodeWorld (node : NodeClass) : World :=
  {| cwd := "/";
     loadNodeClass := fun _ _ => Instance node;
     loadCredentialClass := fun _ className =>
       ThrowsOther (className +:+ " is invalid");
     requireCodex := fun _ => None;
     glob := fun pattern _ =>
       if String.eqb pattern "**/*.node.js" then ["dist/Node1/Node1.node.js"]
       else [];
     readKnownNodes := fun _ => None;
     readKnownCredentials := fun _ => None;
     readTypesNodes := fun _ => None;
     readTypesCredentials := fun _ => None |}.

(** A description with a name and a version and nothing else. *)
Definition plainDescription (name : string) (version : VersionDecl)
    : INodeTypeDescription :=
  {| d_name := name; d_icon := None; d_iconUrl := None; d_version := version;
     d_credentials := None; d_codex := None; d_loadOptionsMethods := None |}.

(** A bare node that declares the versions [2] and [1], in this order. *)
Definition nodeVersionsDescending : NodeClass :=
  Bare {| n_className := "Node1";
          n_description := plainDescription "node1" (VList [2%Q; 1%Q]);
          n_loadOptions := None;
          n_executeSingle := false |}.

(** A versioned node with the variants [1] and [2]; [retired] is the variant
    that still has ["executeSingle"], [current] the current version. *)
Definition versionedNode (retired current : Q) : NodeClass :=
  Versioned
    {| vn_className := "Node1";
       vn_description := {| bd_name := "node1"; bd_icon := None;
                            bd_iconUrl := None; bd_codex := None |};
       vn_nodeVersions :=
         map (fun k : Q =>
                (k, {| n_className := "Node1V";
                       n_description := plainDescription "node1" (VSingle k);
                       n_loadOptions := None;
                       n_executeSingle := Qeq_bool k retired |}))
             [1%Q; 2%Q];
       vn_currentVersion := current |}.

(** [description.version] as [loadNodeFromFile] records it for a bare node:
    [version.slice(-1)[0]] of an array, the number itself otherwise. *)
Definition recordedVersion (d : INodeTypeDescription) : option Q :=
  match d_version d with
  | VList vs => last vs
  | VSingle v => Some v
  end.

(** A bare node that declares the versions [1], [1.1] and [2]. *)
Definition nodeVersionsAscending : NodeClass :=
  Bare {| n_className := "Node1";
          n_description := plainDescription "node1" (VList [1%Q; 1.1%Q; 2%Q]);
          n_loadOptions := None;
          n_executeSingle := false |}.

Definition node1File : string := "dist/Node1/Node1.node.js".

(** A freshly constructed loader, before any call of the resolver. *)
Definition fresh : Runtime := {| ldr := new_loader; resolverCalls := [] |}.

(** The log entry of [loadClass] for a file. *)
Definition resolverCall (w : World) (cfg : Config) (filePath : string)
    : string * string :=
  (resolvePath w cfg filePath, classNameOf filePath).

Definition logCall (call : string * string) (s : Runtime) : Runtime :=
  {| ldr := ldr s; resolverCalls := resolverCalls s ++ [call] |}.

(** [invariant P m]: if [P] holds of the loader before [m], it holds after,
    however [m] ends. *)
Definition invariant {A : Type} (P : Loader -> Prop) (m : M A) : Prop :=
  forall s, P (ldr s) -> P (ldr (fst (m s))).

(** Every node record of the loader passed the filter of [cfg]. *)
Definition nodesAccepted (cfg : Config) (l : Loader) : Prop :=
  forall k, is_Some (nodeTypes l !! k) -> accepts cfg k = true.

(** [cfg] with other include and exclude lists. *)
Definition withLists (excl incl : list string) (cfg : Config) : Config :=
  {| directory := directory cfg; excludeNodes := excl; includeNodes := incl;
     packageName := packageName cfg; packageJson := packageJson cfg |}.

(** The directory scan of the test scenario with [node1] alone included. *)
Definition customIncludingNode1 : Config :=
  CustomDirectoryLoader Scenario.directory [] ["CUSTOM.node1"].

(** ** Well-formed directories and file names

    A segment of a path in normal form: not empty, not ["."] or [".."],
    and without a slash. *)
Fixpoint hasSep (s : string) : bool :=
  match s with
  | EmptyString => false
  | String c s' => Ascii.eqb c Path.sep || hasSep s'
  end.

Definition cleanSegment (s : string) : bool :=
  negb (String.eqb s "") && negb (String.eqb s ".") && negb (String.eqb s "..")
  && negb (hasSep s).

Definition relativePart (d : string) : string :=
  match d with
  | String c r => if Ascii.eqb c Path.sep then r else d
  | EmptyString => d
  end.

(** A directory path in normal form, relative or absolute: clean segments
    with one slash between them, such as ["dist/Node1"] or
    ["/home/n8n/custom"]. *)
Definition normalDirectory (d : string) : bool :=
  forallb cleanSegment (Js.split Path.sep (relativePart d)).

(** The laws of the icon fields. *)
Class IconicLaws (A : Type) `{Iconic A} : Prop := {
  getIconUrl_rewritten :
    forall (u : Themed) (a : A), getIconUrl (deleteIcon (setIconUrl u a)) = Some u;
  getIcon_rewritten :
    forall (u : Themed) (a : A), getIcon (deleteIcon (setIconUrl u a)) = None
}.

(** ** The reverse index, read off the files

    [recordedNode w cfg filePath] is the node [loadNodeFromFile] records for a
    file: the instance the class loader returns, normalized, when it passes
    the filter; [acceptedNodes] collects them over a list of files. *)
Definition recordedNode (w : World) (cfg : Config) (filePath : string)
    : option NodeClass :=
  match loadNodeClass w (resolvePath w cfg filePath) (classNameOf filePath) with
  | Instance t =>
      let t := addCodexNode w cfg t filePath in
      if accepts cfg (nodeName t) then
        match prepareNode w cfg t filePath with
        | Done (t', _) => Some t'
        | Threw _ => None
        end
      else None
  | _ => None
  end.

Definition acceptedNodes (w : World) (cfg : Config) (files : list string)
    : list NodeClass :=
  omap (recordedNode w cfg) files.

(** The name of a node, once for each of its declarations of credential
    [c]. *)
Definition declarations (c : string) (t : NodeClass) : list string :=
  map (fun _ => nodeName t)
      (List.filter (fun cd => String.eqb (cd_name cd) c) (getCredentialsForNode t)).

(** The nodes of a list that declare credential [c], in order. *)
Definition declaringNodes (c : string) (nodes : list NodeClass) : list string :=
  flat_map (declarations c) nodes.

(** An array after pushing [xs] to it, where the array is created by the
    first push. *)
Definition pushed (o : option (list string)) (xs : list string)
    : option (list string) :=
  match xs with
  | [] => o
  | _ => Some (default [] o ++ xs)
  end.

(** The array [nodesByCredential[c]], if there is one. *)
Definition nodesOf (l : Loader) (c : string) : option (list string) :=
  nodesByCredential l !! c ≫= fun loc => arrays l !! loc.

(** Every entry of [nodesByCredential] refers to an array of the store, and
    no two entries to the same one. *)
Definition storeWellFormed (l : Loader) : Prop :=
  (forall c loc, nodesByCredential l !! c = Some loc -> loc < length (arrays l)) /\
  (forall c1 c2 loc, nodesByCredential l !! c1 = Some loc ->
                     nodesByCredential l !! c2 = Some loc -> c1 = c2).

(** The node files [PackageDirectoryLoader.loadAll] goes through. *)
Definition packageNodeFiles (cfg : Config) : list string :=
  match pj_n8n (packageJson cfg) with
  | Some n8n => default [] (pj_nodes n8n)
  | None => []
  end.

(** The entries of the known-index of credentials refer to the arrays of
    [nodesByCredential]. *)
Definition supportedNodesShared (l : Loader) : Prop :=
  forall c e, k_credentials (known l) !! c = Some e ->
    kc_supportedNodes e = ArrAt <$> nodesByCredential l !! c.

(** The two loops of an eager [loadAll]. *)
Definition eagerLoops (w : World) (cfg : Config) (nodeFiles credentialFiles : list string)
    : M unit :=
  bind (forEach (loadNodeFromFile w cfg) nodeFiles)
       (fun _ => forEach (loadCredentialFromFile w cfg) credentialFiles).

(** The credential files [PackageDirectoryLoader.loadAll] goes through. *)
Definition packageCredentialFiles (cfg : Config) : list string :=
  match pj_n8n (packageJson cfg) with
  | Some n8n => default [] (pj_credentials n8n)
  | None => []
  end.

(** The fallback as the specification words it: when a read fails, what the
    reads before it assigned is discarded, and the eager strategy runs on the
    loader as it was before the call. *)
Definition Lazy_loadAll_discarding (w : World) (cfg : Config) : M unit :=
  fun s =>
    match Lazy_tryBlock w cfg s with
    | (s', Done a) => (s', Done a)
    | (_, Threw _) => Package_loadAll w cfg s
    end.

(** ** Loaders that agree on the forward fields *)

Definition withoutSupportedNodes (k : CredentialLoadingDetails)
    : CredentialLoadingDetails :=
  {| kc_className := kc_className k; kc_sourcePath := kc_sourcePath k;
     kc_extends := kc_extends k; kc_supportedNodes := None |}.

(** Two loaders with the same records: the same [loadedNodes], [nodeTypes],
    [credentialTypes], [known.nodes] and [types], and the same entries of
    [known.credentials] but for [supportedNodes]. *)
Definition sameForward (l1 l2 : Loader) : Prop :=
  loadedNodes l1 = loadedNodes l2 /\
  nodeTypes l1 = nodeTypes l2 /\
  credentialTypes l1 = credentialTypes l2 /\
  k_nodes (known l1) = k_nodes (known l2) /\
  types l1 = types l2 /\
  withoutSupportedNodes <$> k_credentials (known l1)
    = withoutSupportedNodes <$> k_credentials (known l2).

(** [lockstep m]: from two such loaders and the same log, [m] ends the same
    way, with the same log and again two such loaders. *)
Definition lockstep {A : Type} (m : M A) : Prop :=
  forall s1 s2,
    sameForward (ldr s1) (ldr s2) -> resolverCalls s1 = resolverCalls s2 ->
    sameForward (ldr (fst (m s1))) (ldr (fst (m s2))) /\
    resolverCalls (fst (m s1)) = resolverCalls (fst (m s2)) /\
    snd (m s1) = snd (m s2).

(** ** Vocabulary of the further properties *)

(** The credentials the variants of a versioned node declare, variant after
    variant. *)
Definition declaredByVariants (v : IVersionedNodeType)
    : list INodeCredentialDescription :=
  flat_map (fun kv : Q * INodeType =>
              default [] (d_credentials (n_description (snd kv))))
           (vn_nodeVersions v).

(** A credential as [loadCredentialFromFile] registers it: with the
    serializer attached and its icon path fixed. *)
Definition registeredCredential (cfg : Config) (c : ICredentialType)
    (filePath : string) : ICredentialType :=
  fixIconPaths cfg
    {| c_className := c_className c; c_name := c_name c; c_icon := c_icon c;
       c_iconUrl := c_iconUrl c; c_extends := c_extends c;
       c_authenticate := c_authenticate c; c_toJSON := true |} filePath.

(** The errors [loadNodeFromFile] can end with. *)
Definition nodeLoadError (filePath : string) (e : Thrown) : Prop :=
  e = ClassNotFound (classNameOf filePath) \/ (exists msg, e = Rethrown msg) \/
  e = TypeError \/ (exists name, e = ExecuteSingleRemoved name).

(** The records of the nodes agree with each other: an entry of
    [known.nodes] has the path and the class name of the node [nodeTypes]
    holds under the same name, that node has this name, the names of
    [loadedNodes] are the names of [nodeTypes], and every descriptor of
    [types.nodes] bears the name of a node of [nodeTypes]. *)
Definition nodesConsistent (l : Loader) : Prop :=
  (forall k, k_nodes (known l) !! k
             = (fun x => {| kn_className := nodeClassName (ln_type x);
                            kn_sourcePath := ln_sourcePath x |})
               <$> nodeTypes l !! k) /\
  (forall k x, nodeTypes l !! k = Some x -> nodeName (ln_type x) = k) /\
  (forall k, In k (map nv_name (loadedNodes l)) <-> is_Some (nodeTypes l !! k)) /\
  (forall d, In d (t_nodes (types l)) -> is_Some (nodeTypes l !! d_name d)).

(** The records of the credentials agree with each other, and every
    credential on record has the serializer attached. *)
Definition credentialsConsistent (l : Loader) : Prop :=
  (forall c, withoutSupportedNodes <$> k_credentials (known l) !! c
             = (fun x => {| kc_className := c_className (lc_type x);
                            kc_sourcePath := lc_sourcePath x;
                            kc_extends := c_extends (lc_type x);
                            kc_supportedNodes := None |})
               <$> credentialTypes l !! c) /\
  (forall c x, credentialTypes l !! c = Some x ->
     c_name (lc_type x) = c /\ c_toJSON (lc_type x) = true) /\
  (forall cred, In cred (t_credentials (types l)) ->
     c_toJSON cred = true /\ is_Some (credentialTypes l !! c_name cred)).

(** The reverse index is sound: every entry of [nodesByCredential] refers to
    an array of its own, which is not empty and holds names of nodes on
    record only. *)
Definition reverseIndexSound (l : Loader) : Prop :=
  storeWellFormed l /\
  (forall c, is_Some (nodesByCredential l !! c) -> is_Some (nodesOf l c)) /\
  (forall c xs, nodesOf l c = Some xs ->
     xs <> [] /\ forall x, In x xs -> is_Some (nodeTypes l !! x)).

(** Lines 189 to 202: what [loadCredentialFromFile] writes for a credential
    it has loaded. *)
Definition registerCredential (cfg : Config) (c : ICredentialType)
    (filePath : string) (l : Loader) : Loader :=
  let r := registeredCredential cfg c filePath in
  let l := set_known_credentials
             (<[c_name r :=
                  {| kc_className := c_className r;
                     kc_sourcePath := filePath;
                     kc_extends := c_extends r;
                     kc_supportedNodes := ArrAt <$> nodesByCredential l !! c_name r |}]>
                (k_credentials (known l))) l in
  let l := set_credentialTypes
             (<[c_name r := {| lc_type := r; lc_sourcePath := filePath |}]>
                (credentialTypes l)) l in
  set_types_credentials (t_credentials (types l) ++ [r]) l.

(** The filter of the lazy loader on a name as the manifests have it: the
    include list is empty or holds the name, and the exclude list does not
    hold it. *)
Definition lazyKeeps (cfg : Config) (name : string) : bool :=
  (Nat.eqb (length (includeNodes cfg)) 0 || Js.includes (includeNodes cfg) name)
  && negb (Js.includes (excludeNodes cfg) name).

(** The four manifest artifacts of a package as they are read. *)
Definition manifestsAre (w : World) (cfg : Config)
    (kn : gmap string LoadingDetails) (kc : gmap string CredentialLoadingDetails)
    (tn : list INodeTypeDescription) (tc : list ICredentialType) : Prop :=
  readKnownNodes w (resolvePath w cfg "dist/known/nodes.json") = Some kn /\
  readKnownCredentials w (resolvePath w cfg "dist/known/credentials.json") = Some kc /\
  readTypesNodes w (resolvePath w cfg "dist/types/nodes.json") = Some tn /\
  readTypesCredentials w (resolvePath w cfg "dist/types/credentials.json") = Some tc.

(** A bare node as [loadNodeFromFile] records it: with its codex, its icon
    path fixed and the names of its load-options methods. *)
Definition preparedBare (w : World) (cfg : Config) (n : INodeType)
    (filePath : string) : INodeType :=
  addLoadOptionsMethods
    (set_n_description
       (fixIconPaths cfg
          (set_d_codex (addCodex w cfg (d_codex (n_description n)) filePath)
             (n_description n)) filePath)
       (set_n_description
          (set_d_codex (addCodex w cfg (d_codex (n_description n)) filePath)
             (n_description n)) n)).

(** An icon [fixIconPaths] has nothing left to do with: no string that starts
    with ["file:"], no light/dark pair of two such strings. *)
Definition iconSettled (icon : option Themed) : Prop :=
  match icon with
  | Some (Plain s) => Js.startsWith s "file:" = false
  | Some (LightDark light dark) =>
      Js.startsWith light "file:" && Js.startsWith dark "file:" = false
  | None => True
  end.

(** The type descriptors and the credentials of the registry have settled
    icons. *)
Definition iconsSettled (l : Loader) : Prop :=
  (forall d, In d (t_nodes (types l)) -> iconSettled (d_icon d)) /\
  (forall c, In c (t_credentials (types l)) -> iconSettled (c_icon c)) /\
  (forall k x, credentialTypes l !! k = Some x -> iconSettled (c_icon (lc_type x))).

(** Whether a string has a dot. *)
Fixpoint hasDot (s : string) : bool :=
  match s with
  | EmptyString => false
  | String c s' => Ascii.eqb c "."%char || hasDot s'
  end.

(** The two scans of [Path.basename] and [Path.parseName], from the end of
    the path: up to the last slash, and past the last dot. *)
Fixpoint upToSep (r : list ascii) : list ascii :=
  match r with
  | [] => []
  | c :: r' => if Ascii.eqb c Path.sep then [] else c :: upToSep r'
  end.

Fixpoint afterDot (r : list ascii) : option (list ascii) :=
  match r with
  | [] => None
  | c :: r' => if Ascii.eqb c "."%char then Some r' else afterDot r'
  end.
(** * Properties *)

(** ** The assertions of [DirectoryLoader.test.ts], on the model *)

Example custom_loader_loads_nodes_and_credentials :
  let r := run (Custom_loadAll Scenario.world Scenario.custom) new_loader in
  let l := ldr (fst r) in
  packageName Scenario.custom = "CUSTOM" /\
  isLazyLoaded l = false /\
  length (resolverCalls (fst r)) = 3 /\
  r_nodesByCredential (view l) = {[ "credential1" := ["node1"] ]} /\
  lc_sourcePath <$> credentialTypes l = {[ "credential1" := "dist/Credential1.js" ]} /\
  ln_sourcePath <$> nodeTypes l
    = <[ "node1" := "dist/Node1/Node1.node.js" ]>
        {[ "node2" := "dist/Node2/Node2.node.js" ]} /\
  map c_iconUrl (t_credentials (types l))
    = [Some (Plain "icons/CUSTOM/dist/credential1.svg")] /\
  map d_iconUrl (t_nodes (types l))
    = [Some (Plain "icons/CUSTOM/dist/Node1/node1.svg");
       Some (Plain "icons/CUSTOM/dist/Node2/node2.svg")].
Proof. repeat split; vm_compute; reflexivity. Qed.

Example package_loader_loads_nodes_and_credentials :
  let r := run (Package_loadAll Scenario.world Scenario.package) new_loader in
  let l := ldr (fst r) in
  packageName Scenario.package = "n8n-nodes-testing" /\
  isLazyLoaded l = false /\
  length (resolverCalls (fst r)) = 3 /\
  r_nodesByCredential (view l) = {[ "credential1" := ["node1"] ]} /\
  map c_iconUrl (t_credentials (types l))
    = [Some (Plain "icons/n8n-nodes-testing/dist/credential1.svg")] /\
  map d_iconUrl (t_nodes (types l))
    = [Some (Plain "icons/n8n-nodes-testing/dist/Node1/node1.svg");
       Some (Plain "icons/n8n-nodes-testing/dist/Node2/node2.svg")].
Proof. repeat split; vm_compute; reflexivity. Qed.

Example lazy_loader_skips_loading :
  let r := run (Lazy_loadAll Scenario.world Scenario.package) new_loader in
  isLazyLoaded (ldr (fst r)) = true /\ resolverCalls (fst r) = [].
Proof. split; vm_compute; reflexivity. Qed.

(** A few values of the path functions. *)
Example path_values :
  Path.join "dist/Node1" "node1.svg" = "dist/Node1/node1.svg" /\
  Path.join "." "x.svg" = "x.svg" /\
  Path.join "/a/b" "../x.svg" = "/a/x.svg" /\
  Path.dirname "dist/Node1/Node1.node.js" = "dist/Node1" /\
  Path.dirname "Node1.node.js" = "." /\
  Path.dirname "/a" = "/" /\
  Path.parseName "dist/Node1/Node1.node.js" = "Node1.node" /\
  classNameOf "dist/Node1/Node1.node.js" = "Node1" /\
  Path.resolve "/" "/not/a/real/path" "dist/Credential1.js"
    = "/not/a/real/path/dist/Credential1.js".
Proof. repeat split; vm_compute; reflexivity. Qed.

(** ** Computations that leave a field alone *)

Section Keeps.

Context {X : Type} (f : Loader -> X).

Lemma keeps_ret {A : Type} (a : A) : keeps f (ret a).
Proof. intros s. reflexivity. Qed.

Lemma keeps_throw {A : Type} (e : Thrown) : keeps f (@throw A e).
Proof. intros s. reflexivity. Qed.

Lemma keeps_bind {A B : Type} (m : M A) (k : A -> M B) :
  keeps f m -> (forall a, keeps f (k a)) -> keeps f (bind m k).
Proof.
  intros Hm Hk s. unfold bind. specialize (Hm s).
  destruct (m s) as [s' [a | e]]; simpl in *.
  - rewrite Hk. exact Hm.
  - exact Hm.
Qed.

Lemma keeps_try_catch {A : Type} (body handler : M A) :
  keeps f body -> keeps f handler -> keeps f (try_catch body handler).
Proof.
  intros Hb Hh s. unfold try_catch. specialize (Hb s).
  destruct (body s) as [s' [a | e]]; simpl in *.
  - exact Hb.
  - rewrite Hh. exact Hb.
Qed.

Lemma keeps_modify (g : Loader -> Loader) :
  (forall l, f (g l) = f l) -> keeps f (modify g).
Proof. intros Hg s. simpl. apply Hg. Qed.

Lemma keeps_forEach {A : Type} (body : A -> M unit) (l : list A) :
  (forall a, keeps f (body a)) -> keeps f (forEach body l).
Proof.
  intros Hb. induction l as [| a l IH]; simpl.
  - apply keeps_ret.
  - apply keeps_bind; [apply Hb | intros _; exact IH].
Qed.

Lemma keeps_loadClass (w : World) (cfg : Config) {T : Type}
    (resolver : string -> string -> Loaded T) (sourcePath : string) :
  keeps f (loadClass w cfg resolver sourcePath).
Proof.
  intros s. unfold loadClass.
  destruct (resolver _ _); reflexivity.
Qed.

Lemma keeps_readJSON (w : World) (cfg : Config) {T : Type}
    (read : string -> option T) (file : string) :
  keeps f (readJSON w cfg read file).
Proof.
  intros s. unfold readJSON. destruct (read _); reflexivity.
Qed.

End Keeps.

Lemma pushNodeByCredential_forward (c n : string) (l : Loader) :
  forwardFields (pushNodeByCredential c n l) = forwardFields l.
Proof.
  unfold pushNodeByCredential.
  destruct (nodesByCredential l !! c) as [loc |] eqn:E; simpl.
  - rewrite E. reflexivity.
  - rewrite lookup_insert_eq. reflexivity.
Qed.

Lemma fold_push_forward (n : string) (cs : list INodeCredentialDescription)
    (l : Loader) :
  forwardFields
    (fold_left (fun l c => pushNodeByCredential (cd_name c) n l) cs l)
  = forwardFields l.
Proof.
  revert l. induction cs as [| c cs IH]; intros l; simpl.
  - reflexivity.
  - rewrite IH. apply pushNodeByCredential_forward.
Qed.

Lemma forward_isLazyLoaded (l l' : Loader) :
  forwardFields l = forwardFields l' -> isLazyLoaded l = isLazyLoaded l'.
Proof. unfold forwardFields. congruence. Qed.

Lemma forward_known (l l' : Loader) :
  forwardFields l = forwardFields l' -> known l = known l'.
Proof. unfold forwardFields. congruence. Qed.

Lemma recordNode_isLazyLoaded (t : NodeClass) (v : option Q) (p : string)
    (l : Loader) :
  isLazyLoaded (recordNode t v p l) = isLazyLoaded l.
Proof.
  unfold recordNode. cbv zeta.
  rewrite (forward_isLazyLoaded _ _ (fold_push_forward _ _ _)). reflexivity.
Qed.

Lemma recordNode_known_credentials (t : NodeClass) (v : option Q) (p : string)
    (l : Loader) :
  k_credentials (known (recordNode t v p l)) = k_credentials (known l).
Proof.
  unfold recordNode. cbv zeta.
  rewrite (forward_known _ _ (fold_push_forward _ _ _)). reflexivity.
Qed.

Lemma keeps_loadNodeFromFile {X : Type} (f : Loader -> X) (w : World)
    (cfg : Config) (filePath : string) :
  (forall t v p l, f (recordNode t v p l) = f l) ->
  keeps f (loadNodeFromFile w cfg filePath).
Proof.
  intros Hf. unfold loadNodeFromFile.
  apply keeps_bind; [apply keeps_loadClass |].
  intros t. destruct (accepts _ _); [| apply keeps_ret].
  destruct (prepareNode _ _ _) as [[t' v] | e].
  - apply keeps_modify. intros l. apply Hf.
  - apply keeps_throw.
Qed.

Lemma keeps_loadCredentialFromFile {X : Type} (f : Loader -> X) (w : World)
    (cfg : Config) (filePath : string) :
  (forall k, forall l, f (set_known k l) = f l) ->
  (forall c, forall l, f (set_credentialTypes c l) = f l) ->
  (forall t, forall l, f (set_types t l) = f l) ->
  keeps f (loadCredentialFromFile w cfg filePath).
Proof.
  intros Hk Hc Ht. unfold loadCredentialFromFile.
  apply keeps_bind; [apply keeps_loadClass |].
  intros c. apply keeps_modify. intros l.
  unfold set_types_credentials, set_known_credentials.
  rewrite Ht, Hc, Hk. reflexivity.
Qed.

Lemma keeps_Package_loadAll {X : Type} (f : Loader -> X) (w : World)
    (cfg : Config) :
  (forall a, keeps f (loadNodeFromFile w cfg a)) ->
  (forall a, keeps f (loadCredentialFromFile w cfg a)) ->
  keeps f (Package_loadAll w cfg).
Proof.
  intros Hn Hc. unfold Package_loadAll.
  destruct (pj_n8n _) as [n8n |]; [| apply keeps_ret].
  apply keeps_bind.
  - destruct (pj_nodes n8n); [apply keeps_forEach, Hn | apply keeps_ret].
  - intros _. destruct (pj_credentials n8n);
      [apply keeps_forEach, Hc | apply keeps_ret].
Qed.

Lemma keeps_Custom_loadAll {X : Type} (f : Loader -> X) (w : World)
    (cfg : Config) :
  (forall a, keeps f (loadNodeFromFile w cfg a)) ->
  (forall a, keeps f (loadCredentialFromFile w cfg a)) ->
  keeps f (Custom_loadAll w cfg).
Proof.
  intros Hn Hc. unfold Custom_loadAll.
  apply keeps_bind; [apply keeps_forEach, Hn |].
  intros _. apply keeps_forEach, Hc.
Qed.

Lemma Package_loadAll_isLazyLoaded (w : World) (cfg : Config) :
  keeps isLazyLoaded (Package_loadAll w cfg).
Proof.
  apply keeps_Package_loadAll; intros a.
  - apply keeps_loadNodeFromFile. intros. apply recordNode_isLazyLoaded.
  - apply keeps_loadCredentialFromFile; reflexivity.
Qed.

(** ** [reset] *)

(** C1, as the code has it: [reset()] returns [loadedNodes], [nodeTypes],
    [credentialTypes], [known] and [types] to their empty initial values, the
    values of a freshly constructed loader, and leaves the lazy-loaded flag
    as it is. *)
Theorem reset_clears_forward_fields (l : Loader) :
  loadedNodes (reset l) = loadedNodes new_loader /\
  nodeTypes (reset l) = nodeTypes new_loader /\
  credentialTypes (reset l) = credentialTypes new_loader /\
  known (reset l) = known new_loader /\
  types (reset l) = types new_loader /\
  isLazyLoaded (reset l) = isLazyLoaded l.
Proof. repeat split. Qed.

(** C1 as stated fails: after the directory scan of the test scenario,
    [reset()] leaves [nodesByCredential] at [{credential1: [node1]}], and
    after a lazy load it leaves the flag at [true]; neither loader is in the
    state of a fresh one. *)
Lemma reset_keeps_reverse_index_and_flag :
  r_nodesByCredential (view (reset afterCustomScan))
    = {[ "credential1" := ["node1"] ]} /\
  view (reset afterCustomScan) <> view new_loader /\
  isLazyLoaded (reset afterLazyLoad) = true /\
  view (reset afterLazyLoad) <> view new_loader.
Proof.
  split; [vm_compute; reflexivity |].
  split.
  { intros H.
    apply (f_equal (fun r => r_nodesByCredential r !! "credential1")) in H.
    vm_compute in H. discriminate. }
  split; [vm_compute; reflexivity |].
  intros H. apply (f_equal r_isLazyLoaded) in H.
  vm_compute in H. discriminate.
Qed.

(** ** Scanning again after [reset] *)

(** C2 at the test scenario: after scan, [reset()] and a second scan of the
    same files, [nodesByCredential] holds [node1] twice under [credential1],
    and so does [supportedNodes] of the credential's known-index entry; the
    first scan had it once. The forward fields are the same both times. *)
Theorem rescan_after_reset_doubles_reverse_index :
  r_nodesByCredential (view afterCustomScan) = {[ "credential1" := ["node1"] ]} /\
  r_nodesByCredential (view rescanned)
    = {[ "credential1" := ["node1"; "node1"] ]} /\
  kv_supportedNodes <$> r_known_credentials (view afterCustomScan) !! "credential1"
    = Some (Some ["node1"]) /\
  kv_supportedNodes <$> r_known_credentials (view rescanned) !! "credential1"
    = Some (Some ["node1"; "node1"]) /\
  view rescanned <> view afterCustomScan /\
  forwardFields rescanned = forwardFields afterCustomScan.
Proof.
  split; [vm_compute; reflexivity |].
  split; [vm_compute; reflexivity |].
  split; [vm_compute; reflexivity |].
  split; [vm_compute; reflexivity |].
  split.
  - intros H.
    apply (f_equal (fun r => r_nodesByCredential r !! "credential1")) in H.
    vm_compute in H. discriminate.
  - vm_compute. reflexivity.
Qed.

(** ** The lazy loader *)

Lemma Lazy_tryBlock_threw (w : World) (cfg : Config) (s : Runtime) :
  manifestsReadable w cfg = false ->
  exists e k t,
    Lazy_tryBlock w cfg s
    = ({| ldr := set_types t (set_known k (ldr s));
          resolverCalls := resolverCalls s |}, Threw e).
Proof.
  unfold manifestsReadable, knownNodesReadable, knownCredentialsReadable,
    typesNodesReadable, typesCredentialsReadable, Lazy_tryBlock, readJSON.
  intros H. destruct s as [l rc]. destruct l as [lz ln nt ct k t nbc arr].
  destruct (readKnownNodes w _) as [kn |].
  2: { eexists _, k, t. reflexivity. }
  destruct (readKnownCredentials w _) as [kc |].
  2: { eexists _, {| k_nodes := kn; k_credentials := k_credentials k |}, t.
       reflexivity. }
  destruct (readTypesNodes w _) as [tn |].
  2: { eexists _, {| k_nodes := kn; k_credentials := kc |}, t. reflexivity. }
  destruct (readTypesCredentials w _) as [tc |].
  2: { eexists _, {| k_nodes := kn; k_credentials := kc |},
         {| t_nodes := tn; t_credentials := t_credentials t |}. reflexivity. }
  discriminate H.
Qed.

Lemma Lazy_tryBlock_done (w : World) (cfg : Config) (s : Runtime) :
  manifestsReadable w cfg = true ->
  exists l',
    Lazy_tryBlock w cfg s
    = ({| ldr := set_isLazyLoaded true l'; resolverCalls := resolverCalls s |},
       Done tt).
Proof.
  unfold manifestsReadable, knownNodesReadable, knownCredentialsReadable,
    typesNodesReadable, typesCredentialsReadable, Lazy_tryBlock, readJSON.
  intros H. destruct s as [l rc].
  destruct (readKnownNodes w _) as [kn |]; [| discriminate H].
  destruct (readKnownCredentials w _) as [kc |]; [| discriminate H].
  destruct (readTypesNodes w _) as [tn |]; [| discriminate H].
  destruct (readTypesCredentials w _) as [tc |]; [| discriminate H].
  eexists. reflexivity.
Qed.

(** C9: when all four manifest artifacts can be read,
    [LazyPackageDirectoryLoader.loadAll] returns without one call of the
    component resolver and with [isLazyLoaded] set; when one of them cannot,
    a flag that was [false] is [false] afterwards. *)
Theorem Lazy_loadAll_flag_and_resolver (w : World) (cfg : Config) (l : Loader) :
  (manifestsReadable w cfg = true ->
     snd (run (Lazy_loadAll w cfg) l) = Done tt /\
     resolverCalls (fst (run (Lazy_loadAll w cfg) l)) = [] /\
     isLazyLoaded (ldr (fst (run (Lazy_loadAll w cfg) l))) = true) /\
  (manifestsReadable w cfg = false ->
     isLazyLoaded l = false ->
     isLazyLoaded (ldr (fst (run (Lazy_loadAll w cfg) l))) = false).
Proof.
  split.
  - intros H. unfold run, Lazy_loadAll, try_catch.
    destruct (Lazy_tryBlock_done w cfg {| ldr := l; resolverCalls := [] |} H)
      as [l' ->].
    repeat split.
  - intros H Hl. unfold run, Lazy_loadAll, try_catch.
    destruct (Lazy_tryBlock_threw w cfg
                {| ldr := l; resolverCalls := [] |} H) as (e & k & t & ->).
    rewrite Package_loadAll_isLazyLoaded. simpl. exact Hl.
Qed.

Lemma Lazy_loadAll_flag_and_resolver_witness :
  (snd (run (Lazy_loadAll (Manifests.world 0) Scenario.package) new_loader) = Done tt /\
   resolverCalls (fst (run (Lazy_loadAll (Manifests.world 0) Scenario.package)
                           new_loader)) = [] /\
   isLazyLoaded (ldr (fst (run (Lazy_loadAll (Manifests.world 0) Scenario.package)
                               new_loader))) = true) /\
  isLazyLoaded (ldr (fst (run (Lazy_loadAll (Manifests.world 3) Scenario.package)
                              new_loader))) = false.
Proof.
  split.
  - apply (proj1 (Lazy_loadAll_flag_and_resolver
                    (Manifests.world 0) Scenario.package new_loader)).
    reflexivity.
  - apply (proj2 (Lazy_loadAll_flag_and_resolver
                    (Manifests.world 3) Scenario.package new_loader));
      reflexivity.
Defined.

(** On a failed read the fallback of the specification is the eager
    strategy. *)
Lemma Lazy_loadAll_discarding_eager (w : World) (cfg : Config) (s : Runtime) :
  manifestsReadable w cfg = false ->
  Lazy_loadAll_discarding w cfg s = Package_loadAll w cfg s.
Proof.
  intros H. unfold Lazy_loadAll_discarding.
  destruct (Lazy_tryBlock_threw w cfg s H) as (e & k & t & ->). reflexivity.
Qed.




(** ** Include and exclude lists *)

(** The filter of [loadNodeFromFile]: a node is kept exactly when the include
    list is empty or holds its fully-qualified name, and the exclude list
    does not hold it. *)
Lemma accepts_spec (cfg : Config) (nodeType : string) :
  accepts cfg nodeType = true <->
  (includeNodes cfg = [] \/
   Js.includes (includeNodes cfg) (packageName cfg +:+ "." +:+ nodeType) = true) /\
  Js.includes (excludeNodes cfg) (packageName cfg +:+ "." +:+ nodeType) = false.
Proof.
  unfold accepts.
  destruct (includeNodes cfg) as [| i incl] eqn:Ei; simpl length;
    cbn [Nat.eqb negb andb].
  - destruct (Js.includes (excludeNodes cfg) _); split; try tauto;
      try discriminate. intros [_ H]; discriminate.
  - destruct (Js.includes (i :: incl) _); cbn [negb];
      destruct (Js.includes (excludeNodes cfg) _); split;
      try discriminate; try tauto; intros [[H | H] H']; discriminate.
Qed.

(** C5 at the test package with ["n8n-nodes-testing.node1"] in the exclude
    list: the lazy loader keeps [node1], in the known-index and among the
    type descriptors, because it looks the bare names of the manifest up in
    the list; the eager loader, which builds the fully-qualified name, drops
    it. *)
Theorem Lazy_loadAll_keeps_excluded_node :
  let lazy := ldr (fst (run (Lazy_loadAll (Manifests.world 0) Manifests.excludingNode1)
                            new_loader)) in
  let eager := ldr (fst (run (Package_loadAll (Manifests.world 0)
                                Manifests.excludingNode1) new_loader)) in
  isLazyLoaded lazy = true /\
  is_Some (k_nodes (known lazy) !! "node1") /\
  map d_name (t_nodes (types lazy)) = ["node1"; "node2"] /\
  k_nodes (known eager) !! "node1" = None /\
  map d_name (t_nodes (types eager)) = ["node2"] /\
  accepts Manifests.excludingNode1 "node1" = false.
Proof.
  split; [vm_compute; reflexivity |].
  split; [vm_compute; eexists; reflexivity |].
  split; [vm_compute; reflexivity |].
  split; [vm_compute; reflexivity |].
  split; vm_compute; reflexivity.
Qed.

(** ** What the normalization passes leave alone *)

Lemma fixIconPaths_d_fields (cfg : Config) (d : INodeTypeDescription) (p : string) :
  d_name (fixIconPaths cfg d p) = d_name d /\
  d_version (fixIconPaths cfg d p) = d_version d /\
  d_credentials (fixIconPaths cfg d p) = d_credentials d.
Proof. unfold fixIconPaths. repeat case_match; repeat split. Qed.

Lemma fixIconPaths_bd_name (cfg : Config) (d : INodeTypeBaseDescription) (p : string) :
  bd_name (fixIconPaths cfg d p) = bd_name d.
Proof. unfold fixIconPaths. repeat case_match; reflexivity. Qed.

Lemma addLoadOptionsMethods_fields (n : INodeType) :
  d_name (n_description (addLoadOptionsMethods n)) = d_name (n_description n) /\
  d_version (n_description (addLoadOptionsMethods n)) = d_version (n_description n) /\
  d_credentials (n_description (addLoadOptionsMethods n))
    = d_credentials (n_description n) /\
  n_executeSingle (addLoadOptionsMethods n) = n_executeSingle n.
Proof. unfold addLoadOptionsMethods. destruct (n_loadOptions n); repeat split. Qed.

Lemma addCodexNode_name (w : World) (cfg : Config) (t : NodeClass) (p : string) :
  nodeName (addCodexNode w cfg t p) = nodeName t.
Proof. destruct t; reflexivity. Qed.

Lemma lookupVersion_map (key : Q) (g : INodeType -> INodeType)
    (vs : list (Q * INodeType)) :
  lookupVersion key (map (fun kv : Q * INodeType => (fst kv, g (snd kv))) vs)
  = g <$> lookupVersion key vs.
Proof.
  induction vs as [| [k n] vs IH]; simpl; [reflexivity |].
  destruct (Qeq_bool k key); [reflexivity | exact IH].
Qed.

(** ** Versions *)

(** What [loadNodeFromFile] does with a bare node that passes the filter. *)
Lemma loadNodeFromFile_bare (w : World) (cfg : Config) (filePath : string)
    (s : Runtime) (n : INodeType) :
  loadNodeClass w (resolvePath w cfg filePath) (classNameOf filePath)
    = Instance (Bare n) ->
  accepts cfg (d_name (n_description n)) = true ->
  exists t,
    loadNodeFromFile w cfg filePath s
    = ({| ldr := recordNode t (recordedVersion (n_description n)) filePath (ldr s);
          resolverCalls := resolverCalls s
                           ++ [(resolvePath w cfg filePath, classNameOf filePath)] |},
       Done tt)
    /\ nodeName t = d_name (n_description n).
Proof.
  intros Hload Hacc. unfold loadNodeFromFile, loadClass, bind.
  rewrite Hload. cbn [addCodexNode nodeName n_description set_n_description
                      set_d_codex d_name].
  rewrite Hacc. cbn [prepareNode].
  eexists. split.
  - unfold modify. cbn [ldr resolverCalls]. f_equal. f_equal. f_equal.
    unfold recordedVersion.
    rewrite (proj1 (proj2 (addLoadOptionsMethods_fields _))).
    cbn [n_description set_n_description].
    rewrite (proj1 (proj2 (fixIconPaths_d_fields _ _ _))). reflexivity.
  - cbn [nodeName].
    rewrite (proj1 (addLoadOptionsMethods_fields _)).
    cbn [n_description set_n_description].
    rewrite (proj1 (fixIconPaths_d_fields _ _ _)). reflexivity.
Qed.

Lemma forward_loadedNodes (l l' : Loader) :
  forwardFields l = forwardFields l' -> loadedNodes l = loadedNodes l'.
Proof. unfold forwardFields. congruence. Qed.

Lemma recordNode_loadedNodes (t : NodeClass) (v : option Q) (p : string)
    (l : Loader) :
  loadedNodes (recordNode t v p l)
  = loadedNodes l ++ [{| nv_name := nodeName t; nv_version := v |}].
Proof.
  unfold recordNode. cbv zeta.
  rewrite (forward_loadedNodes _ _ (fold_push_forward _ _ _)). reflexivity.
Qed.

Lemma last_of_ascending (vs : list Q) (v : Q) :
  StronglySorted Qle vs -> last vs = Some v ->
  forall x, In x vs -> (x <= v)%Q.
Proof.
  induction 1 as [| a vs Hs IH Ha]; intros Hl x Hx; [destruct Hx |].
  destruct vs as [| b vs'].
  - simpl in Hl. injection Hl as <-. destruct Hx as [<- | []]. apply Qle_refl.
  - change (last (a :: b :: vs')) with (last (b :: vs')) in Hl.
    destruct Hx as [<- | Hx].
    + rewrite Forall_forall in Ha. apply Ha, last_Some_elem_of, Hl.
    + apply IH; assumption.
Qed.

(** C7, as the code has it: for a bare node that passes the filter, the
    version recorded in [loadedNodes] is the last element of the declared
    list, or the declared number itself, verbatim; the last element is the
    highest value of a list in ascending order. *)
Theorem bare_node_records_last_version (w : World) (cfg : Config)
    (filePath : string) (s : Runtime) (n : INodeType) :
  loadNodeClass w (resolvePath w cfg filePath) (classNameOf filePath)
    = Instance (Bare n) ->
  accepts cfg (d_name (n_description n)) = true ->
  loadedNodes (ldr (fst (loadNodeFromFile w cfg filePath s)))
    = loadedNodes (ldr s)
      ++ [{| nv_name := d_name (n_description n);
             nv_version := match d_version (n_description n) with
                           | VList vs => last vs
                           | VSingle v => Some v
                           end |}] /\
  (forall vs v, d_version (n_description n) = VList vs ->
     StronglySorted Qle vs -> last vs = Some v ->
     forall x, In x vs -> (x <= v)%Q).
Proof.
  intros Hload Hacc. split.
  - destruct (loadNodeFromFile_bare w cfg filePath s n Hload Hacc) as (t & -> & Ht).
    cbn [fst ldr]. rewrite recordNode_loadedNodes, Ht. reflexivity.
  - intros vs v _ Hs Hl. apply last_of_ascending; assumption.
Qed.

Lemma bare_node_records_last_version_witness :
  loadedNodes (ldr (fst (loadNodeFromFile (oneNodeWorld nodeVersionsAscending)
                           Scenario.custom node1File fresh)))
    = [{| nv_name := "node1"; nv_version := Some 2%Q |}] /\
  (forall x, In x [1%Q; 1.1%Q; 2%Q] -> (x <= 2)%Q).
Proof.
  destruct (bare_node_records_last_version (oneNodeWorld nodeVersionsAscending)
              Scenario.custom node1File fresh
              {| n_className := "Node1";
                 n_description := plainDescription "node1" (VList [1%Q; 1.1%Q; 2%Q]);
                 n_loadOptions := None;
                 n_executeSingle := false |})
    as [H1 H2]; [reflexivity | reflexivity |].
  split; [exact H1 |].
  apply (H2 [1%Q; 1.1%Q; 2%Q] 2%Q); [reflexivity | | reflexivity].
  repeat constructor; discriminate.
Defined.

(** C7 as stated fails: a bare node that declares [version: [2, 1]] is
    recorded with version [1], the last element, although the list holds the
    higher value [2]. *)
Lemma bare_node_version_not_highest :
  loadedNodes (ldr (fst (loadNodeFromFile (oneNodeWorld nodeVersionsDescending)
                           Scenario.custom node1File fresh)))
    = [{| nv_name := "node1"; nv_version := Some 1%Q |}] /\
  In 2%Q [2%Q; 1%Q] /\ (1 < 2)%Q.
Proof.
  split; [vm_compute; reflexivity |].
  split; [left; reflexivity | reflexivity].
Qed.

(** ** The retired [executeSingle] *)

Lemma forEach_app {A : Type} (f : A -> M unit) (pre post : list A) (s : Runtime) :
  forEach f (pre ++ post) s
  = match forEach f pre s with
    | (s', Done _) => forEach f post s'
    | (s', Threw e) => (s', Threw e)
    end.
Proof.
  revert s. induction pre as [| a pre IH]; intros s; simpl.
  - reflexivity.
  - unfold bind. destruct (f a s) as [s1 [[] | e]]; [apply IH | reflexivity].
Qed.

(** A file on which the body throws ends the loop there. *)
Lemma forEach_aborts {A : Type} (f : A -> M unit) (pre post : list A) (a : A)
    (s s1 s2 : Runtime) (e : Thrown) :
  forEach f pre s = (s1, Done tt) -> f a s1 = (s2, Threw e) ->
  forEach f (pre ++ a :: post) s = (s2, Threw e).
Proof.
  intros Hpre Ha. rewrite forEach_app, Hpre. simpl. unfold bind.
  rewrite Ha. reflexivity.
Qed.

Lemma loadNodeFromFile_retired (w : World) (cfg : Config) (filePath : string)
    (s : Runtime) (v : IVersionedNodeType) (cur : INodeType) :
  loadNodeClass w (resolvePath w cfg filePath) (classNameOf filePath)
    = Instance (Versioned v) ->
  accepts cfg (bd_name (vn_description v)) = true ->
  lookupVersion (vn_currentVersion v) (vn_nodeVersions v) = Some cur ->
  n_executeSingle cur = true ->
  loadNodeFromFile w cfg filePath s
  = (logCall (resolverCall w cfg filePath) s,
     Threw (ExecuteSingleRemoved
              (packageName cfg +:+ "." +:+ bd_name (vn_description v)))).
Proof.
  intros Hload Hacc Hcur Hex. unfold loadNodeFromFile, loadClass, bind.
  rewrite Hload.
  cbn [addCodexNode nodeName vn_description set_vn_description set_bd_codex bd_name].
  rewrite Hacc. unfold prepareNode.
  cbn [vn_currentVersion vn_nodeVersions set_vn_description vn_description].
  rewrite (lookupVersion_map _ addLoadOptionsMethods).
  rewrite (lookupVersion_map _
             (fun n => set_n_description (fixIconPaths cfg (n_description n) filePath) n)).
  rewrite Hcur. cbn [fmap option_fmap option_map].
  rewrite (proj2 (proj2 (proj2 (addLoadOptionsMethods_fields _)))).
  cbn [n_executeSingle set_n_description]. rewrite Hex.
  rewrite fixIconPaths_bd_name. reflexivity.
Qed.

(** C8, as the code has it: when the current variant of a versioned node that
    passes the include/exclude filter has the own property ["executeSingle"],
    [loadNodeFromFile] throws after the call of the class loader with the
    loader's fields as they were, and the eager [loadAll] in whose list of
    node files the file stands ends with that exception: the files after it
    and the credential files are not loaded. *)
Theorem retired_api_aborts_discovery (w : World) (cfg : Config)
    (filePath : string) (v : IVersionedNodeType) (cur : INodeType) :
  loadNodeClass w (resolvePath w cfg filePath) (classNameOf filePath)
    = Instance (Versioned v) ->
  accepts cfg (bd_name (vn_description v)) = true ->
  lookupVersion (vn_currentVersion v) (vn_nodeVersions v) = Some cur ->
  n_executeSingle cur = true ->
  let e := ExecuteSingleRemoved
             (packageName cfg +:+ "." +:+ bd_name (vn_description v)) in
  (forall s,
     loadNodeFromFile w cfg filePath s
     = (logCall (resolverCall w cfg filePath) s, Threw e)) /\
  (forall pre post s s1,
     forEach (loadNodeFromFile w cfg) pre s = (s1, Done tt) ->
     (glob w "**/*.node.js" (directory cfg) = pre ++ filePath :: post ->
      Custom_loadAll w cfg s = (logCall (resolverCall w cfg filePath) s1, Threw e)) /\
     (forall n8n, pj_n8n (packageJson cfg) = Some n8n ->
      pj_nodes n8n = Some (pre ++ filePath :: post) ->
      Package_loadAll w cfg s
      = (logCall (resolverCall w cfg filePath) s1, Threw e))).
Proof.
  intros Hload Hacc Hcur Hex e.
  assert (H1 : forall s, loadNodeFromFile w cfg filePath s
                         = (logCall (resolverCall w cfg filePath) s, Threw e))
    by (intros s; apply (loadNodeFromFile_retired w cfg filePath s v cur); assumption).
  split; [exact H1 |].
  intros pre post s s1 Hpre. split.
  - intros Hglob. unfold Custom_loadAll, bind. rewrite Hglob.
    rewrite (forEach_aborts _ pre post filePath s s1 _ e Hpre (H1 s1)).
    reflexivity.
  - intros n8n Hn8n Hnodes. unfold Package_loadAll. rewrite Hn8n, Hnodes.
    unfold bind.
    rewrite (forEach_aborts _ pre post filePath s s1 _ e Hpre (H1 s1)).
    reflexivity.
Qed.

Lemma retired_api_aborts_discovery_witness :
  let w := oneNodeWorld (versionedNode 2 2) in
  let e := ExecuteSingleRemoved "CUSTOM.node1" in
  loadNodeFromFile w Scenario.custom node1File fresh
    = (logCall (resolverCall w Scenario.custom node1File) fresh, Threw e) /\
  Custom_loadAll w Scenario.custom fresh
    = (logCall (resolverCall w Scenario.custom node1File) fresh, Threw e).
Proof.
  intros w e.
  destruct (retired_api_aborts_discovery w Scenario.custom node1File
              {| vn_className := "Node1";
                 vn_description := {| bd_name := "node1"; bd_icon := None;
                                      bd_iconUrl := None; bd_codex := None |};
                 vn_nodeVersions :=
                   map (fun k : Q =>
                          (k, {| n_className := "Node1V";
                                 n_description := plainDescription "node1" (VSingle k);
                                 n_loadOptions := None;
                                 n_executeSingle := Qeq_bool k 2 |}))
                       [1%Q; 2%Q];
                 vn_currentVersion := 2 |}
              {| n_className := "Node1V";
                 n_description := plainDescription "node1" (VSingle 2);
                 n_loadOptions := None;
                 n_executeSingle := true |})
    as [H1 H2]; [reflexivity | reflexivity | reflexivity | reflexivity |].
  split; [apply H1 |].
  apply (H2 [] [] fresh fresh); reflexivity.
Defined.

(** C8 as stated fails: a versioned node whose variant [1] has
    ["executeSingle"] and whose current version is [2] loads without an
    exception and is recorded. *)
Lemma retired_variant_not_current_loads :
  let w := oneNodeWorld (versionedNode 1 2) in
  let r := Custom_loadAll w Scenario.custom fresh in
  (exists n, lookupVersion 1 (match versionedNode 1 2 with
                              | Versioned v => vn_nodeVersions v
                              | Bare _ => []
                              end) = Some n /\ n_executeSingle n = true) /\
  snd r = Done tt /\
  is_Some (nodeTypes (ldr (fst r)) !! "node1") /\
  is_Some (k_nodes (known (ldr (fst r))) !! "node1") /\
  loadedNodes (ldr (fst r)) = [{| nv_name := "node1"; nv_version := Some 2%Q |}].
Proof.
  intros w r.
  split; [eexists; split; reflexivity |].
  split; [vm_compute; reflexivity |].
  split; [vm_compute; eexists; reflexivity |].
  split; [vm_compute; eexists; reflexivity |].
  vm_compute. reflexivity.
Qed.

(** ** Invariants of the loops *)

Section Invariant.

Context (P : Loader -> Prop).

Lemma invariant_ret {A : Type} (a : A) : invariant P (ret a).
Proof. intros s H. exact H. Qed.

Lemma invariant_throw {A : Type} (e : Thrown) : invariant P (@throw A e).
Proof. intros s H. exact H. Qed.

Lemma invariant_bind {A B : Type} (m : M A) (k : A -> M B) :
  invariant P m -> (forall a, invariant P (k a)) -> invariant P (bind m k).
Proof.
  intros Hm Hk s H. unfold bind. specialize (Hm s H).
  destruct (m s) as [s' [a | e]]; simpl in *.
  - apply Hk, Hm.
  - exact Hm.
Qed.

Lemma invariant_modify (g : Loader -> Loader) :
  (forall l, P l -> P (g l)) -> invariant P (modify g).
Proof. intros Hg s H. simpl. apply Hg, H. Qed.

Lemma invariant_forEach {A : Type} (body : A -> M unit) (l : list A) :
  (forall a, invariant P (body a)) -> invariant P (forEach body l).
Proof.
  intros Hb. induction l as [| a l IH]; simpl.
  - apply invariant_ret.
  - apply invariant_bind; [apply Hb | intros _; exact IH].
Qed.

Lemma invariant_loadClass (w : World) (cfg : Config) {T : Type}
    (resolver : string -> string -> Loaded T) (sourcePath : string) :
  invariant P (loadClass w cfg resolver sourcePath).
Proof.
  intros s H. unfold loadClass. destruct (resolver _ _); exact H.
Qed.

Lemma invariant_Custom_loadAll (w : World) (cfg : Config) :
  (forall a, invariant P (loadNodeFromFile w cfg a)) ->
  (forall a, invariant P (loadCredentialFromFile w cfg a)) ->
  invariant P (Custom_loadAll w cfg).
Proof.
  intros Hn Hc. unfold Custom_loadAll.
  apply invariant_bind; [apply invariant_forEach, Hn |].
  intros _. apply invariant_forEach, Hc.
Qed.

Lemma invariant_Package_loadAll (w : World) (cfg : Config) :
  (forall a, invariant P (loadNodeFromFile w cfg a)) ->
  (forall a, invariant P (loadCredentialFromFile w cfg a)) ->
  invariant P (Package_loadAll w cfg).
Proof.
  intros Hn Hc. unfold Package_loadAll.
  destruct (pj_n8n _) as [n8n |]; [| apply invariant_ret].
  apply invariant_bind.
  - destruct (pj_nodes n8n); [apply invariant_forEach, Hn | apply invariant_ret].
  - intros _. destruct (pj_credentials n8n);
      [apply invariant_forEach, Hc | apply invariant_ret].
Qed.

End Invariant.

Lemma lookupVersion_updateVersion_name (key : Q) (g : INodeType -> INodeType)
    (vs : list (Q * INodeType)) :
  map fst (updateVersion key g vs) = map fst vs.
Proof.
  induction vs as [| [k n] vs IH]; simpl; [reflexivity |].
  destruct (Qeq_bool k key); simpl; [reflexivity | f_equal; exact IH].
Qed.

(** [prepareNode] keeps the name of the node. *)
Lemma prepareNode_name (w : World) (cfg : Config) (t t' : NodeClass)
    (p : string) (v : option Q) :
  prepareNode w cfg t p = Done (t', v) -> nodeName t' = nodeName t.
Proof.
  destruct t as [n | vn]; unfold prepareNode.
  - intros [= <- _]. cbn [nodeName].
    rewrite (proj1 (addLoadOptionsMethods_fields _)).
    cbn [n_description set_n_description].
    apply (proj1 (fixIconPaths_d_fields _ _ _)).
  - cbn [vn_currentVersion vn_nodeVersions set_vn_description vn_description].
    destruct (lookupVersion _ _) as [cur |]; [| discriminate].
    destruct (n_executeSingle cur); [discriminate |].
    intros [= <- _]. cbn [nodeName vn_description set_vn_nodeVersions
                           set_vn_description].
    apply fixIconPaths_bd_name.
Qed.

Lemma forward_nodeTypes (l l' : Loader) :
  forwardFields l = forwardFields l' -> nodeTypes l = nodeTypes l'.
Proof. unfold forwardFields. congruence. Qed.

Lemma recordNode_nodeTypes_dom (t : NodeClass) (v : option Q) (p k : string)
    (l : Loader) :
  is_Some (nodeTypes (recordNode t v p l) !! k) ->
  k = nodeName t \/ is_Some (nodeTypes l !! k).
Proof.
  unfold recordNode. cbv zeta.
  rewrite (forward_nodeTypes _ _ (fold_push_forward _ _ _)).
  cbn [nodeTypes set_types_nodes set_types set_loadedNodes set_nodeTypes].
  destruct (decide (nodeName t = k)) as [-> | Hne].
  - left. reflexivity.
  - rewrite lookup_insert_ne by exact Hne. right. assumption.
Qed.

Lemma loadNodeFromFile_nodesAccepted (w : World) (cfg : Config) (filePath : string) :
  invariant (nodesAccepted cfg) (loadNodeFromFile w cfg filePath).
Proof.
  unfold loadNodeFromFile.
  apply invariant_bind; [apply invariant_loadClass |].
  intros t. destruct (accepts _ _) eqn:Hacc; [| apply invariant_ret].
  destruct (prepareNode _ _ _ _) as [[t' v] | e] eqn:Hprep;
    [| apply invariant_throw].
  apply invariant_modify. intros l Hl k Hk.
  apply recordNode_nodeTypes_dom in Hk as [-> | Hk]; [| apply Hl, Hk].
  rewrite (prepareNode_name _ _ _ _ _ _ Hprep). exact Hacc.
Qed.

Lemma loadCredentialFromFile_nodesAccepted (w : World) (cfg : Config)
    (filePath : string) :
  invariant (nodesAccepted cfg) (loadCredentialFromFile w cfg filePath).
Proof.
  unfold loadCredentialFromFile.
  apply invariant_bind; [apply invariant_loadClass |].
  intros c. apply invariant_modify. intros l Hl. exact Hl.
Qed.

Lemma append_inj_r (p a b : string) : p +:+ a = p +:+ b -> a = b.
Proof.
  induction p as [| c p IH]; simpl; [tauto |].
  intros [= H]. apply IH, H.
Qed.

Lemma includes_singleton (x y : string) : Js.includes [x] y = true -> y = x.
Proof.
  unfold Js.includes. simpl. rewrite orb_false_r. apply String.eqb_eq.
Qed.

Lemma accepts_single_include (cfg : Config) (x k : string) :
  includeNodes cfg = [x] -> accepts cfg k = true ->
  packageName cfg +:+ "." +:+ k = x.
Proof.
  intros Hi Ha. apply accepts_spec in Ha as [[Ha | Ha] _].
  - rewrite Hi in Ha. discriminate.
  - rewrite Hi in Ha. apply includes_singleton, Ha.
Qed.

(** After an eager discovery run on a fresh loader, every node record passed
    the filter. *)
Lemma eager_nodes_accepted (w : World) (cfg : Config) (loadAll : M unit) :
  loadAll = Custom_loadAll w cfg \/ loadAll = Package_loadAll w cfg ->
  nodesAccepted cfg (ldr (fst (run loadAll new_loader))).
Proof.
  intros HloadAll. unfold run.
  assert (H0 : nodesAccepted cfg new_loader).
  { intros k [n Hk]. cbn in Hk. rewrite lookup_empty in Hk. discriminate. }
  destruct HloadAll as [-> | ->].
  - apply (invariant_Custom_loadAll _ w cfg
             (loadNodeFromFile_nodesAccepted w cfg)
             (loadCredentialFromFile_nodesAccepted w cfg)
             {| ldr := new_loader; resolverCalls := [] |} H0).
  - apply (invariant_Package_loadAll _ w cfg
             (loadNodeFromFile_nodesAccepted w cfg)
             (loadCredentialFromFile_nodesAccepted w cfg)
             {| ldr := new_loader; resolverCalls := [] |} H0).
Qed.

(** A node that does not pass the filter leaves no trace in the loader. *)
Lemma loadNodeFromFile_rejected (w : World) (cfg : Config) (filePath : string)
    (s : Runtime) (t : NodeClass) :
  loadNodeClass w (resolvePath w cfg filePath) (classNameOf filePath) = Instance t ->
  accepts cfg (nodeName t) = false ->
  loadNodeFromFile w cfg filePath s
  = (logCall (resolverCall w cfg filePath) s, Done tt).
Proof.
  intros Hload Hacc. unfold loadNodeFromFile, loadClass, bind.
  rewrite Hload, addCodexNode_name, Hacc. reflexivity.
Qed.

(** C4, as the code has it: [loadCredentialFromFile] applies no
    include/exclude filtering, what it does is the same under any two lists;
    and in an eager discovery run on a fresh loader with an include list of
    exactly one fully-qualified name, every node record has that
    fully-qualified name, so that there is one node record at most. *)
Theorem single_include_filters_nodes_only (w : World) (cfg : Config) (x : string) :
  includeNodes cfg = [x] ->
  (forall excl incl filePath s,
     loadCredentialFromFile w (withLists excl incl cfg) filePath s
     = loadCredentialFromFile w cfg filePath s) /\
  (forall loadAll,
     loadAll = Custom_loadAll w cfg \/ loadAll = Package_loadAll w cfg ->
     let l := ldr (fst (run loadAll new_loader)) in
     (forall k, is_Some (nodeTypes l !! k) -> packageName cfg +:+ "." +:+ k = x) /\
     size (nodeTypes l) <= 1).
Proof.
  intros Hi. split; [reflexivity |].
  intros loadAll HloadAll l.
  assert (Hacc : nodesAccepted cfg l)
    by (apply (eager_nodes_accepted w cfg loadAll HloadAll)).
  assert (Hfq : forall k, is_Some (nodeTypes l !! k) ->
                          packageName cfg +:+ "." +:+ k = x).
  { intros k Hk. apply accepts_single_include; [exact Hi | apply Hacc, Hk]. }
  split; [exact Hfq |].
  destruct (map_choose_or_empty (nodeTypes l)) as [(k0 & n0 & Hk0) | ->].
  - rewrite <- size_dom.
    assert (Hsub : dom (nodeTypes l) ⊆ ({[ k0 ]} : gset string)).
    { intros k Hk. apply elem_of_dom in Hk. apply elem_of_singleton.
      apply (append_inj_r "."), (append_inj_r (packageName cfg)).
      rewrite (Hfq k Hk). symmetry. apply Hfq. eexists; exact Hk0. }
    apply subseteq_size in Hsub. rewrite size_singleton in Hsub. exact Hsub.
  - rewrite map_size_empty. lia.
Qed.

Lemma single_include_filters_nodes_only_witness :
  let l := ldr (fst (run (Custom_loadAll Scenario.world customIncludingNode1)
                         new_loader)) in
  (forall k, is_Some (nodeTypes l !! k) -> "CUSTOM" +:+ "." +:+ k = "CUSTOM.node1") /\
  size (nodeTypes l) <= 1.
Proof.
  destruct (single_include_filters_nodes_only Scenario.world customIncludingNode1
              "CUSTOM.node1") as [_ H]; [reflexivity |].
  apply (H (Custom_loadAll Scenario.world customIncludingNode1)).
  left. reflexivity.
Defined.

(** C4 as stated fails: the directory scan of the test scenario with the
    include list [["CUSTOM.node1"]] records the node [node1] and the
    credential [credential1], two forward records, the second under a
    fully-qualified name that is not in the list. *)
Lemma single_include_keeps_credentials :
  let l := ldr (fst (run (Custom_loadAll Scenario.world customIncludingNode1)
                         new_loader)) in
  includeNodes customIncludingNode1 = ["CUSTOM.node1"] /\
  dom (nodeTypes l) = ({[ "node1" ]} : gset string) /\
  dom (credentialTypes l) = ({[ "credential1" ]} : gset string) /\
  size (nodeTypes l) + size (credentialTypes l) = 2 /\
  Js.includes (includeNodes customIncludingNode1) "CUSTOM.credential1" = false.
Proof.
  split; [reflexivity |].
  split; [vm_compute; reflexivity |].
  split; [vm_compute; reflexivity |].
  split; vm_compute; reflexivity.
Qed.

(** ** Icon paths *)

#[export] Instance IconicLaws_description : IconicLaws INodeTypeDescription.
Proof. split; reflexivity. Qed.

#[export] Instance IconicLaws_base : IconicLaws INodeTypeBaseDescription.
Proof. split; reflexivity. Qed.

#[export] Instance IconicLaws_credential : IconicLaws ICredentialType.
Proof. split; reflexivity. Qed.

Lemma split_no_sep (x : string) : hasSep x = false -> Js.split Path.sep x = [x].
Proof.
  induction x as [| c x IH]; simpl; [reflexivity |].
  intros H. apply orb_false_iff in H as [Hc Hx].
  rewrite Hc, (IH Hx). reflexivity.
Qed.

Lemma split_not_nil (sep : ascii) (s : string) : Js.split sep s <> [].
Proof.
  destruct s as [| c s]; simpl; [discriminate |].
  destruct (Ascii.eqb c sep); [discriminate |].
  destruct (Js.split sep s); discriminate.
Qed.

Lemma split_app_sep (a b : string) :
  Js.split Path.sep (a +:+ String Path.sep b)
  = Js.split Path.sep a ++ Js.split Path.sep b.
Proof.
  induction a as [| c a IH]; simpl.
  - reflexivity.
  - destruct (Ascii.eqb c Path.sep).
    + rewrite IH. reflexivity.
    + rewrite IH. pose proof (split_not_nil Path.sep a) as Hne.
      destruct (Js.split Path.sep a); [congruence | reflexivity].
Qed.

Lemma join_split (s : string) : Js.join "/" (Js.split Path.sep s) = s.
Proof.
  induction s as [| c s IH]; [reflexivity |].
  cbn [Js.split]. destruct (Ascii.eqb c Path.sep) eqn:Ec.
  - apply Ascii.eqb_eq in Ec. subst c.
    pose proof (split_not_nil Path.sep s) as Hne.
    destruct (Js.split Path.sep s) as [| w ws]; [congruence |].
    cbn [Js.join]. cbn [Js.join] in IH. rewrite IH. reflexivity.
  - destruct (Js.split Path.sep s) as [| w ws] eqn:Es.
    + exfalso. exact (split_not_nil _ _ Es).
    + rewrite <- IH. destruct ws as [| w' ws]; reflexivity.
Qed.

Lemma append_assoc (a b c : string) : a +:+ b +:+ c = (a +:+ b) +:+ c.
Proof.
  induction a as [| ch a IH]; [reflexivity |].
  change (String ch (a +:+ b +:+ c) = String ch ((a +:+ b) +:+ c)).
  f_equal. exact IH.
Qed.

Lemma join_snoc (l : list string) (x : string) :
  l <> [] -> Js.join "/" (l ++ [x]) = Js.join "/" l +:+ "/" +:+ x.
Proof.
  induction l as [| a l IH]; [congruence |]. intros _.
  destruct l as [| b l].
  - reflexivity.
  - change (Js.join "/" ((a :: b :: l) ++ [x]))
      with (a +:+ "/" +:+ Js.join "/" ((b :: l) ++ [x])).
    rewrite IH by discriminate.
    change (Js.join "/" (a :: b :: l)) with (a +:+ "/" +:+ Js.join "/" (b :: l)).
    rewrite <- (append_assoc a ("/" +:+ Js.join "/" (b :: l)) ("/" +:+ x)).
    reflexivity.
Qed.

Lemma cleanSegment_inv (s : string) :
  cleanSegment s = true ->
  String.eqb s "" = false /\ String.eqb s "." = false /\
  String.eqb s ".." = false /\ hasSep s = false.
Proof.
  unfold cleanSegment. intros H.
  repeat (apply andb_true_iff in H as [H ?]).
  rewrite !negb_true_iff in *. auto.
Qed.

Lemma normalizeSegments_clean (allow : bool) (stack segs : list string) :
  forallb cleanSegment segs = true ->
  Path.normalizeSegments allow stack segs = rev stack ++ segs.
Proof.
  revert stack. induction segs as [| s segs IH]; intros stack H; simpl.
  - rewrite app_nil_r. reflexivity.
  - simpl in H. apply andb_true_iff in H as [Hs H].
    apply cleanSegment_inv in Hs as (H1 & H2 & H3 & _).
    rewrite H1, H2, H3. simpl. rewrite IH by exact H.
    simpl. rewrite <- app_assoc. reflexivity.
Qed.

Lemma endsWithSep_app (a b : string) :
  b <> EmptyString -> Path.endsWithSep (a +:+ b) = Path.endsWithSep b.
Proof.
  intros Hb. induction a as [| c a IH]; [reflexivity |].
  simpl. destruct (a +:+ b) eqn:E.
  - exfalso. destruct a; [apply Hb; exact E | discriminate E].
  - exact IH.
Qed.

Lemma endsWithSep_no_sep (x : string) : hasSep x = false -> Path.endsWithSep x = false.
Proof.
  induction x as [| c x IH]; [reflexivity |].
  simpl. intros H. apply orb_false_iff in H as [Hc Hx].
  destruct x; [exact Hc | apply IH, Hx].
Qed.

(** Joining a directory in normal form and a file name puts a slash between
    them. *)
Lemma join_normalDirectory (d x : string) :
  normalDirectory d = true -> cleanSegment x = true ->
  Path.join d x = d +:+ "/" +:+ x.
Proof.
  intros Hd Hx.
  pose proof (cleanSegment_inv x Hx) as (Hx1 & _ & _ & Hx4).
  assert (Hxne : x <> EmptyString) by (intros ->; discriminate).
  assert (Hdne : d <> EmptyString) by (intros ->; discriminate).
  unfold Path.join. destruct d as [| c0 r]; [congruence |].
  destruct x as [| cx x']; [congruence |].
  set (x := String cx x') in *. set (d := String c0 r) in *.
  unfold Path.normalize.
  assert (Hp : d +:+ "/" +:+ x = String c0 (r +:+ "/" +:+ x)) by reflexivity.
  rewrite Hp at 1.
  assert (Htr : Path.endsWithSep (d +:+ "/" +:+ x) = false).
  { rewrite endsWithSep_app by discriminate.
    change ("/" +:+ x) with (String Path.sep x).
    replace (Path.endsWithSep (String Path.sep x)) with (Path.endsWithSep x)
      by reflexivity.
    apply endsWithSep_no_sep, Hx4. }
  rewrite Htr.
  assert (Habs : Path.isAbsolute (d +:+ "/" +:+ x) = Ascii.eqb c0 Path.sep)
    by reflexivity.
  rewrite Habs. unfold Path.normalizeString.
  change (d +:+ "/" +:+ x) with (d +:+ String Path.sep x).
  rewrite split_app_sep, (split_no_sep x Hx4).
  unfold normalDirectory, relativePart in Hd. subst d. cbv beta iota in Hd.
  destruct (Ascii.eqb c0 Path.sep) eqn:Ec.
  - apply Ascii.eqb_eq in Ec. subst c0.
    change (Js.split Path.sep (String Path.sep r))
      with (EmptyString :: Js.split Path.sep r).
    cbn [app Path.normalizeSegments String.eqb orb negb].
    rewrite normalizeSegments_clean
      by (rewrite forallb_app, Hd; simpl; rewrite Hx; reflexivity).
    cbn [rev app]. rewrite join_snoc by apply split_not_nil.
    rewrite join_split.
    destruct (r +:+ "/" +:+ x) eqn:E.
    + destruct r; discriminate.
    + rewrite <- E. reflexivity.
  - rewrite normalizeSegments_clean
      by (rewrite forallb_app, Hd; simpl; rewrite Hx; reflexivity).
    cbn [rev app negb]. rewrite join_snoc by apply split_not_nil.
    rewrite join_split. reflexivity.
Qed.

Lemma replace_file_marker (x : string) : Js.replace "file:" "" ("file:" +:+ x) = x.
Proof.
  unfold Js.replace.
  change (String.prefix "file:" ("file:" +:+ x)) with (String.prefix "" x).
  destruct x; reflexivity.
Qed.

Lemma getIconPath_file (cfg : Config) (filePath d x : string) :
  Path.dirname filePath = d -> normalDirectory d = true -> cleanSegment x = true ->
  getIconPath cfg ("file:" +:+ x) filePath
  = "icons/" +:+ packageName cfg +:+ "/" +:+ d +:+ "/" +:+ x.
Proof.
  intros Hd Hn Hx. unfold getIconPath.
  rewrite replace_file_marker, Hd, (join_normalDirectory d x Hn Hx). reflexivity.
Qed.

(** C6: for a component file in directory [d] under namespace [P], the icon
    reference ["file:" ++ x] is rewritten to the [iconUrl]
    ["icons/P/d/x"] and the [icon] is removed; a light/dark icon is
    rewritten, and removed, when both sides start with ["file:"], each side
    to the same shape, and the object is returned as it was when one side
    does not. *)
Theorem fixIconPaths_rewrites {A : Type} `{IconicLaws A} (cfg : Config)
    (obj : A) (filePath d : string) :
  Path.dirname filePath = d -> normalDirectory d = true ->
  (forall x, cleanSegment x = true ->
     getIcon obj = Some (Plain ("file:" +:+ x)) ->
     getIconUrl (fixIconPaths cfg obj filePath)
       = Some (Plain ("icons/" +:+ packageName cfg +:+ "/" +:+ d +:+ "/" +:+ x)) /\
     getIcon (fixIconPaths cfg obj filePath) = None) /\
  (forall light dark, getIcon obj = Some (LightDark light dark) ->
     (Js.startsWith light "file:" = true -> Js.startsWith dark "file:" = true ->
        fixIconPaths cfg obj filePath
        = deleteIcon (setIconUrl (LightDark (getIconPath cfg light filePath)
                                            (getIconPath cfg dark filePath)) obj) /\
        getIcon (fixIconPaths cfg obj filePath) = None /\
        (forall xl xd, cleanSegment xl = true -> cleanSegment xd = true ->
           light = "file:" +:+ xl -> dark = "file:" +:+ xd ->
           getIconUrl (fixIconPaths cfg obj filePath)
           = Some (LightDark
                     ("icons/" +:+ packageName cfg +:+ "/" +:+ d +:+ "/" +:+ xl)
                     ("icons/" +:+ packageName cfg +:+ "/" +:+ d +:+ "/" +:+ xd)))) /\
     (Js.startsWith light "file:" = false \/ Js.startsWith dark "file:" = false ->
        fixIconPaths cfg obj filePath = obj)).
Proof.
  intros Hd Hn. split.
  - intros x Hx Hicon. unfold fixIconPaths. rewrite Hicon.
    change (String.eqb ("file:" +:+ x) "") with false.
    change (Js.startsWith ("file:" +:+ x) "file:") with (String.prefix "" x).
    replace (String.prefix "" x) with true by (destruct x; reflexivity).
    cbv iota. rewrite getIconUrl_rewritten, getIcon_rewritten.
    rewrite (getIconPath_file cfg filePath d x Hd Hn Hx). split; reflexivity.
  - intros light dark Hicon. split.
    + intros Hl Hk.
      assert (E : fixIconPaths cfg obj filePath
                  = deleteIcon (setIconUrl (LightDark (getIconPath cfg light filePath)
                                              (getIconPath cfg dark filePath)) obj)).
      { unfold fixIconPaths. rewrite Hicon, Hl, Hk. reflexivity. }
      split; [exact E |]. rewrite E. split; [apply getIcon_rewritten |].
      intros xl xd Hxl Hxd -> ->. rewrite getIconUrl_rewritten.
      rewrite (getIconPath_file cfg filePath d xl Hd Hn Hxl).
      rewrite (getIconPath_file cfg filePath d xd Hd Hn Hxd). reflexivity.
    + intros Hor. unfold fixIconPaths. rewrite Hicon.
      destruct Hor as [-> | ->]; [reflexivity |].
      rewrite andb_false_r. reflexivity.
Qed.

Lemma fixIconPaths_rewrites_witness :
  let d := {| d_name := "node1"; d_icon := Some (Plain "file:node1.svg");
              d_iconUrl := None; d_version := VSingle 1; d_credentials := None;
              d_codex := None; d_loadOptionsMethods := None |} in
  d_iconUrl (fixIconPaths Scenario.custom d node1File)
    = Some (Plain "icons/CUSTOM/dist/Node1/node1.svg") /\
  d_icon (fixIconPaths Scenario.custom d node1File) = None.
Proof.
  intros d.
  destruct (fixIconPaths_rewrites Scenario.custom d node1File "dist/Node1")
    as [H _]; [reflexivity | reflexivity |].
  apply (H "node1.svg"); reflexivity.
Defined.

(** ** The reverse index *)

Lemma pushed_pushed (o : option (list string)) (xs ys : list string) :
  pushed (pushed o xs) ys = pushed o (xs ++ ys).
Proof.
  destruct xs as [| x xs]; [reflexivity |].
  destruct ys as [| y ys].
  - rewrite app_nil_r. reflexivity.
  - simpl. rewrite <- app_assoc. reflexivity.
Qed.

Lemma pushNodeByCredential_nodesOf (c n : string) (l : Loader) :
  storeWellFormed l ->
  storeWellFormed (pushNodeByCredential c n l) /\
  forall c', nodesOf (pushNodeByCredential c n l) c'
             = pushed (nodesOf l c') (if String.eqb c c' then [n] else []).
Proof.
  intros [Hrange Hinj]. unfold pushNodeByCredential.
  destruct (nodesByCredential l !! c) as [loc |] eqn:E.
  - rewrite E. split.
    + split; cbn [nodesByCredential arrays set_nodesByCredential].
      * intros c0 loc0 H0. rewrite length_alter. eapply Hrange, H0.
      * exact Hinj.
    + intros c'. unfold nodesOf.
      cbn [nodesByCredential arrays set_nodesByCredential].
      destruct (String.eqb c c') eqn:Ec.
      * apply String.eqb_eq in Ec. subst c'. rewrite E. cbn [mbind option_bind].
        rewrite list_lookup_alter_eq.
        destruct (arrays l !! loc) as [a |] eqn:Ea; [reflexivity |].
        apply lookup_ge_None in Ea. specialize (Hrange _ _ E). lia.
      * apply String.eqb_neq in Ec. cbn [pushed].
        destruct (nodesByCredential l !! c') as [loc' |] eqn:E'; [| reflexivity].
        cbn [mbind option_bind]. apply list_lookup_alter_ne.
        intros ->. apply Ec. eapply Hinj; eassumption.
  - cbn [nodesByCredential arrays set_nodesByCredential].
    rewrite lookup_insert_eq. split.
    + split; cbn [nodesByCredential arrays set_nodesByCredential].
      * intros c0 loc0 H0. rewrite length_alter, length_app. simpl.
        destruct (decide (c = c0)) as [<- | Hne].
        -- rewrite lookup_insert_eq in H0. injection H0 as <-. lia.
        -- rewrite lookup_insert_ne in H0 by exact Hne.
           specialize (Hrange _ _ H0). lia.
      * intros c1 c2 loc0 H1 H2.
        destruct (decide (c = c1)) as [<- | Hne1];
          destruct (decide (c = c2)) as [<- | Hne2]; [reflexivity | | |].
        -- rewrite lookup_insert_eq in H1. injection H1 as <-.
           rewrite lookup_insert_ne in H2 by exact Hne2.
           specialize (Hrange _ _ H2). lia.
        -- rewrite lookup_insert_eq in H2. injection H2 as <-.
           rewrite lookup_insert_ne in H1 by exact Hne1.
           specialize (Hrange _ _ H1). lia.
        -- rewrite lookup_insert_ne in H1 by exact Hne1.
           rewrite lookup_insert_ne in H2 by exact Hne2.
           eapply Hinj; eassumption.
    + intros c'. unfold nodesOf.
      cbn [nodesByCredential arrays set_nodesByCredential].
      destruct (String.eqb c c') eqn:Ec.
      * apply String.eqb_eq in Ec. subst c'. rewrite lookup_insert_eq, E.
        cbn [mbind option_bind pushed default].
        rewrite list_lookup_alter_eq, lookup_app_r by lia.
        rewrite Nat.sub_diag. reflexivity.
      * apply String.eqb_neq in Ec. rewrite lookup_insert_ne by exact Ec.
        cbn [pushed].
        destruct (nodesByCredential l !! c') as [loc' |] eqn:E'; [| reflexivity].
        cbn [mbind option_bind]. specialize (Hrange _ _ E').
        rewrite list_lookup_alter_ne by lia.
        apply lookup_app_l. exact Hrange.
Qed.

Lemma fold_push_nodesOf (n : string) (cs : list INodeCredentialDescription)
    (l : Loader) :
  storeWellFormed l ->
  storeWellFormed
    (fold_left (fun l c => pushNodeByCredential (cd_name c) n l) cs l) /\
  forall c', nodesOf (fold_left (fun l c => pushNodeByCredential (cd_name c) n l) cs l) c'
             = pushed (nodesOf l c')
                 (map (fun _ => n)
                      (List.filter (fun cd => String.eqb (cd_name cd) c') cs)).
Proof.
  revert l. induction cs as [| cd cs IH]; intros l Hwf; simpl.
  - split; [exact Hwf | reflexivity].
  - destruct (pushNodeByCredential_nodesOf (cd_name cd) n l Hwf) as [Hwf1 H1].
    destruct (IH _ Hwf1) as [Hwf2 H2]. split; [exact Hwf2 |].
    intros c'. rewrite H2, H1, pushed_pushed.
    destruct (String.eqb (cd_name cd) c'); reflexivity.
Qed.

Lemma nodesOf_ext (l l' : Loader) (c : string) :
  nodesByCredential l = nodesByCredential l' -> arrays l = arrays l' ->
  nodesOf l c = nodesOf l' c.
Proof. unfold nodesOf. intros -> ->. reflexivity. Qed.

Lemma recordNode_nodesOf (t : NodeClass) (v : option Q) (p : string) (l : Loader) :
  storeWellFormed l ->
  storeWellFormed (recordNode t v p l) /\
  forall c, nodesOf (recordNode t v p l) c = pushed (nodesOf l c) (declarations c t).
Proof.
  intros Hwf. unfold recordNode. cbv zeta.
  match goal with
  | |- storeWellFormed (fold_left _ _ ?l0) /\ _ =>
      assert (Hwf0 : storeWellFormed l0) by exact Hwf;
      destruct (fold_push_nodesOf (nodeName t) (getCredentialsForNode t) l0 Hwf0)
        as [H1 H2]
  end.
  split; [exact H1 |].
  intros c. rewrite H2. reflexivity.
Qed.

(** What [loadNodeFromFile] has done when it returns. *)
Lemma loadNodeFromFile_done (w : World) (cfg : Config) (filePath : string)
    (s s' : Runtime) :
  loadNodeFromFile w cfg filePath s = (s', Done tt) ->
  match recordedNode w cfg filePath with
  | Some t => exists v, ldr s' = recordNode t v filePath (ldr s)
  | None => ldr s' = ldr s
  end.
Proof.
  unfold loadNodeFromFile, recordedNode, loadClass, bind.
  destruct (loadNodeClass w _ _) as [t | |]; [| discriminate | discriminate].
  cbv zeta. destruct (accepts _ _).
  - destruct (prepareNode _ _ _ _) as [[t' v] |]; [| discriminate].
    intros [= <-]. exists v. reflexivity.
  - intros [= <-]. reflexivity.
Qed.

Lemma declaringNodes_app (c : string) (ts ts' : list NodeClass) :
  declaringNodes c (ts ++ ts') = declaringNodes c ts ++ declaringNodes c ts'.
Proof. unfold declaringNodes. apply flat_map_app. Qed.

(** The loop over the node files: when it completes, the arrays of
    [nodesByCredential] hold the declaring nodes among the accepted ones, on
    top of what they held. *)
Lemma node_loop_nodesOf (w : World) (cfg : Config) (files : list string)
    (s s' : Runtime) :
  storeWellFormed (ldr s) ->
  forEach (loadNodeFromFile w cfg) files s = (s', Done tt) ->
  storeWellFormed (ldr s') /\
  forall c, nodesOf (ldr s') c
            = pushed (nodesOf (ldr s) c)
                (declaringNodes c (acceptedNodes w cfg files)).
Proof.
  revert s. induction files as [| f files IH]; intros s Hwf; simpl.
  - intros [= <-]. split; [exact Hwf | reflexivity].
  - unfold bind. destruct (loadNodeFromFile w cfg f s) as [s1 [[] | e]] eqn:E1;
      [| discriminate].
    intros Hrest. apply loadNodeFromFile_done in E1.
    unfold acceptedNodes. cbn [omap list_omap].
    destruct (recordedNode w cfg f) as [t |].
    + destruct E1 as [v E1].
      destruct (recordNode_nodesOf t v f (ldr s) Hwf) as [Hwf1 H1].
      rewrite <- E1 in Hwf1, H1.
      destruct (IH s1 Hwf1 Hrest) as [Hwf2 H2]. split; [exact Hwf2 |].
      intros c. rewrite H2, H1, pushed_pushed. reflexivity.
    + rewrite <- E1 in Hwf.
      destruct (IH s1 Hwf Hrest) as [Hwf2 H2]. split; [exact Hwf2 |].
      intros c. rewrite H2, E1. reflexivity.
Qed.

Lemma node_loop_known_credentials (w : World) (cfg : Config) (files : list string) :
  keeps (fun l => k_credentials (known l)) (forEach (loadNodeFromFile w cfg) files).
Proof.
  apply keeps_forEach. intros f. apply keeps_loadNodeFromFile.
  intros. apply recordNode_known_credentials.
Qed.

Lemma credential_loop_store (w : World) (cfg : Config) (files : list string) :
  keeps (fun l => (nodesByCredential l, arrays l))
        (forEach (loadCredentialFromFile w cfg) files).
Proof.
  apply keeps_forEach. intros f. apply keeps_loadCredentialFromFile; reflexivity.
Qed.

Lemma credential_loop_shared (w : World) (cfg : Config) (files : list string) :
  invariant supportedNodesShared (forEach (loadCredentialFromFile w cfg) files).
Proof.
  apply invariant_forEach. intros f. unfold loadCredentialFromFile.
  apply invariant_bind; [apply invariant_loadClass |].
  intros cred. apply invariant_modify. intros l Hl c e.
  cbn [known k_credentials set_types_credentials set_types set_credentialTypes
       set_known_credentials set_known nodesByCredential].
  destruct (decide (c_name (fixIconPaths cfg
              {| c_className := c_className cred; c_name := c_name cred;
                 c_icon := c_icon cred; c_iconUrl := c_iconUrl cred;
                 c_extends := c_extends cred;
                 c_authenticate := c_authenticate cred; c_toJSON := true |} f) = c))
    as [<- | Hne].
  - rewrite lookup_insert_eq. intros [= <-]. reflexivity.
  - rewrite lookup_insert_ne by exact Hne. apply Hl.
Qed.

Lemma Custom_loadAll_loops (w : World) (cfg : Config) :
  Custom_loadAll w cfg
  = eagerLoops w cfg (glob w "**/*.node.js" (directory cfg))
               (glob w "**/*.credentials.js" (directory cfg)).
Proof. reflexivity. Qed.

Lemma Package_loadAll_loops (w : World) (cfg : Config) (s : Runtime) :
  Package_loadAll w cfg s
  = eagerLoops w cfg (packageNodeFiles cfg) (packageCredentialFiles cfg) s.
Proof.
  unfold Package_loadAll, eagerLoops, packageNodeFiles, packageCredentialFiles.
  destruct (pj_n8n (packageJson cfg)) as [n8n |]; [| reflexivity].
  destruct (pj_nodes n8n), (pj_credentials n8n); reflexivity.
Qed.

Lemma declaringNodes_spec (c x : string) (nodes : list NodeClass) :
  In x (declaringNodes c nodes) <->
  exists t, In t nodes /\ nodeName t = x /\
            exists cd, In cd (getCredentialsForNode t) /\ cd_name cd = c.
Proof.
  unfold declaringNodes, declarations. rewrite in_flat_map. split.
  - intros (t & Ht & Hx). apply in_map_iff in Hx as (cd & <- & Hcd).
    apply filter_In in Hcd as [Hcd Hc]. apply String.eqb_eq in Hc.
    exists t. repeat split; [exact Ht |]. exists cd. split; assumption.
  - intros (t & Ht & <- & cd & Hcd & Hc). exists t. split; [exact Ht |].
    apply in_map_iff. exists cd. split; [reflexivity |].
    apply filter_In. split; [exact Hcd | apply String.eqb_eq, Hc].
Qed.

Lemma eagerLoops_supportedNodes (w : World) (cfg : Config)
    (nodeFiles credentialFiles : list string) (c : string)
    (e : CredentialLoadingDetails) :
  let l := ldr (fst (run (eagerLoops w cfg nodeFiles credentialFiles) new_loader)) in
  k_credentials (known l) !! c = Some e ->
  snd (run (forEach (loadNodeFromFile w cfg) nodeFiles) new_loader) = Done tt /\
  match declaringNodes c (acceptedNodes w cfg nodeFiles) with
  | [] => kc_supportedNodes e = None
  | nodes => kc_supportedNodes e ≫= readArray l = Some nodes
  end.
Proof.
  unfold run, eagerLoops, bind. set (s0 := {| ldr := new_loader; resolverCalls := [] |}).
  pose proof (node_loop_known_credentials w cfg nodeFiles s0) as Hkc.
  destruct (forEach (loadNodeFromFile w cfg) nodeFiles s0) as [s1 [[] | er]] eqn:E1;
    cbn [fst snd] in *.
  2: { intros Hc. rewrite Hkc in Hc. cbn in Hc. rewrite lookup_empty in Hc.
       discriminate. }
  intros Hc. split; [reflexivity |].
  assert (Hwf0 : storeWellFormed (ldr s0)).
  { split; cbn; intros *; rewrite lookup_empty; discriminate. }
  destruct (node_loop_nodesOf w cfg nodeFiles s0 s1 Hwf0 E1) as [[Hrange _] Hof].
  pose proof (credential_loop_store w cfg credentialFiles s1) as Hstore.
  injection Hstore as Hnbc Harr.
  assert (Hsh : supportedNodesShared (ldr s1)).
  { intros c' e' H'. rewrite Hkc in H'. cbn in H'. rewrite lookup_empty in H'.
    discriminate. }
  apply (credential_loop_shared w cfg credentialFiles s1) in Hsh.
  specialize (Hsh c e Hc). rewrite Hnbc in Hsh.
  specialize (Hof c). unfold nodesOf in Hof. cbn [ldr s0 new_loader nodesByCredential] in Hof.
  rewrite lookup_empty in Hof. cbn [mbind option_bind] in Hof.
  destruct (declaringNodes c (acceptedNodes w cfg nodeFiles)) as [| x xs].
  - cbn [pushed] in Hof. rewrite Hsh.
    destruct (nodesByCredential (ldr s1) !! c) as [loc |] eqn:El; [| reflexivity].
    cbn [mbind option_bind] in Hof. apply lookup_ge_None in Hof.
    specialize (Hrange _ _ El). lia.
  - cbn [pushed default app] in Hof. rewrite Hsh.
    destruct (nodesByCredential (ldr s1) !! c) as [loc |]; [| discriminate Hof].
    cbn [mbind option_bind fmap option_fmap option_map readArray] in *.
    rewrite Harr. exact Hof.
Qed.



(** ** Scanning again: what is reproduced *)

Lemma lockstep_ret {A : Type} (a : A) : lockstep (ret a).
Proof. intros s1 s2 H Hc. split; [exact H | split; [exact Hc | reflexivity]]. Qed.

Lemma lockstep_throw {A : Type} (e : Thrown) : lockstep (@throw A e).
Proof. intros s1 s2 H Hc. split; [exact H | split; [exact Hc | reflexivity]]. Qed.

Lemma lockstep_bind {A B : Type} (m : M A) (k : A -> M B) :
  lockstep m -> (forall a, lockstep (k a)) -> lockstep (bind m k).
Proof.
  intros Hm Hk s1 s2 H Hc. unfold bind.
  destruct (Hm s1 s2 H Hc) as (H' & Hc' & Hr).
  destruct (m s1) as [s1' [a1 | e1]], (m s2) as [s2' [a2 | e2]];
    cbn [fst snd] in *; try discriminate.
  - injection Hr as <-. apply Hk; assumption.
  - injection Hr as <-. split; [exact H' | split; [exact Hc' | reflexivity]].
Qed.

Lemma lockstep_try_catch {A : Type} (body handler : M A) :
  lockstep body -> lockstep handler -> lockstep (try_catch body handler).
Proof.
  intros Hb Hh s1 s2 H Hc. unfold try_catch.
  destruct (Hb s1 s2 H Hc) as (H' & Hc' & Hr).
  destruct (body s1) as [s1' [a1 | e1]], (body s2) as [s2' [a2 | e2]];
    cbn [fst snd] in *; try discriminate.
  - injection Hr as <-. split; [exact H' | split; [exact Hc' | reflexivity]].
  - apply Hh; assumption.
Qed.

Lemma lockstep_modify (g : Loader -> Loader) :
  (forall l1 l2, sameForward l1 l2 -> sameForward (g l1) (g l2)) ->
  lockstep (modify g).
Proof.
  intros Hg s1 s2 H Hc. cbn.
  split; [apply Hg, H | split; [exact Hc | reflexivity]].
Qed.

Lemma lockstep_forEach {A : Type} (body : A -> M unit) (l : list A) :
  (forall a, lockstep (body a)) -> lockstep (forEach body l).
Proof.
  intros Hb. induction l as [| a l IH]; simpl.
  - apply lockstep_ret.
  - apply lockstep_bind; [apply Hb | intros _; exact IH].
Qed.

Lemma lockstep_loadClass (w : World) (cfg : Config) {T : Type}
    (resolver : string -> string -> Loaded T) (sourcePath : string) :
  lockstep (loadClass w cfg resolver sourcePath).
Proof.
  intros s1 s2 H Hc. unfold loadClass. rewrite Hc.
  destruct (resolver _ _); cbn; (split; [exact H | split; reflexivity]).
Qed.

Lemma lockstep_readJSON (w : World) (cfg : Config) {T : Type}
    (read : string -> option T) (file : string) :
  lockstep (readJSON w cfg read file).
Proof.
  unfold readJSON. destruct (read _); [apply lockstep_ret | apply lockstep_throw].
Qed.

Lemma recordNode_forward (t : NodeClass) (v : option Q) (p : string) (l : Loader) :
  forwardFields (recordNode t v p l)
  = forwardFields
      (set_types_nodes
         (t_nodes (types l) ++ map n_description (getVersionedNodeTypeAll t))
         (set_loadedNodes
            (loadedNodes l ++ [{| nv_name := nodeName t; nv_version := v |}])
            (set_nodeTypes
               (<[nodeName t :=
                    {| ln_type := match t with
                                  | Versioned vn =>
                                      Versioned (set_vn_nodeVersions (renameVersions vn) vn)
                                  | Bare n => Bare n
                                  end;
                       ln_sourcePath := p |}]> (nodeTypes l))
               (set_known_nodes
                  (<[nodeName t := {| kn_className := nodeClassName t;
                                      kn_sourcePath := p |}]> (k_nodes (known l)))
                  l)))).
Proof. unfold recordNode. cbv zeta. apply fold_push_forward. Qed.

Lemma recordNode_sameForward (t : NodeClass) (v : option Q) (p : string)
    (l1 l2 : Loader) :
  sameForward l1 l2 -> sameForward (recordNode t v p l1) (recordNode t v p l2).
Proof.
  intros (H1 & H2 & H3 & H4 & H5 & H6).
  pose proof (recordNode_forward t v p l1) as F1.
  pose proof (recordNode_forward t v p l2) as F2.
  unfold forwardFields in F1, F2. cbn in F1, F2.
  injection F1 as _ A1 A2 A3 A4 A5. injection F2 as _ B1 B2 B3 B4 B5.
  unfold sameForward.
  rewrite A1, A2, A3, A4, A5, B1, B2, B3, B4, B5. cbn.
  rewrite H1, H2, H3, H4, H5. repeat split. exact H6.
Qed.

Lemma lockstep_loadNodeFromFile (w : World) (cfg : Config) (filePath : string) :
  lockstep (loadNodeFromFile w cfg filePath).
Proof.
  unfold loadNodeFromFile.
  apply lockstep_bind; [apply lockstep_loadClass |].
  intros t. destruct (accepts _ _); [| apply lockstep_ret].
  destruct (prepareNode _ _ _ _) as [[t' v] | e]; [| apply lockstep_throw].
  apply lockstep_modify. apply recordNode_sameForward.
Qed.

Lemma lockstep_loadCredentialFromFile (w : World) (cfg : Config) (filePath : string) :
  lockstep (loadCredentialFromFile w cfg filePath).
Proof.
  unfold loadCredentialFromFile.
  apply lockstep_bind; [apply lockstep_loadClass |].
  intros cred. apply lockstep_modify.
  intros l1 l2 (H1 & H2 & H3 & H4 & H5 & H6). unfold sameForward. cbn.
  rewrite H1, H2, H3, H4, H5, !fmap_insert, H6. repeat split.
Qed.

Lemma lockstep_Package_loadAll (w : World) (cfg : Config) :
  lockstep (Package_loadAll w cfg).
Proof.
  unfold Package_loadAll. destruct (pj_n8n _) as [n8n |]; [| apply lockstep_ret].
  apply lockstep_bind.
  - destruct (pj_nodes n8n); [| apply lockstep_ret].
    apply lockstep_forEach, lockstep_loadNodeFromFile.
  - intros _. destruct (pj_credentials n8n); [| apply lockstep_ret].
    apply lockstep_forEach, lockstep_loadCredentialFromFile.
Qed.

Lemma lockstep_Custom_loadAll (w : World) (cfg : Config) :
  lockstep (Custom_loadAll w cfg).
Proof.
  unfold Custom_loadAll. apply lockstep_bind.
  - apply lockstep_forEach, lockstep_loadNodeFromFile.
  - intros _. apply lockstep_forEach, lockstep_loadCredentialFromFile.
Qed.

Lemma set_known_sameForward (nodes : option (gmap string LoadingDetails))
    (credentials : option (gmap string CredentialLoadingDetails))
    (l1 l2 : Loader) :
  sameForward l1 l2 ->
  sameForward
    (set_known {| k_nodes := default (k_nodes (known l1)) nodes;
                  k_credentials := default (k_credentials (known l1)) credentials |} l1)
    (set_known {| k_nodes := default (k_nodes (known l2)) nodes;
                  k_credentials := default (k_credentials (known l2)) credentials |} l2).
Proof.
  intros (H1 & H2 & H3 & H4 & H5 & H6). unfold sameForward. cbn.
  repeat split; try assumption.
  - destruct nodes; [reflexivity | exact H4].
  - destruct credentials; [reflexivity | exact H6].
Qed.

Lemma set_types_sameForward (f : Types -> Types) (l1 l2 : Loader) :
  sameForward l1 l2 -> sameForward (set_types (f (types l1)) l1) (set_types (f (types l2)) l2).
Proof.
  intros (H1 & H2 & H3 & H4 & H5 & H6). unfold sameForward. cbn.
  rewrite H5. repeat split; assumption.
Qed.

Lemma applyIncludeNodes_sameForward (cfg : Config) (l1 l2 : Loader) :
  sameForward l1 l2 -> sameForward (applyIncludeNodes cfg l1) (applyIncludeNodes cfg l2).
Proof.
  intros (H1 & H2 & H3 & H4 & H5 & H6). unfold applyIncludeNodes.
  destruct (negb _); [| repeat split; assumption].
  unfold sameForward. cbn. rewrite H4, H5. repeat split; assumption.
Qed.

Lemma applyExcludeNodes_sameForward (cfg : Config) (l1 l2 : Loader) :
  sameForward l1 l2 -> sameForward (applyExcludeNodes cfg l1) (applyExcludeNodes cfg l2).
Proof.
  intros (H1 & H2 & H3 & H4 & H5 & H6). unfold applyExcludeNodes.
  destruct (negb _); [| repeat split; assumption].
  unfold sameForward. cbn. rewrite H4, H5. repeat split; assumption.
Qed.

Lemma lockstep_Lazy_loadAll (w : World) (cfg : Config) :
  lockstep (Lazy_loadAll w cfg).
Proof.
  unfold Lazy_loadAll. apply lockstep_try_catch; [| apply lockstep_Package_loadAll].
  unfold Lazy_tryBlock.
  apply lockstep_bind; [apply lockstep_readJSON | intros kn].
  apply lockstep_bind;
    [apply lockstep_modify; intros l1 l2 H;
     apply (set_known_sameForward (Some kn) None l1 l2 H) | intros _].
  apply lockstep_bind; [apply lockstep_readJSON | intros kc].
  apply lockstep_bind;
    [apply lockstep_modify; intros l1 l2 H;
     apply (set_known_sameForward None (Some kc) l1 l2 H) | intros _].
  apply lockstep_bind; [apply lockstep_readJSON | intros tn].
  apply lockstep_bind;
    [apply lockstep_modify; intros l1 l2 H;
     apply (set_types_sameForward
              (fun t => {| t_nodes := tn; t_credentials := t_credentials t |})
              l1 l2 H) | intros _].
  apply lockstep_bind; [apply lockstep_readJSON | intros tc].
  apply lockstep_bind;
    [apply lockstep_modify; intros l1 l2 H;
     apply (set_types_sameForward
              (fun t => {| t_nodes := t_nodes t; t_credentials := tc |})
              l1 l2 H) | intros _].
  apply lockstep_bind;
    [apply lockstep_modify, applyIncludeNodes_sameForward | intros _].
  apply lockstep_bind;
    [apply lockstep_modify, applyExcludeNodes_sameForward | intros _].
  apply lockstep_modify. intros l1 l2 H. exact H.
Qed.

(** After [reset()], a discovery run ends as it does on a fresh loader, with
    the same calls of the resolver and the same records in [loadedNodes],
    [nodeTypes], [credentialTypes], [known.nodes] and [types], and the same
    entries of [known.credentials] but for [supportedNodes]. *)
Lemma rescan_reproduces_forward_fields (w : World) (cfg : Config)
    (loadAll : M unit) (l : Loader) :
  loadAll = Custom_loadAll w cfg \/ loadAll = Package_loadAll w cfg \/
  loadAll = Lazy_loadAll w cfg ->
  sameForward (ldr (fst (run loadAll new_loader))) (ldr (fst (run loadAll (reset l)))) /\
  resolverCalls (fst (run loadAll new_loader))
    = resolverCalls (fst (run loadAll (reset l))) /\
  snd (run loadAll new_loader) = snd (run loadAll (reset l)).
Proof.
  intros H.
  assert (Hl : lockstep loadAll).
  { destruct H as [-> | [-> | ->]];
      [apply lockstep_Custom_loadAll | apply lockstep_Package_loadAll
      | apply lockstep_Lazy_loadAll]. }
  apply Hl; [| reflexivity]. repeat split.
Qed.

(** * Further properties *)

(** ** The serializer of credentials *)

(** What [toJSON] sends out never has a function for [authenticate]: a
    function becomes the empty object, so that [authenticate] is there
    exactly when it was; everything else is sent as it is, and serializing
    twice changes nothing more. *)
Theorem toJSON_hides_authenticate (c : ICredentialType) :
  c_authenticate (toJSON c) <> Some AuthFunction /\
  (is_Some (c_authenticate (toJSON c)) <-> is_Some (c_authenticate c)) /\
  (forall p, c_authenticate c = Some (AuthGeneric p) ->
             c_authenticate (toJSON c) = Some (AuthGeneric p)) /\
  (c_className (toJSON c), c_name (toJSON c), c_icon (toJSON c),
   c_iconUrl (toJSON c), c_extends (toJSON c), c_toJSON (toJSON c))
  = (c_className c, c_name c, c_icon c, c_iconUrl c, c_extends c, c_toJSON c) /\
  toJSON (toJSON c) = toJSON c.
Proof.
  destruct c as [cn n i u e a t]. unfold toJSON. cbn.
  destruct a as [[| p] |]; cbn; repeat split;
    try discriminate; try (intros [x H]; eexists; reflexivity);
    try (intros [x H]; discriminate H); try (intros p' H; exact H);
    try (intros ? [= <-]; reflexivity).
Qed.

(** ** [uniqBy] *)

Lemma uniqBy_In {A K : Type} (eqb : K -> K -> bool) (key : A -> K)
    (seen : list K) (l : list A) (x : A) :
  In x (Js.uniqBy eqb key seen l) -> In x l.
Proof.
  revert seen. induction l as [| a l IH]; intros seen; simpl; [tauto |].
  destruct (existsb _ seen).
  - intros H. right. eapply IH, H.
  - intros [<- | H]; [left; reflexivity | right; eapply IH, H].
Qed.

Lemma uniqBy_unseen {A K : Type} (eqb : K -> K -> bool) (key : A -> K)
    (seen : list K) (l : list A) (x : A) :
  In x (Js.uniqBy eqb key seen l) -> existsb (eqb (key x)) seen = false.
Proof.
  revert seen. induction l as [| a l IH]; intros seen; simpl; [tauto |].
  destruct (existsb (eqb (key a)) seen) eqn:E.
  - apply IH.
  - intros [<- | H]; [exact E |].
    apply IH in H. simpl in H. apply orb_false_iff in H. apply H.
Qed.

(** No element of the result has the key of an element before it. *)
Lemma uniqBy_distinct {A K : Type} (eqb : K -> K -> bool) (key : A -> K)
    (seen : list K) (l : list A) :
  ForallOrdPairs (fun a b => eqb (key b) (key a) = false)
                 (Js.uniqBy eqb key seen l).
Proof.
  revert seen. induction l as [| a l IH]; intros seen; simpl; [constructor |].
  destruct (existsb (eqb (key a)) seen); [apply IH |].
  constructor; [| apply IH].
  apply Forall_forall. intros y Hy. apply list_elem_of_In in Hy.
  apply uniqBy_unseen in Hy. simpl in Hy. apply orb_false_iff in Hy. apply Hy.
Qed.

(** Every element of the input has its key in the result, or among the keys
    seen before. *)
Lemma uniqBy_covers {A K : Type} (eqb : K -> K -> bool) (key : A -> K)
    (seen : list K) (l : list A) (x : A) :
  (forall k, eqb k k = true) ->
  In x l ->
  existsb (eqb (key x)) seen = true \/
  exists y, In y (Js.uniqBy eqb key seen l) /\ eqb (key x) (key y) = true.
Proof.
  intros Hrefl. revert seen. induction l as [| a l IH]; intros seen; simpl; [tauto |].
  intros [-> | Hx].
  - destruct (existsb (eqb (key x)) seen) eqn:E; [left; reflexivity |].
    right. exists x. split; [left; reflexivity | apply Hrefl].
  - destruct (existsb (eqb (key a)) seen) eqn:E.
    + destruct (IH seen Hx) as [H | (y & Hy & Hk)]; [left; exact H |].
      right. exists y. split; assumption.
    + destruct (IH (key a :: seen) Hx) as [H | (y & Hy & Hk)].
      * simpl in H. apply orb_true_iff in H as [H | H].
        -- right. exists a. split; [left; reflexivity | exact H].
        -- left. exact H.
      * right. exists y. split; [right; exact Hy | exact Hk].
Qed.

Lemma ForallOrdPairs_NoDup_names (l : list INodeCredentialDescription) :
  ForallOrdPairs (fun a b => String.eqb (cd_name b) (cd_name a) = false) l ->
  NoDup (map cd_name l).
Proof.
  induction 1 as [| a l Ha Hl IH]; simpl; constructor; [| exact IH].
  intros Hin. apply list_elem_of_In, in_map_iff in Hin as (b & Hb & Hin).
  rewrite Forall_forall in Ha. apply list_elem_of_In, Ha in Hin.
  rewrite Hb, String.eqb_refl in Hin. discriminate.
Qed.

(** ** The credentials of a node *)

(** For a versioned node [getCredentialsForNode] returns credentials the
    variants declare, each name once, and every declared name; so the node is
    pushed once to the array of a credential it declares. A bare node gives
    its declared list as it is, or none. *)
Theorem getCredentialsForNode_versioned_names_once (v : IVersionedNodeType) :
  NoDup (map cd_name (getCredentialsForNode (Versioned v))) /\
  (forall cd, In cd (getCredentialsForNode (Versioned v)) ->
              In cd (declaredByVariants v)) /\
  (forall name, In name (map cd_name (declaredByVariants v)) <->
                In name (map cd_name (getCredentialsForNode (Versioned v)))) /\
  (forall c, length (declarations c (Versioned v)) <= 1) /\
  (forall n, getCredentialsForNode (Bare n)
             = default [] (d_credentials (n_description n))).
Proof.
  assert (Hnd : NoDup (map cd_name (getCredentialsForNode (Versioned v)))).
  { apply ForallOrdPairs_NoDup_names. apply uniqBy_distinct. }
  split; [exact Hnd |].
  split; [intros cd; apply uniqBy_In |].
  split.
  - intros name. split.
    + intros H. apply in_map_iff in H as (cd & <- & Hcd).
      destruct (uniqBy_covers String.eqb cd_name [] (declaredByVariants v) cd
                  String.eqb_refl Hcd) as [H | (y & Hy & Hk)]; [discriminate H |].
      apply String.eqb_eq in Hk. rewrite Hk. apply in_map. exact Hy.
    + intros H. apply in_map_iff in H as (cd & <- & Hcd).
      apply in_map. eapply uniqBy_In, Hcd.
  - split; [| reflexivity].
    intros c. unfold declarations. rewrite length_map.
    revert Hnd. generalize (getCredentialsForNode (Versioned v)).
    induction l as [| cd l IH]; simpl; [lia |].
    intros Hnd. apply NoDup_cons in Hnd as [Hnotin Hnd].
    destruct (String.eqb (cd_name cd) c) eqn:E; [| apply IH, Hnd].
    apply String.eqb_eq in E. subst c. simpl.
    assert (Hnil : List.filter (fun cd0 => String.eqb (cd_name cd0) (cd_name cd)) l = []).
    { clear -Hnotin. induction l as [| b l IH]; simpl; [reflexivity |].
      destruct (String.eqb (cd_name b) (cd_name cd)) eqn:E.
      - exfalso. apply Hnotin. apply String.eqb_eq in E. rewrite <- E. simpl.
        apply list_elem_of_here.
      - apply IH. intros H. apply Hnotin. simpl. apply list_elem_of_further, H. }
    rewrite Hnil. simpl. lia.
Qed.

(** ** The variants of a versioned node *)

Lemma versionKey_eqb_refl (k : list Q) : versionKey_eqb k k = true.
Proof.
  induction k as [| q k IH]; simpl; [reflexivity |].
  rewrite IH, andb_true_r. apply Qeq_bool_iff. reflexivity.
Qed.

Lemma uniqBy_length {A K : Type} (eqb : K -> K -> bool) (key : A -> K)
    (seen : list K) (l : list A) :
  length (Js.uniqBy eqb key seen l) <= length l.
Proof.
  revert seen. induction l as [| a l IH]; intros seen; simpl; [lia |].
  destruct (existsb _ seen); [specialize (IH seen) | specialize (IH (key a :: seen))];
    simpl; lia.
Qed.

Lemma renameVersions_In (v : IVersionedNodeType) (n : INodeType) :
  In n (map snd (renameVersions v)) ->
  exists k n0, In (k, n0) (vn_nodeVersions v) /\
    versionKey n = versionKey n0 /\
    d_name (n_description n) = bd_name (vn_description v) /\
    d_codex (n_description n) = bd_codex (vn_description v) /\
    (d_icon (n_description n), d_iconUrl (n_description n),
     d_credentials (n_description n), d_loadOptionsMethods (n_description n),
     n_className n, n_loadOptions n, n_executeSingle n)
    = (d_icon (n_description n0), d_iconUrl (n_description n0),
       d_credentials (n_description n0), d_loadOptionsMethods (n_description n0),
       n_className n0, n_loadOptions n0, n_executeSingle n0).
Proof.
  unfold renameVersions. rewrite map_map. intros H.
  apply in_map_iff in H as ([k n0] & <- & Hin).
  exists k, n0. split; [exact Hin |]. repeat split.
Qed.

Lemma getVersionedNodeTypeAll_In (v : IVersionedNodeType) (n : INodeType) :
  In n (getVersionedNodeTypeAll (Versioned v)) -> In n (map snd (renameVersions v)).
Proof. intros Hn. apply uniqBy_In, in_rev in Hn. exact Hn. Qed.

Lemma getVersionedNodeTypeAll_length (v : IVersionedNodeType) :
  length (getVersionedNodeTypeAll (Versioned v)) <= length (vn_nodeVersions v).
Proof.
  unfold getVersionedNodeTypeAll.
  etransitivity; [apply uniqBy_length |].
  rewrite length_rev, length_map. unfold renameVersions. rewrite length_map. lia.
Qed.

(** [getVersionedNodeTypeAll] of a versioned node returns variants of the
    node, each under the name and with the codex of the node and otherwise as
    it was, no two with the same version key, and one for every version key
    among the variants; of a bare node it returns the node alone. *)
Theorem getVersionedNodeTypeAll_variants (v : IVersionedNodeType) :
  (forall n, In n (getVersionedNodeTypeAll (Versioned v)) ->
     exists k n0, In (k, n0) (vn_nodeVersions v) /\
       versionKey n = versionKey n0 /\
       d_name (n_description n) = bd_name (vn_description v) /\
       d_codex (n_description n) = bd_codex (vn_description v) /\
       (d_icon (n_description n), d_iconUrl (n_description n),
        d_credentials (n_description n), d_loadOptionsMethods (n_description n),
        n_className n, n_loadOptions n, n_executeSingle n)
       = (d_icon (n_description n0), d_iconUrl (n_description n0),
          d_credentials (n_description n0), d_loadOptionsMethods (n_description n0),
          n_className n0, n_loadOptions n0, n_executeSingle n0)) /\
  ForallOrdPairs (fun a b => versionKey_eqb (versionKey b) (versionKey a) = false)
                 (getVersionedNodeTypeAll (Versioned v)) /\
  (forall k n0, In (k, n0) (vn_nodeVersions v) ->
     exists n, In n (getVersionedNodeTypeAll (Versioned v)) /\
               versionKey_eqb (versionKey n0) (versionKey n) = true) /\
  length (getVersionedNodeTypeAll (Versioned v)) <= length (vn_nodeVersions v) /\
  (forall n, getVersionedNodeTypeAll (Bare n) = [n]).
Proof.
  split.
  { intros n Hn. apply renameVersions_In, getVersionedNodeTypeAll_In, Hn. }
  split; [apply uniqBy_distinct |].
  split.
  { intros k n0 Hin.
    assert (Hren : exists n, In n (map snd (renameVersions v)) /\
                             versionKey n = versionKey n0).
    { unfold renameVersions. rewrite map_map.
      eexists. split; [apply in_map_iff; exists (k, n0); split; [reflexivity | exact Hin] |].
      reflexivity. }
    destruct Hren as (n & Hn & Hk). apply in_rev in Hn.
    destruct (uniqBy_covers versionKey_eqb versionKey []
                (rev (map snd (renameVersions v))) n versionKey_eqb_refl Hn)
      as [H | (y & Hy & Hky)]; [discriminate H |].
    exists y. split; [exact Hy |]. rewrite <- Hk. exact Hky. }
  split; [apply getVersionedNodeTypeAll_length | reflexivity].
Qed.

(** ** Codex *)

(** [getCodex] returns the content of the file [filePath + "on"], resolved
    against the directory of the loader, when the file can be required and
    has [resources]; it throws otherwise. *)
Theorem getCodex_reads_sidecar (w : World) (cfg : Config) (filePath : string)
    (c : CodexData) :
  getCodex w cfg filePath = Some c <->
  requireCodex w (resolvePath w cfg (filePath +:+ "on")) = Some c /\
  is_Some (resources c).
Proof.
  unfold getCodex.
  destruct (requireCodex w _) as [file |] eqn:E.
  - destruct file as [cat sub res al]. cbn. destruct res as [r |].
    + split.
      * intros [= <-]. split; [reflexivity | eexists; reflexivity].
      * intros [[= <-] _]. reflexivity.
    + split; [discriminate |]. intros [[= <-] [r Hr]]. discriminate Hr.
  - split; [discriminate | intros [H _]; discriminate H].
Qed.

(** Under the namespace [CUSTOM], [addCodex] leaves a codex whose categories
    are those of the codex file, if it can be read, followed by the
    custom-nodes category; the codex the node declares itself is not looked
    at. *)
Theorem addCodex_custom (w : World) (cfg : Config) (nodeCodex : option CodexData)
    (filePath : string) :
  packageName cfg = "CUSTOM" ->
  exists c,
    addCodex w cfg nodeCodex filePath = Some c /\
    categories c
    = Some (default [] (getCodex w cfg filePath ≫= categories)
            ++ [CUSTOM_NODES_CATEGORY]) /\
    (subcategories c, resources c, alias c)
    = match getCodex w cfg filePath with
      | Some file => (subcategories file, resources file, alias file)
      | None => (None, None, None)
      end.
Proof.
  intros Hp. unfold addCodex. rewrite Hp. cbn [String.eqb].
  change (String.eqb "CUSTOM" "CUSTOM") with true. cbv iota.
  destruct (getCodex w cfg filePath) as [file |].
  - eexists. split; [reflexivity |]. cbn. split; [| reflexivity].
    destruct (categories file); reflexivity.
  - eexists. split; [reflexivity |]. cbn. split; reflexivity.
Qed.

(** Under any other namespace [addCodex] keeps the codex the node declares
    and reads no file; a node that declares none gets the codex of its codex
    file, and stays without one when the file cannot be read. *)
Theorem addCodex_package (w : World) (cfg : Config) (filePath : string) :
  packageName cfg <> "CUSTOM" ->
  (forall c, addCodex w cfg (Some c) filePath = Some c) /\
  addCodex w cfg None filePath = getCodex w cfg filePath.
Proof.
  intros Hp. apply String.eqb_neq in Hp. unfold addCodex. rewrite Hp.
  split; [reflexivity |].
  destruct (getCodex w cfg filePath); reflexivity.
Qed.

(** ** Icons *)

(** [fixIconPaths] leaves an object without icon, or with a string icon that
    does not start with ["file:"], as it is; and applied to its own result,
    for whatever file, it changes nothing. *)
Theorem fixIconPaths_idempotent {A : Type} `{IconicLaws A} (cfg : Config)
    (obj : A) (filePath filePath' : string) :
  (getIcon obj = None -> fixIconPaths cfg obj filePath = obj) /\
  (forall icon, getIcon obj = Some (Plain icon) ->
     Js.startsWith icon "file:" = false -> fixIconPaths cfg obj filePath = obj) /\
  fixIconPaths cfg (fixIconPaths cfg obj filePath) filePath'
  = fixIconPaths cfg obj filePath.
Proof.
  split; [intros Hn; unfold fixIconPaths; rewrite Hn; reflexivity |].
  split.
  { intros icon Hi Hs. unfold fixIconPaths. rewrite Hi, Hs.
    destruct (String.eqb icon ""); reflexivity. }
  assert (Hc : (forall p, fixIconPaths cfg obj p = obj) \/
               getIcon (fixIconPaths cfg obj filePath) = None).
  { unfold fixIconPaths.
    destruct (getIcon obj) as [[icon | light dark] |] eqn:Hi.
    - destruct (String.eqb icon ""); [left; reflexivity |].
      destruct (Js.startsWith icon "file:"); [| left; reflexivity].
      right. apply getIcon_rewritten.
    - destruct (Js.startsWith light "file:" && Js.startsWith dark "file:");
        [| left; reflexivity].
      right. apply getIcon_rewritten.
    - left. reflexivity. }
  destruct Hc as [Hc | Hc].
  - rewrite !Hc. reflexivity.
  - unfold fixIconPaths at 1. rewrite Hc. reflexivity.
Qed.

(** ** One file at a time *)

Lemma loadNodeFromFile_logs_call (w : World) (cfg : Config) (filePath : string)
    (s : Runtime) :
  resolverCalls (fst (loadNodeFromFile w cfg filePath s))
  = resolverCalls s ++ [resolverCall w cfg filePath].
Proof.
  unfold loadNodeFromFile, loadClass, bind.
  destruct (loadNodeClass w _ _) as [t | | msg]; [| reflexivity | reflexivity].
  cbn [fst snd]. destruct (accepts _ _); [| reflexivity].
  destruct (prepareNode _ _ _ _) as [[t' v] | e]; reflexivity.
Qed.

Lemma loadCredentialFromFile_logs_call (w : World) (cfg : Config)
    (filePath : string) (s : Runtime) :
  resolverCalls (fst (loadCredentialFromFile w cfg filePath s))
  = resolverCalls s ++ [resolverCall w cfg filePath].
Proof.
  unfold loadCredentialFromFile, loadClass, bind.
  destruct (loadCredentialClass w _ _); reflexivity.
Qed.


(** [loadCredentialFromFile] calls the class loader once and throws only what
    [loadClass] throws, with the fields of the loader as they were. A
    credential it loads is registered whatever the include and exclude lists
    say: under its name, with the path as given, the class name, [extends],
    the array [nodesByCredential] holds for the name at that moment, the
    serializer attached and the icon path fixed; the entries of other names
    stay. *)
Theorem loadCredentialFromFile_registers (w : World) (cfg : Config)
    (filePath : string) (s : Runtime) :
  resolverCalls (fst (loadCredentialFromFile w cfg filePath s))
    = resolverCalls s ++ [resolverCall w cfg filePath] /\
  (forall e, snd (loadCredentialFromFile w cfg filePath s) = Threw e ->
     ldr (fst (loadCredentialFromFile w cfg filePath s)) = ldr s /\
     (e = ClassNotFound (classNameOf filePath) \/ exists msg, e = Rethrown msg)) /\
  (forall c,
     loadCredentialClass w (resolvePath w cfg filePath) (classNameOf filePath)
       = Instance c ->
     let l' := ldr (fst (loadCredentialFromFile w cfg filePath s)) in
     let r := registeredCredential cfg c filePath in
     snd (loadCredentialFromFile w cfg filePath s) = Done tt /\
     c_name r = c_name c /\ c_toJSON r = true /\
     k_credentials (known l') !! c_name c
       = Some {| kc_className := c_className c; kc_sourcePath := filePath;
                 kc_extends := c_extends c;
                 kc_supportedNodes :=
                   ArrAt <$> nodesByCredential (ldr s) !! c_name c |} /\
     credentialTypes l' !! c_name c
       = Some {| lc_type := r; lc_sourcePath := filePath |} /\
     t_credentials (types l') = t_credentials (types (ldr s)) ++ [r] /\
     (forall other, other <> c_name c ->
        k_credentials (known l') !! other = k_credentials (known (ldr s)) !! other /\
        credentialTypes l' !! other = credentialTypes (ldr s) !! other) /\
     (isLazyLoaded l', loadedNodes l', nodeTypes l', k_nodes (known l'),
      t_nodes (types l'), nodesByCredential l', arrays l')
     = (isLazyLoaded (ldr s), loadedNodes (ldr s), nodeTypes (ldr s),
        k_nodes (known (ldr s)), t_nodes (types (ldr s)),
        nodesByCredential (ldr s), arrays (ldr s))).
Proof.
  unfold loadCredentialFromFile, loadClass, bind.
  destruct (loadCredentialClass w _ _) as [c | | msg]; cbn [fst snd ldr resolverCalls].
  - split; [reflexivity |]. split; [discriminate |].
    intros c' [= <-]. cbv zeta.
    assert (Hn : c_name (registeredCredential cfg c filePath) = c_name c).
    { unfold registeredCredential, fixIconPaths. repeat case_match; reflexivity. }
    assert (Ht : c_toJSON (registeredCredential cfg c filePath) = true).
    { unfold registeredCredential, fixIconPaths. repeat case_match; reflexivity. }
    fold (registeredCredential cfg c filePath).
    unfold modify. cbn [fst snd ldr].
    cbn [known k_credentials credentialTypes types t_credentials t_nodes k_nodes
         set_types_credentials set_types set_credentialTypes set_known_credentials
         set_known isLazyLoaded loadedNodes nodeTypes nodesByCredential arrays].
    rewrite Hn, !lookup_insert_eq.
    assert (He : c_extends (registeredCredential cfg c filePath) = c_extends c).
    { unfold registeredCredential, fixIconPaths. repeat case_match; reflexivity. }
    assert (Hc : c_className (registeredCredential cfg c filePath) = c_className c).
    { unfold registeredCredential, fixIconPaths. repeat case_match; reflexivity. }
    rewrite He, Hc. repeat split; try assumption.
    + rewrite lookup_insert_ne by congruence. reflexivity.
    + rewrite lookup_insert_ne by congruence. reflexivity.
  - split; [reflexivity |]. split; [| discriminate].
    intros e [= <-]. split; [reflexivity | left; reflexivity].
  - split; [reflexivity |]. split; [| discriminate].
    intros e [= <-]. split; [reflexivity | right; eexists; reflexivity].
Qed.

(** ** The calls of the class loader *)

Lemma forEach_log {A : Type} (body : A -> M unit) (call : A -> string * string)
    (files : list A) (s : Runtime) :
  (forall a s0, resolverCalls (fst (body a s0)) = resolverCalls s0 ++ [call a]) ->
  match snd (forEach body files s) with
  | Done _ =>
      resolverCalls (fst (forEach body files s))
      = resolverCalls s ++ map call files
  | Threw _ =>
      exists pre a post,
        files = pre ++ a :: post /\
        resolverCalls (fst (forEach body files s))
        = resolverCalls s ++ map call (pre ++ [a])
  end.
Proof.
  intros Hb. revert s. induction files as [| a files IH]; intros s; simpl.
  - rewrite app_nil_r. reflexivity.
  - unfold bind. specialize (Hb a s).
    destruct (body a s) as [s1 [[] | e]]; cbn [fst snd] in *.
    + specialize (IH s1).
      destruct (snd (forEach body files s1)).
      * rewrite IH, Hb, <- app_assoc. reflexivity.
      * destruct IH as (pre & a' & post & -> & IH).
        exists (a :: pre), a', post. split; [reflexivity |].
        rewrite IH, Hb, <- app_assoc. reflexivity.
    + exists [], a, files. split; [reflexivity | exact Hb].
Qed.

(** An eager [loadAll] calls the class loader once for each file, the node
    files first and in their order, then the credential files; when it
    throws, the last call is the one for the file that failed, and no file
    after it is touched. *)
Theorem eager_loadAll_resolves_each_file_once (w : World) (cfg : Config)
    (loadAll : M unit) (nodeFiles credentialFiles : list string) (s : Runtime) :
  (loadAll = Custom_loadAll w cfg /\
   nodeFiles = glob w "**/*.node.js" (directory cfg) /\
   credentialFiles = glob w "**/*.credentials.js" (directory cfg)) \/
  (loadAll = Package_loadAll w cfg /\ nodeFiles = packageNodeFiles cfg /\
   credentialFiles = packageCredentialFiles cfg) ->
  match snd (loadAll s) with
  | Done _ =>
      resolverCalls (fst (loadAll s))
      = resolverCalls s ++ map (resolverCall w cfg) (nodeFiles ++ credentialFiles)
  | Threw _ =>
      exists pre f post,
        nodeFiles ++ credentialFiles = pre ++ f :: post /\
        resolverCalls (fst (loadAll s))
        = resolverCalls s ++ map (resolverCall w cfg) (pre ++ [f])
  end.
Proof.
  intros H.
  assert (E : loadAll s = eagerLoops w cfg nodeFiles credentialFiles s).
  { destruct H as [(-> & -> & ->) | (-> & -> & ->)];
      [reflexivity | apply Package_loadAll_loops]. }
  rewrite E. clear H E loadAll. unfold eagerLoops, bind.
  pose proof (forEach_log (loadNodeFromFile w cfg) (resolverCall w cfg) nodeFiles s
                (loadNodeFromFile_logs_call w cfg))
    as Hn.
  destruct (forEach (loadNodeFromFile w cfg) nodeFiles s) as [s1 [[] | e]];
    cbn [fst snd] in *.
  - pose proof (forEach_log (loadCredentialFromFile w cfg) (resolverCall w cfg)
                  credentialFiles s1
                  (loadCredentialFromFile_logs_call w cfg))
      as Hc.
    destruct (forEach (loadCredentialFromFile w cfg) credentialFiles s1)
      as [s2 [[] | e]]; cbn [fst snd] in *.
    + rewrite Hc, Hn. rewrite ?map_app, <- ?app_assoc. reflexivity.
    + destruct Hc as (pre & f & post & -> & Hc).
      exists (nodeFiles ++ pre), f, post. split; [rewrite app_assoc; reflexivity |].
      rewrite Hc, Hn. rewrite ?map_app, <- ?app_assoc. reflexivity.
  - destruct Hn as (pre & f & post & -> & Hn).
    exists pre, f, (post ++ credentialFiles).
    split; [rewrite <- app_assoc; reflexivity | exact Hn].
Qed.

(** ** Records that agree *)

Lemma loadCredentialFromFile_unfold (w : World) (cfg : Config) (filePath : string) :
  loadCredentialFromFile w cfg filePath
  = bind (loadClass w cfg (loadCredentialClass w) filePath)
         (fun c => modify (registerCredential cfg c filePath)).
Proof. reflexivity. Qed.

Lemma invariant_loadNodeFromFile (P : Loader -> Prop) (w : World) (cfg : Config)
    (filePath : string) :
  (forall t v p l, P l -> P (recordNode t v p l)) ->
  invariant P (loadNodeFromFile w cfg filePath).
Proof.
  intros Hr. unfold loadNodeFromFile.
  apply invariant_bind; [apply invariant_loadClass |].
  intros t. destruct (accepts _ _); [| apply invariant_ret].
  destruct (prepareNode _ _ _ _) as [[t' v] | e]; [| apply invariant_throw].
  apply invariant_modify. intros l. apply Hr.
Qed.

Lemma invariant_loadCredentialFromFile (P : Loader -> Prop) (w : World)
    (cfg : Config) (filePath : string) :
  (forall c p l, P l -> P (registerCredential cfg c p l)) ->
  invariant P (loadCredentialFromFile w cfg filePath).
Proof.
  intros Hr. rewrite loadCredentialFromFile_unfold.
  apply invariant_bind; [apply invariant_loadClass |].
  intros c. apply invariant_modify. intros l. apply Hr.
Qed.

Lemma invariant_eager (P : Loader -> Prop) (w : World) (cfg : Config) :
  (forall t v p l, P l -> P (recordNode t v p l)) ->
  (forall c p l, P l -> P (registerCredential cfg c p l)) ->
  invariant P (Custom_loadAll w cfg) /\ invariant P (Package_loadAll w cfg).
Proof.
  intros Hn Hc. split.
  - apply invariant_Custom_loadAll; intros a;
      [apply invariant_loadNodeFromFile, Hn
      | apply invariant_loadCredentialFromFile, Hc].
  - apply invariant_Package_loadAll; intros a;
      [apply invariant_loadNodeFromFile, Hn
      | apply invariant_loadCredentialFromFile, Hc].
Qed.

Lemma recordNode_fields (t : NodeClass) (v : option Q) (p : string) (l : Loader) :
  k_nodes (known (recordNode t v p l))
    = <[nodeName t := {| kn_className := nodeClassName t; kn_sourcePath := p |}]>
        (k_nodes (known l)) /\
  k_credentials (known (recordNode t v p l)) = k_credentials (known l) /\
  (exists stored,
     nodeTypes (recordNode t v p l)
       = <[nodeName t := {| ln_type := stored; ln_sourcePath := p |}]> (nodeTypes l) /\
     nodeName stored = nodeName t /\ nodeClassName stored = nodeClassName t) /\
  loadedNodes (recordNode t v p l)
    = loadedNodes l ++ [{| nv_name := nodeName t; nv_version := v |}] /\
  t_nodes (types (recordNode t v p l))
    = t_nodes (types l) ++ map n_description (getVersionedNodeTypeAll t) /\
  t_credentials (types (recordNode t v p l)) = t_credentials (types l) /\
  credentialTypes (recordNode t v p l) = credentialTypes l /\
  isLazyLoaded (recordNode t v p l) = isLazyLoaded l.
Proof.
  pose proof (recordNode_forward t v p l) as F. unfold forwardFields in F.
  cbn in F. injection F as F1 F2 F3 F4 F5 F6.
  rewrite F1, F2, F3, F4, F5, F6. cbn.
  repeat split.
  eexists. split; [reflexivity |]. destruct t; split; reflexivity.
Qed.

Lemma getVersionedNodeTypeAll_names (t : NodeClass) (n : INodeType) :
  In n (getVersionedNodeTypeAll t) -> d_name (n_description n) = nodeName t.
Proof.
  destruct t as [n0 | v].
  - intros [<- | []]. reflexivity.
  - intros H.
    destruct (renameVersions_In v n (getVersionedNodeTypeAll_In v n H))
      as (k & n0 & _ & _ & Hname & _).
    exact Hname.
Qed.

Lemma recordNode_nodesConsistent (t : NodeClass) (v : option Q) (p : string)
    (l : Loader) :
  nodesConsistent l -> nodesConsistent (recordNode t v p l).
Proof.
  intros (H1 & H2 & H3 & H4).
  destruct (recordNode_fields t v p l)
    as (Fk & _ & (stored & Fn & Fname & Fcls) & Fl & Ft & _).
  unfold nodesConsistent. rewrite Fk, Fn, Fl, Ft.
  split; [| split; [| split]].
  - intros k. rewrite !lookup_insert. case_decide as E.
    + cbn. rewrite Fcls. reflexivity.
    + apply H1.
  - intros k x. rewrite lookup_insert. case_decide as E.
    + intros [= <-]. cbn. rewrite Fname. exact E.
    + apply H2.
  - intros k. rewrite map_app, in_app_iff, lookup_insert. cbn.
    case_decide as E.
    + split; [intros _; eexists; reflexivity | intros _; right; left; exact E].
    + rewrite H3. split; [intros [H | [H | []]]; [exact H | contradiction] | tauto].
  - intros d Hd. apply in_app_iff in Hd as [Hd | Hd].
    + rewrite lookup_insert. case_decide; [eexists; reflexivity | apply H4, Hd].
    + apply in_map_iff in Hd as (n & <- & Hn).
      rewrite (getVersionedNodeTypeAll_names t n Hn), lookup_insert_eq.
      eexists; reflexivity.
Qed.

Lemma registerCredential_fields (cfg : Config) (c : ICredentialType) (p : string)
    (l : Loader) :
  (isLazyLoaded (registerCredential cfg c p l), loadedNodes (registerCredential cfg c p l),
   nodeTypes (registerCredential cfg c p l), k_nodes (known (registerCredential cfg c p l)),
   t_nodes (types (registerCredential cfg c p l)),
   nodesByCredential (registerCredential cfg c p l), arrays (registerCredential cfg c p l))
  = (isLazyLoaded l, loadedNodes l, nodeTypes l, k_nodes (known l),
     t_nodes (types l), nodesByCredential l, arrays l).
Proof. reflexivity. Qed.

Lemma registerCredential_nodesConsistent (cfg : Config) (c : ICredentialType)
    (p : string) (l : Loader) :
  nodesConsistent l -> nodesConsistent (registerCredential cfg c p l).
Proof. intros H. exact H. Qed.

(** The records of the nodes agree on a fresh loader and after [reset()],
    and an eager [loadAll] keeps them so, however it ends: [known.nodes],
    [nodeTypes], [loadedNodes] and [types.nodes] speak of the same nodes,
    under the same paths and class names. *)
Theorem eager_loadAll_keeps_nodes_consistent (w : World) (cfg : Config) :
  nodesConsistent new_loader /\
  (forall l, nodesConsistent (reset l)) /\
  invariant nodesConsistent (Custom_loadAll w cfg) /\
  invariant nodesConsistent (Package_loadAll w cfg).
Proof.
  assert (H0 : forall l, nodesConsistent (reset l)).
  { intros l. unfold nodesConsistent, reset. cbn.
    split; [intros k; rewrite !lookup_empty; reflexivity |].
    split; [intros k x; rewrite lookup_empty; discriminate |].
    split; [intros k; rewrite lookup_empty; split; [tauto | intros [x Hx]; discriminate] |].
    tauto. }
  split; [exact (H0 new_loader) |]. split; [exact H0 |].
  apply invariant_eager.
  - intros t v p l. apply recordNode_nodesConsistent.
  - intros c p l. apply registerCredential_nodesConsistent.
Qed.

Lemma registeredCredential_fields (cfg : Config) (c : ICredentialType) (p : string) :
  c_name (registeredCredential cfg c p) = c_name c /\
  c_className (registeredCredential cfg c p) = c_className c /\
  c_extends (registeredCredential cfg c p) = c_extends c /\
  c_authenticate (registeredCredential cfg c p) = c_authenticate c /\
  c_toJSON (registeredCredential cfg c p) = true.
Proof.
  unfold registeredCredential, fixIconPaths. repeat case_match; repeat split.
Qed.

Lemma registerCredential_credentialsConsistent (cfg : Config) (c : ICredentialType)
    (p : string) (l : Loader) :
  credentialsConsistent l -> credentialsConsistent (registerCredential cfg c p l).
Proof.
  intros (H1 & H2 & H3).
  destruct (registeredCredential_fields cfg c p) as (Fn & Fc & Fe & _ & Ft).
  unfold credentialsConsistent, registerCredential.
  cbn [known k_credentials credentialTypes types t_credentials
       set_types_credentials set_types set_credentialTypes set_known_credentials
       set_known].
  split; [| split].
  - intros c0. rewrite !lookup_insert. case_decide as E; [reflexivity | apply H1].
  - intros c0 x. rewrite lookup_insert. case_decide as E.
    + intros [= <-]. cbn. split; [exact E | exact Ft].
    + apply H2.
  - intros cred Hin. apply in_app_iff in Hin as [Hin | [<- | []]].
    + destruct (H3 cred Hin) as [Ht Hs]. split; [exact Ht |].
      rewrite lookup_insert. case_decide; [eexists; reflexivity | exact Hs].
    + split; [exact Ft |]. rewrite lookup_insert_eq. eexists; reflexivity.
Qed.

Lemma recordNode_credentialsConsistent (t : NodeClass) (v : option Q) (p : string)
    (l : Loader) :
  credentialsConsistent l -> credentialsConsistent (recordNode t v p l).
Proof.
  destruct (recordNode_fields t v p l) as (_ & Fk & _ & _ & _ & Ft & Fc & _).
  unfold credentialsConsistent. rewrite Fk, Ft, Fc. tauto.
Qed.

(** The records of the credentials agree on a fresh loader and after
    [reset()], and an eager [loadAll] keeps them so, however it ends:
    [known.credentials] and [credentialTypes] speak of the same credentials,
    under the same paths, class names and [extends], and every credential of
    [credentialTypes] and [types.credentials] carries the serializer
    [toJSON]. *)
Theorem eager_loadAll_keeps_credentials_consistent (w : World) (cfg : Config) :
  credentialsConsistent new_loader /\
  (forall l, credentialsConsistent (reset l)) /\
  invariant credentialsConsistent (Custom_loadAll w cfg) /\
  invariant credentialsConsistent (Package_loadAll w cfg).
Proof.
  assert (H0 : forall l, credentialsConsistent (reset l)).
  { intros l. unfold credentialsConsistent, reset. cbn.
    split; [intros c; rewrite !lookup_empty; reflexivity |].
    split; [intros c x; rewrite lookup_empty; discriminate | tauto]. }
  split; [exact (H0 new_loader) |]. split; [exact H0 |].
  apply invariant_eager.
  - intros t v p l. apply recordNode_credentialsConsistent.
  - intros c p l. apply registerCredential_credentialsConsistent.
Qed.

(** ** The reverse index *)

Lemma storeWellFormed_nodesOf (l : Loader) (c : string) :
  storeWellFormed l -> is_Some (nodesByCredential l !! c) -> is_Some (nodesOf l c).
Proof.
  intros [Hrange _] [loc Hloc]. unfold nodesOf. rewrite Hloc. cbn.
  apply lookup_lt_is_Some. eapply Hrange, Hloc.
Qed.

Lemma view_nodesByCredential (l : Loader) (c : string) :
  r_nodesByCredential (view l) !! c = nodesOf l c.
Proof. unfold view, nodesOf. cbn. apply lookup_omap. Qed.

Lemma recordNode_reverseIndexSound (t : NodeClass) (v : option Q) (p : string)
    (l : Loader) :
  reverseIndexSound l -> reverseIndexSound (recordNode t v p l).
Proof.
  intros (Hwf & _ & Hs).
  destruct (recordNode_nodesOf t v p l Hwf) as [Hwf' Hof].
  destruct (recordNode_fields t v p l) as (_ & _ & (stored & Fn & _) & _).
  split; [exact Hwf' |]. split; [intros c; apply storeWellFormed_nodesOf, Hwf' |].
  intros c xs. rewrite Hof, Fn. unfold declarations.
  destruct (map _ _) as [| d ds] eqn:Ed; cbn [pushed].
  - intros Hxs. destruct (Hs c xs Hxs) as [Hne Hreg]. split; [exact Hne |].
    intros x Hx. rewrite lookup_insert. case_decide; [eexists; reflexivity |].
    apply Hreg, Hx.
  - intros [= <-]. split; [destruct (default [] (nodesOf l c)); discriminate |].
    intros x Hx. rewrite lookup_insert. case_decide as E; [eexists; reflexivity |].
    apply in_app_iff in Hx as [Hx | Hx].
    + destruct (nodesOf l c) as [ys |] eqn:Ey; [| destruct Hx].
      apply (proj2 (Hs c ys Ey)), Hx.
    + exfalso. apply E. rewrite <- Ed in Hx.
      apply in_map_iff in Hx as (cd & <- & _). reflexivity.
Qed.

Lemma registerCredential_reverseIndexSound (cfg : Config) (c : ICredentialType)
    (p : string) (l : Loader) :
  reverseIndexSound l -> reverseIndexSound (registerCredential cfg c p l).
Proof. intros H. exact H. Qed.

(** The reverse index is sound on a fresh loader, and an eager [loadAll]
    keeps it so, however it ends: every entry of [nodesByCredential] has an
    array of its own, which is not empty and names nodes of [nodeTypes]
    only. *)
Theorem eager_loadAll_keeps_reverse_index_sound (w : World) (cfg : Config) :
  reverseIndexSound new_loader /\
  invariant reverseIndexSound (Custom_loadAll w cfg) /\
  invariant reverseIndexSound (Package_loadAll w cfg) /\
  (forall l c xs,
     reverseIndexSound l -> r_nodesByCredential (view l) !! c = Some xs ->
     xs <> [] /\ forall x, In x xs -> is_Some (nodeTypes l !! x)).
Proof.
  split.
  { split; [split; cbn; intros *; rewrite lookup_empty; discriminate |].
    split; [intros c [x Hx]; cbn in Hx; rewrite lookup_empty in Hx; discriminate |].
    intros c xs Hx. unfold nodesOf in Hx. cbn in Hx. rewrite lookup_empty in Hx.
    discriminate. }
  destruct (invariant_eager reverseIndexSound w cfg) as [Hc Hp].
  - intros t v p l. apply recordNode_reverseIndexSound.
  - intros c p l. apply registerCredential_reverseIndexSound.
  - split; [exact Hc |]. split; [exact Hp |].
    intros l c xs (_ & _ & Hs). rewrite view_nodesByCredential. apply Hs.
Qed.

(** ** Versioned nodes *)

Lemma updateVersion_length (key : Q) (g : INodeType -> INodeType)
    (vs : list (Q * INodeType)) :
  length (updateVersion key g vs) = length vs.
Proof.
  induction vs as [| [k n] vs IH]; simpl; [reflexivity |].
  destruct (Qeq_bool k key); simpl; [reflexivity | rewrite IH; reflexivity].
Qed.

Lemma prepareNode_versioned (w : World) (cfg : Config) (v : IVersionedNodeType)
    (p : string) :
  match lookupVersion (vn_currentVersion v) (vn_nodeVersions v) with
  | None => prepareNode w cfg (Versioned v) p = Threw TypeError
  | Some cur =>
      if n_executeSingle cur then
        prepareNode w cfg (Versioned v) p
        = Threw (ExecuteSingleRemoved
                   (packageName cfg +:+ "." +:+ bd_name (vn_description v)))
      else
        exists v',
          prepareNode w cfg (Versioned v) p
          = Done (Versioned v', Some (vn_currentVersion v)) /\
          bd_name (vn_description v') = bd_name (vn_description v) /\
          vn_className v' = vn_className v /\
          length (vn_nodeVersions v') = length (vn_nodeVersions v)
  end.
Proof.
  unfold prepareNode.
  cbn [vn_currentVersion vn_nodeVersions set_vn_description vn_description].
  rewrite (lookupVersion_map _ addLoadOptionsMethods).
  rewrite (lookupVersion_map _
             (fun n => set_n_description (fixIconPaths cfg (n_description n) p) n)).
  destruct (lookupVersion _ _) as [cur |]; cbn [fmap option_fmap option_map];
    [| reflexivity].
  rewrite (proj2 (proj2 (proj2 (addLoadOptionsMethods_fields _)))).
  cbn [n_executeSingle set_n_description].
  destruct (n_executeSingle cur).
  - rewrite fixIconPaths_bd_name. reflexivity.
  - eexists. split; [reflexivity |].
    cbn [vn_description set_vn_nodeVersions set_vn_description vn_className
         vn_nodeVersions].
    split; [apply fixIconPaths_bd_name |]. split; [reflexivity |].
    rewrite updateVersion_length, !length_map. reflexivity.
Qed.

(** A versioned node that passes the filter is recorded once, whatever the
    number of its variants, with its current version in [loadedNodes], and
    with descriptors in [types.nodes] that all bear its name, one per variant
    at most; when [currentVersion] names none of its variants, loading it
    throws a [TypeError] and records nothing. *)
Theorem loadNodeFromFile_versioned (w : World) (cfg : Config) (filePath : string)
    (s : Runtime) (v : IVersionedNodeType) :
  loadNodeClass w (resolvePath w cfg filePath) (classNameOf filePath)
    = Instance (Versioned v) ->
  accepts cfg (bd_name (vn_description v)) = true ->
  let name := bd_name (vn_description v) in
  let r := loadNodeFromFile w cfg filePath s in
  (lookupVersion (vn_currentVersion v) (vn_nodeVersions v) = None ->
     r = (logCall (resolverCall w cfg filePath) s, Threw TypeError)) /\
  (forall cur,
     lookupVersion (vn_currentVersion v) (vn_nodeVersions v) = Some cur ->
     n_executeSingle cur = false ->
     snd r = Done tt /\
     loadedNodes (ldr (fst r))
       = loadedNodes (ldr s)
         ++ [{| nv_name := name; nv_version := Some (vn_currentVersion v) |}] /\
     k_nodes (known (ldr (fst r))) !! name
       = Some {| kn_className := vn_className v; kn_sourcePath := filePath |} /\
     (exists x, nodeTypes (ldr (fst r)) !! name = Some x /\
                ln_sourcePath x = filePath /\ nodeName (ln_type x) = name) /\
     (forall other, other <> name ->
        nodeTypes (ldr (fst r)) !! other = nodeTypes (ldr s) !! other /\
        k_nodes (known (ldr (fst r))) !! other = k_nodes (known (ldr s)) !! other) /\
     (exists ds,
        t_nodes (types (ldr (fst r))) = t_nodes (types (ldr s)) ++ ds /\
        length ds <= length (vn_nodeVersions v) /\
        forall d, In d ds -> d_name d = name)).
Proof.
  intros Hload Hacc name r. subst r.
  unfold loadNodeFromFile, loadClass, bind. rewrite Hload.
  cbn [addCodexNode nodeName vn_description set_vn_description set_bd_codex bd_name].
  rewrite Hacc.
  match goal with
  | |- context [prepareNode w cfg (Versioned ?v0) filePath] =>
      pose proof (prepareNode_versioned w cfg v0 filePath) as Hp
  end.
  cbn [vn_currentVersion vn_nodeVersions set_vn_description vn_description
       set_bd_codex bd_name vn_className] in Hp.
  split.
  - intros Hnone. rewrite Hnone in Hp. rewrite Hp. reflexivity.
  - intros cur Hcur Hex. rewrite Hcur, Hex in Hp.
    destruct Hp as (v' & -> & Hname & Hcls & Hlen).
    cbn [fst snd ldr modify].
    destruct (recordNode_fields (Versioned v') (Some (vn_currentVersion v))
                filePath (ldr s))
      as (Fk & _ & (stored & Fn & Fname & _) & Fl & Ft & _).
    cbn [nodeName nodeClassName] in *. rewrite Hname in *. rewrite Hcls in *.
    fold name in Fk, Fn, Fl, Fname.
    split; [reflexivity |]. split; [exact Fl |].
    split; [rewrite Fk; apply lookup_insert_eq |].
    split.
    { eexists. split; [rewrite Fn; apply lookup_insert_eq |].
      split; [reflexivity | exact Fname]. }
    split.
    { intros other Hne. rewrite Fn, Fk.
      rewrite !lookup_insert_ne by congruence. split; reflexivity. }
    eexists. split; [exact Ft |]. split.
    + rewrite length_map.
      etransitivity; [apply getVersionedNodeTypeAll_length |].
      rewrite Hlen. reflexivity.
    + intros d Hd. apply in_map_iff in Hd as (n & <- & Hn).
      rewrite (getVersionedNodeTypeAll_names _ n Hn). cbn. exact Hname.
Qed.

Lemma loadNodeFromFile_versioned_witness :
  let w := oneNodeWorld (versionedNode 1 2) in
  let r := loadNodeFromFile w Scenario.custom node1File fresh in
  snd r = Done tt /\
  loadedNodes (ldr (fst r)) = [{| nv_name := "node1"; nv_version := Some 2%Q |}].
Proof.
  intros w r.
  destruct (loadNodeFromFile_versioned w Scenario.custom node1File fresh
              {| vn_className := "Node1";
                 vn_description := {| bd_name := "node1"; bd_icon := None;
                                      bd_iconUrl := None; bd_codex := None |};
                 vn_nodeVersions :=
                   map (fun k : Q =>
                          (k, {| n_className := "Node1V";
                                 n_description := plainDescription "node1" (VSingle k);
                                 n_loadOptions := None;
                                 n_executeSingle := Qeq_bool k 1 |}))
                       [1%Q; 2%Q];
                 vn_currentVersion := 2 |})
    as [_ H]; [reflexivity | reflexivity |].
  destruct (H {| n_className := "Node1V";
                 n_description := plainDescription "node1" (VSingle 2);
                 n_loadOptions := None;
                 n_executeSingle := false |}) as (H1 & H2 & _);
    [reflexivity | reflexivity |].
  split; [exact H1 | exact H2].
Defined.

(** ** The lazy loader on readable manifests *)

Lemma allowedNodes_lookup (kn : gmap string LoadingDetails) (incl : list string)
    (acc : gmap string LoadingDetails) (k : string) :
  fold_left (fun (allowed : gmap string LoadingDetails) nodeName =>
               match kn !! nodeName with
               | Some details => <[nodeName := details]> allowed
               | None => allowed
               end) incl acc !! k
  = match (if Js.includes incl k then kn !! k else None) with
    | Some d => Some d
    | None => acc !! k
    end.
Proof.
  revert acc. unfold Js.includes.
  induction incl as [| n incl IH]; intros acc; simpl; [reflexivity |].
  rewrite IH. destruct (String.eqb k n) eqn:E; simpl.
  - apply String.eqb_eq in E. subst n.
    destruct (existsb (String.eqb k) incl); destruct (kn !! k) eqn:Ek;
      try reflexivity; rewrite ?lookup_insert_eq; reflexivity.
  - apply String.eqb_neq in E.
    destruct (if existsb (String.eqb k) incl then kn !! k else None);
      [reflexivity |].
    destruct (kn !! n); [rewrite lookup_insert_ne by congruence |]; reflexivity.
Qed.

Lemma deletedNodes_lookup (excl : list string) (m : gmap string LoadingDetails)
    (k : string) :
  fold_left (fun (nodes : gmap string LoadingDetails) nodeName =>
               delete nodeName nodes) excl m !! k
  = if Js.includes excl k then None else m !! k.
Proof.
  revert m. unfold Js.includes.
  induction excl as [| n excl IH]; intros m; simpl; [reflexivity |].
  rewrite IH. destruct (String.eqb k n) eqn:E; simpl.
  - apply String.eqb_eq in E. subst n.
    rewrite lookup_delete_eq. destruct (existsb _ excl); reflexivity.
  - apply String.eqb_neq in E. rewrite lookup_delete_ne by congruence. reflexivity.
Qed.

Lemma filter_twice {A : Type} (f g : A -> bool) (l : list A) :
  List.filter g (List.filter f l) = List.filter (fun x => f x && g x) l.
Proof.
  induction l as [| a l IH]; simpl; [reflexivity |].
  destruct (f a); simpl; [destruct (g a); rewrite IH; reflexivity | exact IH].
Qed.

Lemma filter_all {A : Type} (f : A -> bool) (l : list A) :
  (forall x, f x = true) -> List.filter f l = l.
Proof.
  intros H. induction l as [| a l IH]; simpl; [reflexivity |].
  rewrite H, IH. reflexivity.
Qed.

(** The loader a successful lazy [loadAll] leaves. *)
Lemma Lazy_loadAll_success_state (w : World) (cfg : Config) (l : Loader)
    (kn : gmap string LoadingDetails) (kc : gmap string CredentialLoadingDetails)
    (tn : list INodeTypeDescription) (tc : list ICredentialType) :
  manifestsAre w cfg kn kc tn tc ->
  let l' := ldr (fst (run (Lazy_loadAll w cfg) l)) in
  snd (run (Lazy_loadAll w cfg) l) = Done tt /\
  isLazyLoaded l' = true /\
  k_credentials (known l') = kc /\
  t_credentials (types l') = tc /\
  (nodeTypes l', credentialTypes l', loadedNodes l', nodesByCredential l', arrays l')
  = (nodeTypes l, credentialTypes l, loadedNodes l, nodesByCredential l, arrays l) /\
  (forall k, k_nodes (known l') !! k = if lazyKeeps cfg k then kn !! k else None) /\
  t_nodes (types l') = List.filter (fun d => lazyKeeps cfg (d_name d)) tn.
Proof.
  intros (H1 & H2 & H3 & H4). cbv zeta.
  unfold run, Lazy_loadAll, try_catch, Lazy_tryBlock, readJSON.
  rewrite H1, H2, H3, H4.
  unfold bind, ret, modify. cbn [fst snd ldr].
  unfold applyExcludeNodes, applyIncludeNodes, lazyKeeps.
  destruct (includeNodes cfg) as [| i incl] eqn:Ei;
    destruct (excludeNodes cfg) as [| x excl] eqn:Ex;
    cbn [length Nat.eqb negb orb andb
         known types k_nodes k_credentials t_nodes t_credentials isLazyLoaded
         nodeTypes credentialTypes loadedNodes nodesByCredential arrays
         set_isLazyLoaded set_types_nodes set_types set_known_nodes set_known
         set_known_credentials set_types_credentials];
    do 5 (split; [reflexivity |]).
  - split; [intros k; destruct (kn !! k); reflexivity |].
    rewrite filter_all by reflexivity. reflexivity.
  - split.
    + intros k. rewrite deletedNodes_lookup.
      destruct (Js.includes (x :: excl) k); reflexivity.
    + reflexivity.
  - split.
    + intros k. rewrite allowedNodes_lookup, lookup_empty.
      destruct (Js.includes (i :: incl) k); [| reflexivity].
      rewrite andb_true_r. destruct (kn !! k); reflexivity.
    + apply filter_ext. intros d. rewrite andb_true_r. reflexivity.
  - split.
    + intros k. rewrite deletedNodes_lookup, allowedNodes_lookup, lookup_empty.
      destruct (Js.includes (x :: excl) k), (Js.includes (i :: incl) k);
        try reflexivity; destruct (kn !! k); reflexivity.
    + rewrite filter_twice. reflexivity.
Qed.

(** When the four manifests can be read, the lazy [loadAll] materializes
    nothing: [nodeTypes], [credentialTypes], [loadedNodes] and
    [nodesByCredential] stay as they were; the credentials of the registry
    are those of the manifests, whatever the include and exclude lists; the
    nodes are nodes of the manifests; and with both lists empty the registry
    is the manifests. *)
Theorem Lazy_loadAll_declares_without_loading (w : World) (cfg : Config)
    (l : Loader) (kn : gmap string LoadingDetails)
    (kc : gmap string CredentialLoadingDetails)
    (tn : list INodeTypeDescription) (tc : list ICredentialType) :
  manifestsAre w cfg kn kc tn tc ->
  let l' := ldr (fst (run (Lazy_loadAll w cfg) l)) in
  snd (run (Lazy_loadAll w cfg) l) = Done tt /\
  (nodeTypes l', credentialTypes l', loadedNodes l', nodesByCredential l', arrays l')
  = (nodeTypes l, credentialTypes l, loadedNodes l, nodesByCredential l, arrays l) /\
  k_credentials (known l') = kc /\
  t_credentials (types l') = tc /\
  (forall k d, k_nodes (known l') !! k = Some d -> kn !! k = Some d) /\
  (forall d, In d (t_nodes (types l')) -> In d tn) /\
  (includeNodes cfg = [] -> excludeNodes cfg = [] ->
   k_nodes (known l') = kn /\ t_nodes (types l') = tn).
Proof.
  intros Hm l'.
  destruct (Lazy_loadAll_success_state w cfg l kn kc tn tc Hm)
    as (Hd & _ & Hkc & Htc & Hsame & Hk & Ht).
  fold l' in Hkc, Htc, Hsame, Hk, Ht.
  split; [exact Hd |]. split; [exact Hsame |]. split; [exact Hkc |].
  split; [exact Htc |]. split; [| split].
  - intros k d. rewrite Hk. destruct (lazyKeeps cfg k); [tauto | discriminate].
  - intros d. rewrite Ht. intros Hin. apply filter_In in Hin. apply Hin.
  - intros Hi He. split.
    + apply map_eq. intros k. rewrite Hk. unfold lazyKeeps. rewrite Hi, He.
      reflexivity.
    + rewrite Ht. apply filter_all. intros d. unfold lazyKeeps. rewrite Hi, He.
      reflexivity.
Qed.

Lemma Lazy_loadAll_declares_without_loading_witness :
  let l' := ldr (fst (run (Lazy_loadAll (Manifests.world 0) Scenario.package)
                          new_loader)) in
  nodeTypes l' = ∅ /\ k_nodes (known l') = Manifests.knownNodes /\
  t_nodes (types l') = Manifests.typesNodes.
Proof.
  intros l'.
  destruct (Lazy_loadAll_declares_without_loading (Manifests.world 0)
              Scenario.package new_loader Manifests.knownNodes
              Manifests.knownCredentials Manifests.typesNodes
              Manifests.typesCredentials)
    as (_ & Hsame & _ & _ & _ & _ & Hall); [repeat split |].
  split; [exact (f_equal (fun t => fst (fst (fst (fst t)))) Hsame) |].
  apply Hall; reflexivity.
Defined.

(** When the four manifests can be read, the lazy [loadAll] filters the
    known-index and the type descriptors of the nodes alike, by the name the
    manifests give a node: the entry and the descriptors of a name stay when
    the include list is empty or holds that name and the exclude list does
    not hold it, and go otherwise. *)
Theorem Lazy_loadAll_filters_by_manifest_name (w : World) (cfg : Config)
    (l : Loader) (kn : gmap string LoadingDetails)
    (kc : gmap string CredentialLoadingDetails)
    (tn : list INodeTypeDescription) (tc : list ICredentialType) :
  manifestsAre w cfg kn kc tn tc ->
  let l' := ldr (fst (run (Lazy_loadAll w cfg) l)) in
  (forall k, k_nodes (known l') !! k = if lazyKeeps cfg k then kn !! k else None) /\
  t_nodes (types l') = List.filter (fun d => lazyKeeps cfg (d_name d)) tn /\
  (forall name,
     lazyKeeps cfg name = true <->
     (includeNodes cfg = [] \/ Js.includes (includeNodes cfg) name = true) /\
     Js.includes (excludeNodes cfg) name = false).
Proof.
  intros Hm l'.
  destruct (Lazy_loadAll_success_state w cfg l kn kc tn tc Hm)
    as (_ & _ & _ & _ & _ & Hk & Ht).
  split; [exact Hk |]. split; [exact Ht |].
  intros name. unfold lazyKeeps.
  rewrite andb_true_iff, orb_true_iff, negb_true_iff, Nat.eqb_eq.
  split; intros [[H | H] H']; split; auto.
  - left. destruct (includeNodes cfg); [reflexivity | discriminate H].
  - left. rewrite H. reflexivity.
Qed.

Lemma Lazy_loadAll_filters_by_manifest_name_witness :
  let l' := ldr (fst (run (Lazy_loadAll (Manifests.world 0) Scenario.package)
                          new_loader)) in
  t_nodes (types l')
  = List.filter (fun d => lazyKeeps Scenario.package (d_name d)) Manifests.typesNodes.
Proof.
  intros l'.
  destruct (Lazy_loadAll_filters_by_manifest_name (Manifests.world 0)
              Scenario.package new_loader Manifests.knownNodes
              Manifests.knownCredentials Manifests.typesNodes
              Manifests.typesCredentials)
    as (_ & H & _); [repeat split |].
  exact H.
Defined.

(** ** Instances of the theorems with hypotheses *)

Lemma addCodex_custom_witness :
  exists c,
    addCodex Scenario.world Scenario.custom None node1File = Some c /\
    categories c = Some [CUSTOM_NODES_CATEGORY].
Proof.
  destruct (addCodex_custom Scenario.world Scenario.custom None node1File)
    as (c & Hc & Hcat & _); [reflexivity |].
  exists c. split; [exact Hc | exact Hcat].
Defined.

Lemma addCodex_package_witness :
  addCodex Scenario.world Scenario.package None node1File
  = getCodex Scenario.world Scenario.package node1File.
Proof.
  destruct (addCodex_package Scenario.world Scenario.package node1File) as [_ H];
    [discriminate | exact H].
Defined.

Lemma fixIconPaths_idempotent_witness :
  fixIconPaths Scenario.custom
    (fixIconPaths Scenario.custom
       (Scenario.createCredential "Credential1" "credential1") "dist/Credential1.js")
    "dist/Credential1.js"
  = fixIconPaths Scenario.custom
      (Scenario.createCredential "Credential1" "credential1") "dist/Credential1.js".
Proof.
  exact (proj2 (proj2 (fixIconPaths_idempotent Scenario.custom
                         (Scenario.createCredential "Credential1" "credential1")
                         "dist/Credential1.js" "dist/Credential1.js"))).
Defined.

Lemma eager_loadAll_resolves_each_file_once_witness :
  resolverCalls (fst (Custom_loadAll Scenario.world Scenario.custom fresh))
  = map (resolverCall Scenario.world Scenario.custom)
        (["dist/Node1/Node1.node.js"; "dist/Node2/Node2.node.js"]
         ++ ["dist/Credential1.js"]).
Proof.
  exact (eager_loadAll_resolves_each_file_once Scenario.world Scenario.custom
           (Custom_loadAll Scenario.world Scenario.custom)
           ["dist/Node1/Node1.node.js"; "dist/Node2/Node2.node.js"]
           ["dist/Credential1.js"] fresh
           (or_introl (conj eq_refl (conj eq_refl eq_refl)))).
Defined.

Lemma rescan_reproduces_forward_fields_witness :
  sameForward afterCustomScan rescanned.
Proof.
  exact (proj1 (rescan_reproduces_forward_fields Scenario.world Scenario.custom
                  (Custom_loadAll Scenario.world Scenario.custom) afterCustomScan
                  (or_introl eq_refl))).
Defined.

(** ** The include and exclude lists on the eager path *)

(** After an eager [loadAll] on a fresh loader every node on record has
    passed the lists under its fully-qualified name: the include list is
    empty or holds the name, and the exclude list does not hold it, also when
    the include list holds it too. A node that does not pass is loaded by
    the class loader and then dropped without a trace in the loader. *)
Theorem eager_loadAll_respects_lists (w : World) (cfg : Config) :
  (forall loadAll k,
     loadAll = Custom_loadAll w cfg \/ loadAll = Package_loadAll w cfg ->
     is_Some (nodeTypes (ldr (fst (run loadAll new_loader))) !! k) ->
     (includeNodes cfg = [] \/
      Js.includes (includeNodes cfg) (packageName cfg +:+ "." +:+ k) = true) /\
     Js.includes (excludeNodes cfg) (packageName cfg +:+ "." +:+ k) = false) /\
  (forall filePath s t,
     loadNodeClass w (resolvePath w cfg filePath) (classNameOf filePath) = Instance t ->
     (Js.includes (excludeNodes cfg) (packageName cfg +:+ "." +:+ nodeName t) = true \/
      (includeNodes cfg <> [] /\
       Js.includes (includeNodes cfg) (packageName cfg +:+ "." +:+ nodeName t) = false)) ->
     loadNodeFromFile w cfg filePath s
     = (logCall (resolverCall w cfg filePath) s, Done tt)).
Proof.
  split.
  - intros loadAll k H Hk. apply accepts_spec.
    apply (eager_nodes_accepted w cfg loadAll H k Hk).
  - intros filePath s t Hload Hout.
    apply (loadNodeFromFile_rejected w cfg filePath s t Hload).
    destruct (accepts cfg (nodeName t)) eqn:Ha; [| reflexivity].
    apply accepts_spec in Ha as [[Hi | Hi] He].
    + destruct Hout as [Hx | [Hne _]]; [congruence | contradiction].
    + destruct Hout as [Hx | [_ Hni]]; congruence.
Qed.

(** ** Bare nodes *)

Lemma fixIconPaths_set_d_codex (cfg : Config) (c : option CodexData)
    (d : INodeTypeDescription) (p : string) :
  fixIconPaths cfg (set_d_codex c d) p = set_d_codex c (fixIconPaths cfg d p).
Proof.
  unfold fixIconPaths. cbn [getIcon Iconic_description d_icon set_d_codex].
  repeat case_match; reflexivity.
Qed.

(** A bare node that passes the filter is recorded under its name with the
    path as given and its class name; its description keeps name, version
    and credentials, gets the codex of [addCodex], the fixed icon path and
    the names of its load-options methods, and is appended to [types.nodes];
    its name is pushed to the array of a credential once for every time its
    description declares the credential. *)
Theorem loadNodeFromFile_bare_registers (w : World) (cfg : Config)
    (filePath : string) (s : Runtime) (n : INodeType) :
  loadNodeClass w (resolvePath w cfg filePath) (classNameOf filePath)
    = Instance (Bare n) ->
  accepts cfg (d_name (n_description n)) = true ->
  storeWellFormed (ldr s) ->
  let name := d_name (n_description n) in
  let n' := preparedBare w cfg n filePath in
  let r := loadNodeFromFile w cfg filePath s in
  snd r = Done tt /\
  k_nodes (known (ldr (fst r))) !! name
    = Some {| kn_className := n_className n; kn_sourcePath := filePath |} /\
  nodeTypes (ldr (fst r)) !! name
    = Some {| ln_type := Bare n'; ln_sourcePath := filePath |} /\
  t_nodes (types (ldr (fst r))) = t_nodes (types (ldr s)) ++ [n_description n'] /\
  (d_name (n_description n'), d_version (n_description n'),
   d_credentials (n_description n'), n_className n')
  = (name, d_version (n_description n), d_credentials (n_description n),
     n_className n) /\
  d_codex (n_description n') = addCodex w cfg (d_codex (n_description n)) filePath /\
  d_loadOptionsMethods (n_description n')
  = match n_loadOptions n with
    | Some keys => Some keys
    | None => d_loadOptionsMethods (n_description n)
    end /\
  (d_icon (n_description n'), d_iconUrl (n_description n'))
  = (d_icon (fixIconPaths cfg (n_description n) filePath),
     d_iconUrl (fixIconPaths cfg (n_description n) filePath)) /\
  (forall c,
     r_nodesByCredential (view (ldr (fst r))) !! c
     = pushed (r_nodesByCredential (view (ldr s)) !! c)
         (map (fun _ => name)
              (List.filter (fun cd => String.eqb (cd_name cd) c)
                           (default [] (d_credentials (n_description n)))))).
Proof.
  intros Hload Hacc Hwf name n' r.
  assert (Hfields :
    (d_name (n_description n'), d_version (n_description n'),
     d_credentials (n_description n'), n_className n')
    = (name, d_version (n_description n), d_credentials (n_description n),
       n_className n) /\
    d_codex (n_description n') = addCodex w cfg (d_codex (n_description n)) filePath /\
    d_loadOptionsMethods (n_description n')
    = match n_loadOptions n with
      | Some keys => Some keys
      | None => d_loadOptionsMethods (n_description n)
      end /\
    (d_icon (n_description n'), d_iconUrl (n_description n'))
    = (d_icon (fixIconPaths cfg (n_description n) filePath),
       d_iconUrl (fixIconPaths cfg (n_description n) filePath))).
  { subst n' name. unfold preparedBare. rewrite fixIconPaths_set_d_codex.
    unfold addLoadOptionsMethods. cbn [n_loadOptions set_n_description].
    destruct (fixIconPaths_d_fields cfg (n_description n) filePath) as (F1 & F2 & F3).
    destruct (n_loadOptions n);
      cbn [n_description set_n_description set_d_codex d_name d_version
           d_credentials d_codex d_loadOptionsMethods d_icon d_iconUrl n_className];
      rewrite F1, F2, F3.
    - repeat split.
    - repeat split. unfold fixIconPaths. repeat case_match; reflexivity. }
  assert (Er : r = ({| ldr := recordNode (Bare n')
                               (recordedVersion (n_description n)) filePath (ldr s);
                       resolverCalls := resolverCalls s
                                        ++ [resolverCall w cfg filePath] |}, Done tt)).
  { subst r. unfold loadNodeFromFile, loadClass, bind. rewrite Hload.
    cbn [addCodexNode nodeName n_description set_n_description set_d_codex d_name].
    rewrite Hacc. cbn [prepareNode]. unfold modify. cbn [ldr resolverCalls].
    assert (Hrv : recordedVersion (n_description n')
                  = recordedVersion (n_description n)).
    { unfold recordedVersion. destruct Hfields as (Hf & _).
      injection Hf as _ Hv _ _. rewrite Hv. reflexivity. }
    rewrite <- Hrv. reflexivity. }
  rewrite Er. cbn [fst snd ldr].
  destruct (recordNode_fields (Bare n') (recordedVersion (n_description n))
              filePath (ldr s)) as (Fk & _ & _ & _ & Ft & _).
  destruct (recordNode_nodesOf (Bare n') (recordedVersion (n_description n))
              filePath (ldr s) Hwf) as [_ Hof].
  destruct Hfields as (Hf & Hcodex & Hlo & Hicon).
  pose proof Hf as Hf'. injection Hf' as Hname Hver Hcred Hcls.
  cbn [nodeName nodeClassName getVersionedNodeTypeAll map] in *.
  split; [reflexivity |].
  split; [rewrite Fk, Hname, Hcls; apply lookup_insert_eq |].
  split.
  { pose proof (recordNode_forward (Bare n') (recordedVersion (n_description n))
                  filePath (ldr s)) as F.
    apply forward_nodeTypes in F. rewrite F. cbn. rewrite Hname.
    apply lookup_insert_eq. }
  split; [exact Ft |].
  split; [exact Hf |]. split; [exact Hcodex |]. split; [exact Hlo |].
  split; [exact Hicon |].
  intros c. rewrite !view_nodesByCredential, Hof.
  unfold declarations. cbn [getCredentialsForNode nodeName].
  rewrite Hcred, Hname. reflexivity.
Qed.

Lemma loadNodeFromFile_bare_registers_witness :
  let r := loadNodeFromFile Scenario.world Scenario.custom node1File fresh in
  snd r = Done tt /\
  r_nodesByCredential (view (ldr (fst r))) !! "credential1" = Some ["node1"].
Proof.
  intros r.
  destruct (loadNodeFromFile_bare_registers Scenario.world Scenario.custom
              node1File fresh
              {| n_className := "Node1";
                 n_description :=
                   {| d_name := "node1";
                      d_icon := Some (Plain "file:node1.svg");
                      d_iconUrl := None; d_version := VSingle 1;
                      d_credentials :=
                        Some [{| cd_name := "credential1"; cd_required := false |}];
                      d_codex := None; d_loadOptionsMethods := None |};
                 n_loadOptions := None; n_executeSingle := false |})
    as (H1 & _ & _ & _ & _ & _ & _ & _ & H9).
  - reflexivity.
  - reflexivity.
  - split; cbn; intros *; rewrite lookup_empty; discriminate.
  - split; [exact H1 | exact (H9 "credential1")].
Defined.

(** ** Icons of the registry *)

Lemma fixIconPaths_settled {A : Type} `{IconicLaws A} (cfg : Config) (obj : A)
    (p : string) :
  iconSettled (getIcon (fixIconPaths cfg obj p)).
Proof.
  unfold fixIconPaths.
  destruct (getIcon obj) as [[icon | light dark] |] eqn:Hi.
  - destruct (String.eqb icon "") eqn:E1.
    + apply String.eqb_eq in E1. subst icon. rewrite Hi. reflexivity.
    + destruct (Js.startsWith icon "file:") eqn:E2.
      * rewrite getIcon_rewritten. exact I.
      * rewrite Hi. exact E2.
  - destruct (Js.startsWith light "file:" && Js.startsWith dark "file:") eqn:E.
    + rewrite getIcon_rewritten. exact I.
    + rewrite Hi. exact E.
  - rewrite Hi. exact I.
Qed.

Lemma fixIconPaths_settled_description (cfg : Config) (d : INodeTypeDescription)
    (p : string) :
  iconSettled (d_icon (fixIconPaths cfg d p)).
Proof. exact (fixIconPaths_settled cfg d p). Qed.

Lemma fixIconPaths_settled_credential (cfg : Config) (c : ICredentialType)
    (p : string) :
  iconSettled (c_icon (fixIconPaths cfg c p)).
Proof. exact (fixIconPaths_settled cfg c p). Qed.

Lemma addLoadOptionsMethods_icon (n : INodeType) :
  d_icon (n_description (addLoadOptionsMethods n)) = d_icon (n_description n).
Proof. unfold addLoadOptionsMethods. destruct (n_loadOptions n); reflexivity. Qed.

Lemma updateVersion_In (key : Q) (g : INodeType -> INodeType)
    (vs : list (Q * INodeType)) (k : Q) (n : INodeType) :
  In (k, n) (updateVersion key g vs) ->
  exists n0, In (k, n0) vs /\ (n = n0 \/ n = g n0).
Proof.
  induction vs as [| [k0 n0] vs IH]; simpl; [tauto |].
  destruct (Qeq_bool k0 key).
  - intros [[= <- <-] | H].
    + exists n0. split; [left; reflexivity | right; reflexivity].
    + exists n. split; [right; exact H | left; reflexivity].
  - intros [[= <- <-] | H].
    + exists n0. split; [left; reflexivity | left; reflexivity].
    + destruct (IH H) as (n1 & H1 & H2). exists n1. split; [right; exact H1 | exact H2].
Qed.

Lemma prepareNode_settled (w : World) (cfg : Config) (t t' : NodeClass)
    (p : string) (ver : option Q) :
  prepareNode w cfg t p = Done (t', ver) ->
  forall n, In n (getVersionedNodeTypeAll t') -> iconSettled (d_icon (n_description n)).
Proof.
  destruct t as [n0 | v]; unfold prepareNode.
  - intros [= <- _] n [<- | []]. rewrite addLoadOptionsMethods_icon.
    cbn [n_description set_n_description].
    apply fixIconPaths_settled_description.
  - cbn [vn_currentVersion vn_nodeVersions set_vn_description vn_description].
    destruct (lookupVersion _ _) as [cur |]; [| discriminate].
    destruct (n_executeSingle cur); [discriminate |].
    intros [= <- _] n Hn.
    destruct (renameVersions_In _ n (getVersionedNodeTypeAll_In _ n Hn))
      as (k & n1 & Hin & _ & _ & _ & Hsame).
    injection Hsame as Hicon _ _ _ _ _ _. rewrite Hicon.
    cbn [vn_nodeVersions set_vn_nodeVersions] in Hin.
    apply updateVersion_In in Hin as (n2 & Hin & Hn2).
    assert (Hi2 : d_icon (n_description n1) = d_icon (n_description n2))
      by (destruct Hn2 as [-> | ->]; reflexivity).
    rewrite Hi2.
    apply in_map_iff in Hin as ([k3 n3] & [= _ <-] & Hin).
    cbn [snd]. rewrite addLoadOptionsMethods_icon.
    apply in_map_iff in Hin as ([k4 n4] & [= _ <-] & _).
    cbn [snd n_description set_n_description].
    apply fixIconPaths_settled_description.
Qed.

(** The icons of the registry are settled on a fresh loader, and an eager
    [loadAll] keeps them so, however it ends: no type descriptor of a node
    and no credential on record has an icon that starts with ["file:"], or a
    light/dark icon of two such strings. *)
Theorem eager_loadAll_settles_icons (w : World) (cfg : Config) :
  iconsSettled new_loader /\
  invariant iconsSettled (Custom_loadAll w cfg) /\
  invariant iconsSettled (Package_loadAll w cfg).
Proof.
  split.
  { split; [intros d [] |]. split; [intros c [] |].
    intros k x Hx. cbn in Hx. rewrite lookup_empty in Hx. discriminate. }
  assert (Hn : forall a, invariant iconsSettled (loadNodeFromFile w cfg a)).
  { intros a. unfold loadNodeFromFile.
    apply invariant_bind; [apply invariant_loadClass |].
    intros t. destruct (accepts _ _); [| apply invariant_ret].
    destruct (prepareNode _ _ _ _) as [[t' v] | e] eqn:Hp; [| apply invariant_throw].
    apply invariant_modify. intros l (H1 & H2 & H3).
    destruct (recordNode_fields t' v a l) as (_ & _ & _ & _ & Ft & Ftc & Fc & _).
    unfold iconsSettled. rewrite Ft, Ftc, Fc. split; [| split; assumption].
    intros d Hd. apply in_app_iff in Hd as [Hd | Hd]; [apply H1, Hd |].
    apply in_map_iff in Hd as (n & <- & Hin).
    apply (prepareNode_settled w cfg _ t' a v Hp n Hin). }
  assert (Hc : forall a, invariant iconsSettled (loadCredentialFromFile w cfg a)).
  { intros a. apply invariant_loadCredentialFromFile.
    intros c p l (H1 & H2 & H3).
    assert (Hr : iconSettled (c_icon (registeredCredential cfg c p))).
    { unfold registeredCredential. apply fixIconPaths_settled_credential. }
    unfold iconsSettled, registerCredential.
    cbn [known k_credentials credentialTypes types t_credentials t_nodes
         set_types_credentials set_types set_credentialTypes set_known_credentials
         set_known].
    split; [exact H1 |]. split.
    - intros c0 Hin. apply in_app_iff in Hin as [Hin | [<- | []]];
        [apply H2, Hin | exact Hr].
    - intros k x. rewrite lookup_insert. case_decide.
      + intros [= <-]. exact Hr.
      + apply H3. }
  split.
  - apply invariant_Custom_loadAll; assumption.
  - apply invariant_Package_loadAll; assumption.
Qed.

(** ** A package that lists no files *)

(** A package whose [package.json] has no [n8n] block, or lists no node file
    and no credential file in it, contributes nothing: [loadAll] returns
    without a call of the class loader and with the loader as it was. *)
Theorem Package_loadAll_without_files (w : World) (cfg : Config) (s : Runtime) :
  (pj_n8n (packageJson cfg) = None ->
   packageNodeFiles cfg = [] /\ packageCredentialFiles cfg = []) /\
  (packageNodeFiles cfg = [] -> packageCredentialFiles cfg = [] ->
   Package_loadAll w cfg s = (s, Done tt)).
Proof.
  split.
  - intros H. unfold packageNodeFiles, packageCredentialFiles. rewrite H.
    split; reflexivity.
  - intros Hn Hc. rewrite Package_loadAll_loops. unfold eagerLoops.
    rewrite Hn, Hc. reflexivity.
Qed.

(** ** The class name of a file *)

Lemma basename_scan (p : string) :
  Path.basename p
  = string_of_list_ascii
      (rev (upToSep (Path.dropTrailingSeps (rev (list_ascii_of_string p))))).
Proof. reflexivity. Qed.

Lemma parseName_scan (p : string) :
  Path.parseName p
  = if String.eqb (Path.basename p) ".." then Path.basename p
    else match afterDot (rev (list_ascii_of_string (Path.basename p))) with
         | None | Some [] => Path.basename p
         | Some before => string_of_list_ascii (rev before)
         end.
Proof. reflexivity. Qed.

Lemma list_ascii_of_string_app (a b : string) :
  list_ascii_of_string (a +:+ b) = list_ascii_of_string a ++ list_ascii_of_string b.
Proof.
  induction a as [| c a IH]; [reflexivity |].
  change (list_ascii_of_string (String c a +:+ b))
    with (c :: list_ascii_of_string (a +:+ b)).
  rewrite IH. reflexivity.
Qed.

Lemma hasSep_list (b : string) :
  hasSep b = false ->
  forall c, In c (rev (list_ascii_of_string b)) -> Ascii.eqb c Path.sep = false.
Proof.
  intros Hb c Hc. apply in_rev in Hc. revert Hb Hc.
  induction b as [| a b IH]; simpl; [tauto |].
  intros Hb [-> | Hc]; apply orb_false_iff in Hb as [Ha Hb]; auto.
Qed.

Lemma upToSep_app (l rest : list ascii) :
  (forall c, In c l -> Ascii.eqb c Path.sep = false) ->
  upToSep (l ++ rest) = l ++ upToSep rest.
Proof.
  induction l as [| c l IH]; simpl; [reflexivity |].
  intros H. rewrite (H c (or_introl eq_refl)), IH; auto.
Qed.

(** The base name of a file in a directory. *)
Lemma basename_in_directory (dir b : string) :
  hasSep b = false -> b <> EmptyString ->
  Path.basename (dir +:+ "/" +:+ b) = b /\ Path.basename b = b.
Proof.
  intros Hb Hne.
  pose proof (hasSep_list b Hb) as Hl.
  assert (Hdrop : forall rest,
            Path.dropTrailingSeps (rev (list_ascii_of_string b) ++ rest)
            = rev (list_ascii_of_string b) ++ rest).
  { intros rest.
    destruct (rev (list_ascii_of_string b)) as [| x r] eqn:E.
    - apply (f_equal (@length ascii)) in E. rewrite length_rev in E.
      destruct b; [congruence | discriminate E].
    - simpl. rewrite (Hl x (or_introl eq_refl)). reflexivity. }
  split.
  - rewrite basename_scan, !list_ascii_of_string_app, !rev_app_distr.
    rewrite <- app_assoc, Hdrop, (upToSep_app _ _ Hl).
    cbn [list_ascii_of_string rev app upToSep].
    change (Ascii.eqb "/" Path.sep) with true. cbv iota.
    rewrite app_nil_r, rev_involutive. apply string_of_list_ascii_of_string.
  - rewrite basename_scan.
    rewrite <- (app_nil_r (rev (list_ascii_of_string b))), Hdrop.
    rewrite (upToSep_app _ [] Hl). cbn [upToSep].
    rewrite app_nil_r, rev_involutive. apply string_of_list_ascii_of_string.
Qed.

Lemma string_of_list_ascii_app (a b : list ascii) :
  string_of_list_ascii (a ++ b) = string_of_list_ascii a +:+ string_of_list_ascii b.
Proof.
  induction a as [| c a IH]; [reflexivity |].
  simpl. rewrite IH. reflexivity.
Qed.

Lemma afterDot_cut (r before : list ascii) :
  afterDot r = Some before -> exists post, r = post ++ "."%char :: before.
Proof.
  induction r as [| c r IH]; simpl; [discriminate |].
  destruct (Ascii.eqb c ".") eqn:Ec.
  - intros [= ->]. apply Ascii.eqb_eq in Ec as ->. exists []. reflexivity.
  - intros H. destruct (IH H) as [post ->]. exists (c :: post). reflexivity.
Qed.

(** A text cut at one of its dots starts with the part before its first dot. *)
Lemma cut_at_dot (n r pre post : string) :
  hasDot n = false ->
  n +:+ String "." r = pre +:+ String "." post ->
  pre = n \/ exists x, pre = n +:+ String "." x.
Proof.
  intros Hn. revert pre.
  induction n as [| a n IH]; intros pre E.
  - destruct pre as [| c pre]; [left; reflexivity |].
    right. exists pre. injection E as <- _. reflexivity.
  - simpl in Hn. apply orb_false_iff in Hn as [Ha Hn].
    destruct pre as [| c pre].
    + injection E as E _. subst a. discriminate Ha.
    + injection E as <- E.
      destruct (IH Hn pre E) as [-> | [x ->]]; [left | right; exists x]; reflexivity.
Qed.

Lemma split_first (n tail : string) :
  hasDot n = false ->
  tail = EmptyString \/ (exists t, tail = String "." t) ->
  hd EmptyString (Js.split "." (n +:+ tail)) = n.
Proof.
  intros Hn Ht.
  induction n as [| c n IH].
  - destruct Ht as [-> | [t ->]]; reflexivity.
  - simpl in Hn. apply orb_false_iff in Hn as [Hc Hn].
    specialize (IH Hn).
    change (Js.split "." (String c n +:+ tail))
      with (if Ascii.eqb c "." then EmptyString :: Js.split "." (n +:+ tail)
            else match Js.split "." (n +:+ tail) with
                 | [] => [String c EmptyString]
                 | w :: ws => String c w :: ws
                 end).
    rewrite Hc.
    destruct (Js.split "." (n +:+ tail)) as [| w ws]; simpl in *; congruence.
Qed.

Lemma hasSep_app (a b : string) :
  hasSep (a +:+ b) = hasSep a || hasSep b.
Proof.
  induction a as [| c a IH]; [reflexivity |].
  change (hasSep (String c a +:+ b)) with (Ascii.eqb c Path.sep || hasSep (a +:+ b)).
  rewrite IH. simpl. apply orb_assoc.
Qed.

(** The class a file is asked for is the part of its base name before
    the first dot: for a file [<name>.<rest>], alone or in a directory,
    where [name] is not empty and has no dot and neither part has a slash,
    [classNameOf] is [name], whatever the path before it and however many
    dots [rest] has. *)
Theorem classNameOf_file (dir name rest : string) :
  name <> EmptyString -> hasDot name = false ->
  hasSep name = false -> hasSep rest = false ->
  classNameOf (dir +:+ "/" +:+ name +:+ "." +:+ rest) = name
  /\ classNameOf (name +:+ "." +:+ rest) = name.
Proof.
  intros Hne Hdot Hsn Hsr.
  set (b := name +:+ "." +:+ rest).
  assert (Hb : hasSep b = false).
  { unfold b. rewrite !hasSep_app, Hsn, Hsr. reflexivity. }
  assert (Hbne : b <> EmptyString).
  { unfold b. destruct name; [congruence | discriminate]. }
  destruct (basename_in_directory dir b Hb Hbne) as [Hd Hp].
  assert (Hparse : forall p, Path.basename p = b ->
            exists tail, Path.parseName p = name +:+ tail
                         /\ (tail = EmptyString \/ exists t, tail = String "." t)).
  { intros p Hbase. rewrite parseName_scan, Hbase.
    assert (Hwhole : exists tail, b = name +:+ tail
              /\ (tail = EmptyString \/ exists t, tail = String "." t)).
    { exists ("." +:+ rest). split; [reflexivity | right; exists rest; reflexivity]. }
    destruct (String.eqb b ".."); [exact Hwhole |].
    destruct (afterDot (rev (list_ascii_of_string b))) as [before |] eqn:Ea;
      [| exact Hwhole].
    assert (Hbefore : exists tail,
              string_of_list_ascii (rev before) = name +:+ tail
              /\ (tail = EmptyString \/ exists t, tail = String "." t)).
    { destruct (afterDot_cut _ _ Ea) as [post Hcut].
      apply (f_equal (@rev ascii)) in Hcut.
      rewrite rev_involutive, rev_app_distr in Hcut.
      change (rev ("."%char :: before)) with (rev before ++ ["."%char]) in Hcut.
      rewrite <- app_assoc in Hcut.
      apply (f_equal string_of_list_ascii) in Hcut.
      rewrite string_of_list_ascii_of_string, string_of_list_ascii_app in Hcut.
      change (string_of_list_ascii (["."%char] ++ rev post))
        with (String "." (string_of_list_ascii (rev post))) in Hcut.
      destruct (cut_at_dot name rest _ _ Hdot Hcut) as [-> | [x ->]].
      - exists EmptyString. split; [| left; reflexivity].
        clear. induction name as [| a n IH]; [reflexivity |].
        change (String a n = String a (n +:+ EmptyString)). f_equal. exact IH.
      - exists (String "." x). split; [reflexivity | right; exists x; reflexivity]. }
    destruct before as [| c before']; [exact Hwhole | exact Hbefore]. }
  unfold classNameOf. split.
  - destruct (Hparse _ Hd) as (tail & -> & Ht). apply split_first; assumption.
  - destruct (Hparse _ Hp) as (tail & -> & Ht). apply split_first; assumption.
Qed.

Lemma classNameOf_file_witness :
  classNameOf ("dist/nodes/Node1" +:+ "/" +:+ "Node1" +:+ "." +:+ "node.js") = "Node1"
  /\ classNameOf ("Node1" +:+ "." +:+ "node.js") = "Node1".
Proof.
  apply (classNameOf_file "dist/nodes/Node1" "Node1" "node.js");
    [discriminate | reflexivity | reflexivity | reflexivity].
Defined.
